(** * radosgw-exporter: the scrape / aggregate / publish pipeline

    A shallow embedding of [pkg/ceph_stats.go] and [pkg/metrics.go].

    - Go's [int64] and [uint64] are [Z] with the wrap-around of the
      machine addition written out ([wrap64], [add64]).
    - [float64(x)] on an integer is IEEE 754 binary64 rounding to nearest
      even, taken from the Standard Library's [SpecFloat].
    - A Go [map] is a [gmap]; the order in which [range] visits it is an
      input of every function that ranges over one ([MapOrder]).
    - The network is an oracle: [client k u] is the outcome of the
      [k]-th admin request of a cycle when it is sent to URL [u].
    - Library calls whose result the code only passes on ([json.Unmarshal],
      [URL.Parse]) are the fields of the class [Library].
    - Go lets two structs share a field name, a Rocq file does not:
      where names meet, the field carries the initials of its struct
      ([biName] is [bucketInfoEntry.Name], [bqEnabled] is
      [bucketQuotaEntry.Enabled], [usMaxSize] is [userStats.MaxSize]). *)

From Stdlib Require Import ZArith List Floats.SpecFloat Permutation.
From stdpp Require Import base gmap list strings fin_maps pretty.
Import ListNotations.

Local Open Scope string_scope.
Local Open Scope Z_scope.

(** ** Machine integers *)

Module Int64.

Definition modulus : Z := 2 ^ 64.
Definition min_signed : Z := - 2 ^ 63.
Definition max_signed : Z := 2 ^ 63 - 1.

(** The value an [int64] holds after a computation whose mathematical
    result is [z]. *)
Definition wrap64 (z : Z) : Z := (z + 2 ^ 63) mod modulus - 2 ^ 63.

(** Go's [a + b] (and [a += b]) on [int64]. *)
Definition add64 (a b : Z) : Z := wrap64 (a + b).

Definition in_range (z : Z) : Prop := min_signed <= z <= max_signed.

End Int64.

Import Int64.

(** ** float64 *)

Abbreviation float64 := spec_float (only parsing).

(** [float64(z)] for an integer [z] ([int64] or [uint64]): the nearest
    binary64 value, ties to even. *)
Definition float64_of_Z (z : Z) : float64 := binary_normalize 53 1024 z 0 false.

(** The literals [1.0] and [0.0]. *)
Definition float64_one : float64 := S754_finite false 4503599627370496 (-52).
Definition float64_zero : float64 := S754_zero false.

(** The integer a finite float stands for, when it stands for one. *)
Definition float64_to_Z (f : float64) : option Z :=
  match f with
  | S754_zero _ => Some 0
  | S754_finite s m e =>
      let v := if s then Z.neg m else Z.pos m in
      if 0 <=? e then Some (v * 2 ^ e)
      else if (v mod 2 ^ (- e) =? 0) then Some (v / 2 ^ (- e)) else None
  | _ => None
  end.

(** ** Payloads of the admin API ([ceph_stats.go]) *)

Record usageCategoryEntry := {
  ucName : string;
  BytesSent : Z;
  BytesReceived : Z;
  Ops : Z;
  SuccessfulOps : Z
}.

Record bucketUsageEntry := {
  buID : string;
  buOwner : string;
  Categories : list usageCategoryEntry
}.

Record usageEntry := {
  User : string;
  Buckets : list bucketUsageEntry
}.

Record usageResponse := {
  Entries : list usageEntry
}.

Record bucketInfoUsageEntry := {
  Size : Z;
  UtilizedSize : Z;
  NumObjects : Z
}.

Record bucketQuotaEntry := {
  bqEnabled : bool;
  bqMaxSize : Z;
  bqMaxObjects : Z
}.

(** Modelled from the spec: [NumShards], the bucket's shard count, which
    [bucketsCollector.FetchMetrics] reads and converts with [float64];
    the struct declaration in [ceph_stats.go] does not list the field.
    It is taken to be an integer like the other counters. *)
Record bucketInfoEntry := {
  biName : string;
  biOwner : string;
  ZoneGroup : string;
  NumShards : Z;
  Usage : gmap string bucketInfoUsageEntry;
  Quota : bucketQuotaEntry
}.

Record userStats := {
  usEnabled : bool;
  usMaxSize : Z;
  usMaxObjects : Z
}.

Record userListResponse := {
  Keys : list string
}.

(** ** Errors

    A Go [error] is its message; [(v, nil)] is [Ok v] and [(nil, err)]
    is [Err err]. *)

Definition error := string.

Inductive result (A : Type) : Type :=
| Ok (a : A)
| Err (e : error).
Arguments Ok {A} a.
Arguments Err {A} e.

Definition is_err {A} (r : result A) : bool :=
  match r with Ok _ => false | Err _ => true end.

#[export] Instance result_bind : MBind result := fun A B k r =>
  match r with
  | Ok a => k a
  | Err e => Err e
  end.

(** [if err != nil { return nil, fmt.Errorf("<msg> - %w", err) }] *)
Definition Errorf {A} (msg : string) (r : result A) : result A :=
  match r with
  | Ok a => Ok a
  | Err e => Err (msg ++ " - " ++ e)%string
  end.

(** ** The HTTP side of one admin request

    [queryCephAdminAPI] calls, in this order, [http.NewRequest],
    [signer.Sign], [client.Do], [io.ReadAll] and [resp.Body.Close]; an
    [Exchange] records what each of them returns. *)

Record URL := {
  Path : string;
  RawQuery : list (string * string)
}.

Record Response := {
  StatusCode : Z;
  Status : string;
  ReadAll : string * option error;
  Close : option error
}.

Record Exchange := {
  NewRequest : option error;
  Sign : option error;
  Do : result Response
}.

Definition StatusOK : Z := 200.

(** The client at one request of a cycle. *)
Definition Client := URL -> Exchange.

Definition check (msg : string) (o : option error) : result unit :=
  match o with
  | None => Ok tt
  | Some e => Err (msg ++ " - " ++ e)%string
  end.

Definition queryCephAdminAPI (client : Client) (destURL : URL) : result string :=
  let x := client destURL in
  check "failed to create request" (NewRequest x) ;;
  check "failed to sign request" (Sign x) ;;
  resp ← Errorf "failed to do request" (Do x);
  let '(respBody, err) := ReadAll resp in
  let closeErr := Close resp in
  check "failed to read response body" err ;;
  check "failed to close response body" closeErr ;;
  if negb (StatusCode resp =? StatusOK)
  then Err ("server returned " ++ Status resp ++ " - Body: " ++ respBody)%string
  else Ok respBody.

(** ** Library functions the fetchers rely on

    [Parse u ref] is [u.Parse(ref)]; the four decoders are
    [json.Unmarshal] at the four payload types. *)

Class Library := {
  Parse : URL -> string -> result URL;
  unmarshalUsage : string -> result usageResponse;
  unmarshalBuckets : string -> result (list bucketInfoEntry);
  unmarshalUserStats : string -> result userStats;
  unmarshalUserList : string -> result userListResponse
}.

(** [url.Values.Encode] writes the parameters sorted by key, the values
    of one key in the order they were added.  A query is kept here as
    its decoded pairs, so the escaping that [Encode] applies to the text
    does not show. *)
Fixpoint insertParam (kv : string * string) (q : list (string * string))
    : list (string * string) :=
  match q with
  | [] => [kv]
  | kv' :: q' =>
      if String.leb kv.1 kv'.1 then kv :: q else kv' :: insertParam kv q'
  end.

Definition Encode (q : list (string * string)) : list (string * string) :=
  foldr insertParam [] q.

(** [queryParams := destURL.Query(); queryParams.Add(..)...;
    destURL.RawQuery = queryParams.Encode()] *)
Definition withQuery (destURL : URL) (queryParams : list (string * string)) : URL :=
  {| Path := Path destURL; RawQuery := Encode (RawQuery destURL ++ queryParams) |}.

Section Fetchers.
Context `{Library}.

(** [client k] is the HTTP client as it behaves at the [k]-th request
    (from 0) that a fetcher issues. *)
Variable client : nat -> Client.
Variable rgwURL : URL.

Definition getCephUsageStats : result usageResponse :=
  destURL ← Errorf "failed to construct admin URL from ceph URL" (Parse rgwURL "admin/usage");
  let destURL := withQuery destURL
    [("format", "json"); ("show-entries", "True"); ("show-summary", "False")] in
  resp ← Errorf "failed to get usage stats from ceph" (queryCephAdminAPI (client 0%nat) destURL);
  usage ← Errorf "failed to unmarshall ceph usage response" (unmarshalUsage resp);
  Ok usage.

Definition getCephBucketStats : result (list bucketInfoEntry) :=
  destURL ← Errorf "failed to construct admin URL from ceph URL" (Parse rgwURL "admin/bucket");
  let destURL := withQuery destURL [("format", "json"); ("stats", "True")] in
  resp ← Errorf "failed to get bucket stats from ceph" (queryCephAdminAPI (client 0%nat) destURL);
  bucketStats ← Errorf "failed to unmarshall ceph bucket response" (unmarshalBuckets resp);
  Ok bucketStats.

Definition getUserList : result (list string) :=
  destURL ← Errorf "failed to construct admin URL from ceph URL" (Parse rgwURL "admin/user");
  let destURL := withQuery destURL [("format", "json"); ("list", "")] in
  resp ← Errorf "failed to get user list from ceph" (queryCephAdminAPI (client 0%nat) destURL);
  userList ← Errorf "failed to unmarshall ceph user list response" (unmarshalUserList resp);
  Ok (Keys userList).

(** One pass of the body of [for _, user := range users], as the
    [k]-th request of the fetch. *)
Definition userLookup (k : nat) (user : string) : result userStats :=
  destURL ← Errorf "failed to construct admin URL from ceph URL" (Parse rgwURL "admin/user");
  let destURL := withQuery destURL
    [("format", "json"); ("quota", ""); ("uid", user); ("quota-type", "user")] in
  resp ← Errorf "failed to get user stats from ceph" (queryCephAdminAPI (client k) destURL);
  stats ← Errorf "failed to unmarshall ceph user stats response" (unmarshalUserStats resp);
  Ok stats.

Fixpoint userQuotaLoop (k : nat) (users : list string) (statsMap : gmap string userStats)
  : result (gmap string userStats) :=
  match users with
  | [] => Ok statsMap
  | user :: rest =>
      stats ← userLookup k user;
      userQuotaLoop (S k) rest (<[user := stats]> statsMap)
  end.

Definition getCephUserQuotaStats : result (gmap string userStats) :=
  users ← getUserList;
  userQuotaLoop 1 users ∅.

End Fetchers.

(** ** Prometheus metrics, as far as the collectors build them *)

Record Desc := {
  fqName : string;
  help : string;
  variableLabels : list string
}.

Inductive ValueType := CounterValue | GaugeValue.

Record Metric := {
  mDesc : Desc;
  mValueType : ValueType;
  mValue : float64;
  mLabelValues : list string;
  mTimestamp : option Z
}.

#[export] Instance Desc_eq_dec : EqDecision Desc.
Proof. solve_decision. Defined.

Definition NewDesc (name help : string) (labels : list string) : Desc :=
  {| fqName := name; help := help; variableLabels := labels |}.

Definition MustNewConstMetric (d : Desc) (t : ValueType) (v : float64)
    (labelValues : list string) : Metric :=
  {| mDesc := d; mValueType := t; mValue := v; mLabelValues := labelValues;
     mTimestamp := None |}.

Definition NewMetricWithTimestamp (t : Z) (m : Metric) : Metric :=
  {| mDesc := mDesc m; mValueType := mValueType m; mValue := mValue m;
     mLabelValues := mLabelValues m; mTimestamp := Some t |}.

(** The series of a snapshot that carry descriptor [d] and label values
    [ls]. *)
Definition seriesOf (d : Desc) (ls : list string) (ms : list Metric) : list Metric :=
  filter (fun m => mDesc m = d /\ mLabelValues m = ls) ms.

(** ** Time

    Clock readings and durations are nanosecond counts.  [Since] is
    [time.Since], which saturates at the [int64] bounds, and [Seconds] is
    [Duration.Seconds]: [float64(d / Second) + float64(d % Second) / 1e9]. *)

Definition Second : Z := 1000000000.

Definition Since (now start : Z) : Z :=
  Z.max min_signed (Z.min max_signed (now - start)).

Definition Seconds (d : Z) : float64 :=
  SFadd 53 1024 (float64_of_Z (Z.quot d Second))
    (SFdiv 53 1024 (float64_of_Z (Z.rem d Second)) (float64_of_Z Second)).

(** ** What a collector does, step by step

    Every effect of a collector on the world outside its own stack frame
    is an [Action]; a collector's [trace] lists them, oldest first. *)

Inductive Wake := Tick | Done.

Inductive Action :=
| ANewTicker (d : Z)
| ACtxErr (cancelled : bool)
| ANow
| AFetch
| AGaugeSet (v : float64)
| ACounterInc (status : string)
| ALog (msg : string)
| ALock
| AStore (ms : list Metric)
| AUnlock
| ASelect (w : Wake)
| ASend (m : Metric).

(** The mutable part of [operationsCollector], [bucketsCollector] and
    [userInfoCollector]: the snapshot slot and the collector's children
    of the two curried scrape-accounting vectors. *)
Record collector := {
  metrics : list Metric;
  scrapeDurationSeconds : option float64;
  scrapeCountTotal : gmap string nat;
  trace : list Action
}.

Definition newCollector : collector :=
  {| metrics := []; scrapeDurationSeconds := None; scrapeCountTotal := ∅; trace := [] |}.

Definition act (a : Action) (c : collector) : collector :=
  {| metrics := metrics c; scrapeDurationSeconds := scrapeDurationSeconds c;
     scrapeCountTotal := scrapeCountTotal c; trace := trace c ++ [a] |}.

(** [c.scrapeDurationSeconds.WithLabelValues().Set(v)] *)
Definition gaugeSet (v : float64) (c : collector) : collector :=
  act (AGaugeSet v)
    {| metrics := metrics c; scrapeDurationSeconds := Some v;
       scrapeCountTotal := scrapeCountTotal c; trace := trace c |}.

Definition counterValue (status : string) (c : collector) : nat :=
  default 0%nat (scrapeCountTotal c !! status).

(** [c.scrapeCountTotal.With(prometheus.Labels{"status": status}).Inc()] *)
Definition counterInc (status : string) (c : collector) : collector :=
  act (ACounterInc status)
    {| metrics := metrics c; scrapeDurationSeconds := scrapeDurationSeconds c;
       scrapeCountTotal := <[status := S (counterValue status c)]> (scrapeCountTotal c);
       trace := trace c |}.

(** [log.Errorf(..)] *)
Definition logErrorf (msg : string) (c : collector) : collector := act (ALog msg) c.

(** [c.metrics = metrics] *)
Definition store (ms : list Metric) (c : collector) : collector :=
  act (AStore ms)
    {| metrics := ms; scrapeDurationSeconds := scrapeDurationSeconds c;
       scrapeCountTotal := scrapeCountTotal c; trace := trace c |}.

(** [c.Lock(); c.metrics = metrics; c.Unlock()] *)
Definition publish (ms : list Metric) (c : collector) : collector :=
  act AUnlock (store ms (act ALock c)).

(** [Collect]: [c.Lock(); defer c.Unlock(); for _, metric := range
    c.metrics { ch <- metric }].  The three collectors share it word for
    word. *)
Definition Collect (c : collector) : collector :=
  act AUnlock (fold_left (fun c metric => act (ASend metric) c) (metrics c) (act ALock c)).

(** The order in which one [range] over a map visits its entries. *)
Definition MapOrder := forall A : Type, list A -> list A.

Definition valid_order (o : MapOrder) : Prop := forall A (l : list A), o A l ≡ₚ l.

Definition rangeMap `{Countable K} {V} (o : MapOrder) (m : gmap K V) : list (K * V) :=
  o _ (map_to_list m).

(** What one cycle meets: the clock at [start := time.Now()] and at
    [time.Since(start)], the client, and the order of the cycle's range
    over a map. *)
Record CycleEnv := {
  envStart : Z;
  envFetched : Z;
  envClient : nat -> Client;
  envOrder : MapOrder
}.

(** One pass of [for { ... }] in [FetchMetrics]: what [ctx.Err()] says at
    the top, the cycle's environment, and which case of the [select]
    fires. *)
Record Round := {
  ctxErr : bool;
  env : CycleEnv;
  wake : Wake
}.

Inductive LoopStatus :=
| Returned   (* FetchMetrics has returned *)
| Looping    (* the rounds given are used up, the loop goes on *)
| Panicked.  (* [time.NewTicker] has panicked: the process is gone *)

(** [time.NewTicker(d)] panics when [d] is not positive, with the
    message returned here; [None] stands for the ticker. *)
Definition NewTicker (d : Z) : option string :=
  if d <=? 0 then Some "non-positive interval for NewTicker" else None.

(** The loop of the three [FetchMetrics], over the body [scrape] of the
    function literal each of them calls. *)
Fixpoint fetchLoop (scrape : CycleEnv -> collector -> collector)
    (rounds : list Round) (c : collector) : collector * LoopStatus :=
  match rounds with
  | [] => (c, Looping)
  | r :: rest =>
      let c := act (ACtxErr (ctxErr r)) c in
      if ctxErr r then (c, Returned)
      else
        let c := scrape (env r) c in
        let c := act (ASelect (wake r)) c in
        match wake r with
        | Tick => fetchLoop scrape rest c
        | Done => (c, Returned)
        end
  end.

(** ** The usage collector *)

Record usageKey := {
  Owner : string;
  Bucket : string;
  Category : string
}.

Record usageValue := {
  OpsTotal : Z;
  OpsSuccessful : Z;
  SentBytesTotal : Z;
  ReceivedBytesTotal : Z
}.

#[export] Instance usageKey_eq_dec : EqDecision usageKey.
Proof. solve_decision. Defined.

#[export] Instance usageKey_countable : Countable usageKey.
Proof.
  refine (inj_countable' (fun k => (Owner k, Bucket k, Category k))
            (fun t => {| Owner := t.1.1; Bucket := t.1.2; Category := t.2 |}) _).
  intros []; reflexivity.
Defined.

Module operationsCollector.

Definition opsTotal : Desc :=
  NewDesc "radosgw_usage_opts_total" "Number of operations"
    ["bucket"; "owner"; "category"].
Definition opsSuccessful : Desc :=
  NewDesc "radosgw_usage_successful_ops_total" "Number of successful operations"
    ["bucket"; "owner"; "category"].
Definition sentBytesTotal : Desc :=
  NewDesc "radosgw_usage_sent_bytes_total" "Bytes sent by RGW"
    ["bucket"; "owner"; "category"].
Definition receivedBytesTotal : Desc :=
  NewDesc "radosgw_usage_received_bytes_total" "Bytes received by RGW"
    ["bucket"; "owner"; "category"].

(** The zero value [combinedUsageStats[key]] yields for a missing key. *)
Definition zeroValue : usageValue :=
  {| OpsTotal := 0; OpsSuccessful := 0; SentBytesTotal := 0; ReceivedBytesTotal := 0 |}.

(** The body of the innermost loop. *)
Definition addCategory (key : usageKey) (category : usageCategoryEntry)
    (combinedUsageStats : gmap usageKey usageValue) : gmap usageKey usageValue :=
  let currentValue := default zeroValue (combinedUsageStats !! key) in
  let currentValue :=
    {| OpsTotal := add64 (OpsTotal currentValue) (Ops category);
       OpsSuccessful := add64 (OpsSuccessful currentValue) (SuccessfulOps category);
       SentBytesTotal := add64 (SentBytesTotal currentValue) (BytesSent category);
       ReceivedBytesTotal := add64 (ReceivedBytesTotal currentValue) (BytesReceived category) |} in
  <[key := currentValue]> combinedUsageStats.

(** The three nested [range] loops over entries, buckets and categories. *)
Definition combine (usageStats : usageResponse) : gmap usageKey usageValue :=
  fold_left (fun acc entry =>
    let owner := User entry in
    fold_left (fun acc bucket =>
      let bucketName := buID bucket in
      fold_left (fun acc category =>
        addCategory {| Owner := owner; Bucket := bucketName; Category := ucName category |}
          category acc)
        (Categories bucket) acc)
      (Buckets entry) acc)
    (Entries usageStats) ∅.

(** The four metrics appended for one entry of [combinedUsageStats]. *)
Definition series (start : Z) (kv : usageKey * usageValue) : list Metric :=
  let '(key, value) := kv in
  [ NewMetricWithTimestamp start
      (MustNewConstMetric opsTotal CounterValue (float64_of_Z (OpsTotal value))
         [Bucket key; Owner key; Category key]);
    NewMetricWithTimestamp start
      (MustNewConstMetric opsSuccessful CounterValue (float64_of_Z (OpsSuccessful value))
         [Bucket key; Owner key; Category key]);
    NewMetricWithTimestamp start
      (MustNewConstMetric sentBytesTotal CounterValue (float64_of_Z (SentBytesTotal value))
         [Bucket key; Owner key; Category key]);
    NewMetricWithTimestamp start
      (MustNewConstMetric receivedBytesTotal CounterValue
         (float64_of_Z (ReceivedBytesTotal value))
         [Bucket key; Owner key; Category key]) ].

(** From a decoded payload to the list that is stored. *)
Definition aggregate (o : MapOrder) (start : Z) (usageStats : usageResponse) : list Metric :=
  fold_left (fun metrics kv => (metrics ++ series start kv)%list)
    (rangeMap o (combine usageStats)) [].

Section Scrape.
Context `{Library}.
Variable rgwURL : URL.

(** The function literal called once per pass of the loop. *)
Definition scrape (e : CycleEnv) (c : collector) : collector :=
  let c := act ANow c in
  let start := envStart e in
  let c := act AFetch c in
  let r := getCephUsageStats (envClient e) rgwURL in
  let c := gaugeSet (Seconds (Since (envFetched e) start)) c in
  match r with
  | Err err =>
      let c := counterInc "error" c in
      logErrorf ("Failed to scrape Ceph usage stats - " ++ err) c
  | Ok usageStats =>
      let c := counterInc "success" c in
      let metrics := aggregate (envOrder e) start usageStats in
      publish metrics c
  end.

(** [ticker := time.NewTicker(interval)], then the loop.  A panic of
    [NewTicker] is not recovered: the goroutine ends there and takes
    the process with it. *)
Definition FetchMetrics (interval : Z) (rounds : list Round) (c : collector)
    : collector * LoopStatus :=
  match NewTicker interval with
  | Some _ => (c, Panicked)
  | None => fetchLoop scrape rounds (act (ANewTicker interval) c)
  end.

End Scrape.

End operationsCollector.

(** ** The bucket collector *)

Module bucketsCollector.

Definition bucketUsedBytes : Desc :=
  NewDesc "radosgw_usage_bucket_bytes" "Bucket used bytes"
    ["bucket"; "owner"; "zonegroup"].
Definition bucketUtilizedBytes : Desc :=
  NewDesc "radosgw_usage_bucket_utilized_bytes" "Bucket utilized bytes"
    ["bucket"; "owner"; "zonegroup"].
Definition bucketObjectCount : Desc :=
  NewDesc "radosgw_usage_bucket_objects" "Number of objects in the bucket"
    ["bucket"; "owner"; "zonegroup"].
Definition bucketShardCount : Desc :=
  NewDesc "radosgw_usage_bucket_shards" "Number of index shards for the bucket"
    ["bucket"; "owner"; "zonegroup"].
Definition bucketQuotaEnabled : Desc :=
  NewDesc "radosgw_usage_bucket_quota_enabled" "Whether a quota is enabled for the bucket"
    ["bucket"; "owner"; "zonegroup"].
Definition bucketQuotaMaxSizeBytes : Desc :=
  NewDesc "radosgw_usage_bucket_quota_size_bytes" "Maximum allowed size of the bucket"
    ["bucket"; "owner"; "zonegroup"].
Definition bucketQuotaMaxObjectCount : Desc :=
  NewDesc "radosgw_usage_bucket_quota_size_objects"
    "Maximum allowed number of objects in the bucket"
    ["bucket"; "owner"; "zonegroup"].

Definition shardSeries (start : Z) (bucketInfo : bucketInfoEntry) : list Metric :=
  [ NewMetricWithTimestamp start
      (MustNewConstMetric bucketShardCount GaugeValue (float64_of_Z (NumShards bucketInfo))
         [biName bucketInfo; biOwner bucketInfo; ZoneGroup bucketInfo]) ].

(** [if usage, ok := bucketInfo.Usage["rgw.main"]; ok { ... }] *)
Definition usageSeries (start : Z) (bucketInfo : bucketInfoEntry) : list Metric :=
  match Usage bucketInfo !! "rgw.main" with
  | Some usage =>
      [ NewMetricWithTimestamp start
          (MustNewConstMetric bucketUsedBytes GaugeValue (float64_of_Z (Size usage))
             [biName bucketInfo; biOwner bucketInfo; ZoneGroup bucketInfo]);
        NewMetricWithTimestamp start
          (MustNewConstMetric bucketUtilizedBytes GaugeValue
             (float64_of_Z (UtilizedSize usage))
             [biName bucketInfo; biOwner bucketInfo; ZoneGroup bucketInfo]);
        NewMetricWithTimestamp start
          (MustNewConstMetric bucketObjectCount GaugeValue (float64_of_Z (NumObjects usage))
             [biName bucketInfo; biOwner bucketInfo; ZoneGroup bucketInfo]) ]
  | None => []
  end.

Definition quotaSeries (start : Z) (bucketInfo : bucketInfoEntry) : list Metric :=
  let bucketQuotaEnabledValue :=
    if negb (bqEnabled (Quota bucketInfo)) then float64_zero else float64_one in
  [ NewMetricWithTimestamp start
      (MustNewConstMetric bucketQuotaEnabled GaugeValue bucketQuotaEnabledValue
         [biName bucketInfo; biOwner bucketInfo; ZoneGroup bucketInfo]);
    NewMetricWithTimestamp start
      (MustNewConstMetric bucketQuotaMaxSizeBytes GaugeValue
         (float64_of_Z (bqMaxSize (Quota bucketInfo)))
         [biName bucketInfo; biOwner bucketInfo; ZoneGroup bucketInfo]);
    NewMetricWithTimestamp start
      (MustNewConstMetric bucketQuotaMaxObjectCount GaugeValue
         (float64_of_Z (bqMaxObjects (Quota bucketInfo)))
         [biName bucketInfo; biOwner bucketInfo; ZoneGroup bucketInfo]) ].

(** The three [append]s of one pass of [range bucketStats]. *)
Definition series (start : Z) (bucketInfo : bucketInfoEntry) : list Metric :=
  (shardSeries start bucketInfo ++ usageSeries start bucketInfo
     ++ quotaSeries start bucketInfo)%list.

Definition aggregate (start : Z) (bucketStats : list bucketInfoEntry) : list Metric :=
  fold_left (fun metrics bucketInfo => (metrics ++ series start bucketInfo)%list)
    bucketStats [].

Section Scrape.
Context `{Library}.
Variable rgwURL : URL.

Definition scrape (e : CycleEnv) (c : collector) : collector :=
  let c := act ANow c in
  let start := envStart e in
  let c := act AFetch c in
  let r := getCephBucketStats (envClient e) rgwURL in
  let c := gaugeSet (Seconds (Since (envFetched e) start)) c in
  match r with
  | Err err =>
      let c := counterInc "error" c in
      logErrorf ("Failed to scrape Ceph usage stats - " ++ err) c
  | Ok bucketStats =>
      let c := counterInc "success" c in
      let metrics := aggregate start bucketStats in
      publish metrics c
  end.

(** [ticker := time.NewTicker(interval)], then the loop.  A panic of
    [NewTicker] is not recovered: the goroutine ends there and takes
    the process with it. *)
Definition FetchMetrics (interval : Z) (rounds : list Round) (c : collector)
    : collector * LoopStatus :=
  match NewTicker interval with
  | Some _ => (c, Panicked)
  | None => fetchLoop scrape rounds (act (ANewTicker interval) c)
  end.

End Scrape.

End bucketsCollector.

(** ** The user-quota collector *)

Module userInfoCollector.

Definition userQuotaEnabled : Desc :=
  NewDesc "radosgw_usage_user_quota_enabled" "Whether a quota is enabled for the user"
    ["user"].
Definition userQuotaMaxSizeBytes : Desc :=
  NewDesc "radosgw_usage_user_quota_size_bytes" "Maximum allowed size for the user"
    ["user"].
Definition userQuotaMaxObjects : Desc :=
  NewDesc "radosgw_usage_user_quota_size_objects"
    "Maximum allowed number of objects for the user"
    ["user"].

Definition series (start : Z) (kv : string * userStats) : list Metric :=
  let '(userName, quotaInfo) := kv in
  let userQuotaEnabledValue :=
    if negb (usEnabled quotaInfo) then float64_zero else float64_one in
  [ NewMetricWithTimestamp start
      (MustNewConstMetric userQuotaEnabled GaugeValue userQuotaEnabledValue [userName]);
    NewMetricWithTimestamp start
      (MustNewConstMetric userQuotaMaxSizeBytes GaugeValue
         (float64_of_Z (usMaxSize quotaInfo)) [userName]);
    NewMetricWithTimestamp start
      (MustNewConstMetric userQuotaMaxObjects GaugeValue
         (float64_of_Z (usMaxObjects quotaInfo)) [userName]) ].

Definition aggregate (o : MapOrder) (start : Z) (userQuotaInfo : gmap string userStats)
    : list Metric :=
  fold_left (fun metrics kv => (metrics ++ series start kv)%list)
    (rangeMap o userQuotaInfo) [].

Section Scrape.
Context `{Library}.
Variable rgwURL : URL.

Definition scrape (e : CycleEnv) (c : collector) : collector :=
  let c := act ANow c in
  let start := envStart e in
  let c := act AFetch c in
  let r := getCephUserQuotaStats (envClient e) rgwURL in
  let c := gaugeSet (Seconds (Since (envFetched e) start)) c in
  match r with
  | Err err =>
      let c := counterInc "error" c in
      logErrorf ("Failed to scrape Ceph usage stats - " ++ err) c
  | Ok userQuotaInfo =>
      let c := counterInc "success" c in
      let metrics := aggregate (envOrder e) start userQuotaInfo in
      publish metrics c
  end.

(** [ticker := time.NewTicker(interval)], then the loop.  A panic of
    [NewTicker] is not recovered: the goroutine ends there and takes
    the process with it. *)
Definition FetchMetrics (interval : Z) (rounds : list Round) (c : collector)
    : collector * LoopStatus :=
  match NewTicker interval with
  | Some _ => (c, Panicked)
  | None => fetchLoop scrape rounds (act (ANewTicker interval) c)
  end.

End Scrape.

End userInfoCollector.


(** ** Vocabulary for the usage aggregate

    The raw rows of a payload in the order the nested loops meet them,
    and the mathematical (unbounded) sum of a counter over the rows of one
    key. *)

Definition rawEntries (usageStats : usageResponse) : list (usageKey * usageCategoryEntry) :=
  flat_map (fun entry =>
    flat_map (fun bucket =>
      map (fun category =>
             ({| Owner := User entry; Bucket := buID bucket; Category := ucName category |},
              category))
          (Categories bucket))
      (Buckets entry))
    (Entries usageStats).

Definition withKey (k : usageKey) (raw : list (usageKey * usageCategoryEntry))
    : list (usageKey * usageCategoryEntry) :=
  filter (fun kc => kc.1 = k) raw.

Definition sumOver (f : usageCategoryEntry -> Z) (raw : list (usageKey * usageCategoryEntry)) : Z :=
  foldr (fun kc acc => f kc.2 + acc) 0 raw.

Definition exactSum (f : usageCategoryEntry -> Z) (k : usageKey) (usageStats : usageResponse) : Z :=
  sumOver f (withKey k (rawEntries usageStats)).

(** One row added to the map: the body of the innermost loop again. *)
Definition addRaw (acc : gmap usageKey usageValue) (kc : usageKey * usageCategoryEntry)
    : gmap usageKey usageValue :=
  operationsCollector.addCategory kc.1 kc.2 acc.

Definition usageLabels (k : usageKey) : list string := [Bucket k; Owner k; Category k].

(** The counter series with descriptor [d] for key [k] holding [float64(z)]. *)
Definition usageCounter (start : Z) (d : Desc) (k : usageKey) (z : Z) : Metric :=
  NewMetricWithTimestamp start
    (MustNewConstMetric d CounterValue (float64_of_Z z) (usageLabels k)).

(** The aggregate of key [k] with unbounded sums, and what [int64]
    arithmetic leaves of a value. *)
Definition exactValue (k : usageKey) (raw : list (usageKey * usageCategoryEntry)) : usageValue :=
  {| OpsTotal := sumOver Ops (withKey k raw);
     OpsSuccessful := sumOver SuccessfulOps (withKey k raw);
     SentBytesTotal := sumOver BytesSent (withKey k raw);
     ReceivedBytesTotal := sumOver BytesReceived (withKey k raw) |}.

Definition wrapValue (v : usageValue) : usageValue :=
  {| OpsTotal := wrap64 (OpsTotal v);
     OpsSuccessful := wrap64 (OpsSuccessful v);
     SentBytesTotal := wrap64 (SentBytesTotal v);
     ReceivedBytesTotal := wrap64 (ReceivedBytesTotal v) |}.

Definition fitsInt64 (v : usageValue) : Prop :=
  in_range (OpsTotal v) /\ in_range (OpsSuccessful v) /\
  in_range (SentBytesTotal v) /\ in_range (ReceivedBytesTotal v).

(** A snapshot holds, for key [k], exactly one series of each of the
    four kinds, carrying the counters of [v]. *)
Definition fourSeries (start : Z) (k : usageKey) (v : usageValue) (snap : list Metric) : Prop :=
  seriesOf operationsCollector.opsTotal (usageLabels k) snap
    = [usageCounter start operationsCollector.opsTotal k (OpsTotal v)] /\
  seriesOf operationsCollector.opsSuccessful (usageLabels k) snap
    = [usageCounter start operationsCollector.opsSuccessful k (OpsSuccessful v)] /\
  seriesOf operationsCollector.sentBytesTotal (usageLabels k) snap
    = [usageCounter start operationsCollector.sentBytesTotal k (SentBytesTotal v)] /\
  seriesOf operationsCollector.receivedBytesTotal (usageLabels k) snap
    = [usageCounter start operationsCollector.receivedBytesTotal k (ReceivedBytesTotal v)].

(** ** Vocabulary for one cycle's accounting *)

Definition elapsed (e : CycleEnv) : float64 := Seconds (Since (envFetched e) (envStart e)).

(** The cycle that took [c] to [c'] counted as an error and nothing else. *)
Definition countedError (c c' : collector) : Prop :=
  counterValue "error" c' = S (counterValue "error" c) /\
  counterValue "success" c' = counterValue "success" c.

Definition countedSuccess (c c' : collector) : Prop :=
  counterValue "success" c' = S (counterValue "success" c) /\
  counterValue "error" c' = counterValue "error" c.

(** A failed cycle: the snapshot is the one before, one error counted. *)
Definition abandoned (e : CycleEnv) (c c' : collector) : Prop :=
  metrics c' = metrics c /\ countedError c c' /\
  scrapeDurationSeconds c' = Some (elapsed e).

(** A cycle that stored [ms]. *)
Definition published (e : CycleEnv) (ms : list Metric) (c c' : collector) : Prop :=
  metrics c' = ms /\ countedSuccess c c' /\
  scrapeDurationSeconds c' = Some (elapsed e).

(** ** Vocabulary for the fetchers' failures

    What can go wrong with one exchange, by the call that reports it. *)

Definition isSome {A} (o : option A) : bool :=
  match o with Some _ => true | None => false end.

(** [http.NewRequest] or [signer.Sign] fails: nothing is sent. *)
Definition notSent (x : Exchange) : bool := isSome (NewRequest x) || isSome (Sign x).

(** [client.Do], [io.ReadAll] or [resp.Body.Close] fails. *)
Definition transportFails (x : Exchange) : bool :=
  match Do x with
  | Err _ => true
  | Ok resp => isSome (ReadAll resp).2 || isSome (Close resp)
  end.

(** An answer arrives whole, with a status other than 200. *)
Definition nonOKStatus (x : Exchange) : bool :=
  match Do x with
  | Err _ => false
  | Ok resp => negb (StatusCode resp =? StatusOK)
  end.

(** The body the exchange delivers. *)
Definition bodyOf (x : Exchange) : string :=
  match Do x with
  | Err _ => ""
  | Ok resp => (ReadAll resp).1
  end.

(** The failures the spec lists for one request with decoder [dec]:
    transport, status, decoding. *)
Definition listedFailure {A} (dec : string -> result A) (x : Exchange) : bool :=
  transportFails x || nonOKStatus x || is_err (dec (bodyOf x)).

(** The same with the failures before anything is sent. *)
Definition anyFailure {A} (dec : string -> result A) (parsed : result URL) (x : Exchange) : bool :=
  is_err parsed || notSent x || listedFailure dec x.

(** The URL a fetcher asks for, when [Parse] gives one. *)
Definition destOf `{Library} (rgwURL : URL) (ref : string) (q : list (string * string)) : URL :=
  match Parse rgwURL ref with
  | Ok u => withQuery u q
  | Err _ => withQuery rgwURL q
  end.

Definition usageQuery : list (string * string) :=
  [("format", "json"); ("show-entries", "True"); ("show-summary", "False")].
Definition bucketQuery : list (string * string) := [("format", "json"); ("stats", "True")].
Definition userListQuery : list (string * string) := [("format", "json"); ("list", "")].
Definition userQuery (user : string) : list (string * string) :=
  [("format", "json"); ("quota", ""); ("uid", user); ("quota-type", "user")].

(** ** The protocol of the scheduling loop

    The states a collector goroutine goes through, told from its
    actions: [Top] is the head of the [for], [Finished] the end of the
    function literal, and the [select] is taken from [Finished] only. *)

Inductive Phase :=
| Created | Top | Ready | Started | Fetched | Timed
| CountedErr | CountedOk | Locked | Stored | Finished | Stopped.

Definition phaseStep (p : Phase) (a : Action) : option Phase :=
  match p, a with
  | Created, ANewTicker _ => Some Top
  | Top, ACtxErr true => Some Stopped
  | Top, ACtxErr false => Some Ready
  | Ready, ANow => Some Started
  | Started, AFetch => Some Fetched
  | Fetched, AGaugeSet _ => Some Timed
  | Timed, ACounterInc status =>
      if String.eqb status "error" then Some CountedErr
      else if String.eqb status "success" then Some CountedOk
      else None
  | CountedErr, ALog _ => Some Finished
  | CountedOk, ALock => Some Locked
  | Locked, AStore _ => Some Stored
  | Stored, AUnlock => Some Finished
  | Finished, ASelect Tick => Some Top
  | Finished, ASelect Done => Some Stopped
  | _, _ => None
  end.

Fixpoint phaseRun (p : Phase) (tr : list Action) : option Phase :=
  match tr with
  | [] => Some p
  | a :: tr => match phaseStep p a with
               | Some p' => phaseRun p' tr
               | None => None
               end
  end.

(** ** The lock, read off a trace *)

Definition lockStep (held : bool) (a : Action) : bool :=
  match a with
  | ALock => true
  | AUnlock => false
  | _ => held
  end.

Definition lockHeld (tr : list Action) : bool := fold_left lockStep tr false.

Definition isSend (a : Action) : bool :=
  match a with ASend _ => true | _ => false end.

(** Every [ch <- metric] of [tr] happens with the lock free. *)
Fixpoint sendsWithLockFree (held : bool) (tr : list Action) : bool :=
  match tr with
  | [] => true
  | a :: tr => (if isSend a then negb held else true) && sendsWithLockFree (lockStep held a) tr
  end.

(** Every [ch <- metric] of [tr] happens with the lock held. *)
Fixpoint sendsUnderLock (held : bool) (tr : list Action) : bool :=
  match tr with
  | [] => true
  | a :: tr => (if isSend a then held else true) && sendsUnderLock (lockStep held a) tr
  end.

(** ** Vocabulary for the bucket series *)

Definition bucketLabels (b : bucketInfoEntry) : list string :=
  [biName b; biOwner b; ZoneGroup b].

Definition bucketGauge (start : Z) (d : Desc) (b : bucketInfoEntry) (v : float64) : Metric :=
  NewMetricWithTimestamp start (MustNewConstMetric d GaugeValue v (bucketLabels b)).

Definition isUsageDesc (d : Desc) : Prop :=
  d = bucketsCollector.bucketUsedBytes \/ d = bucketsCollector.bucketUtilizedBytes \/
  d = bucketsCollector.bucketObjectCount.

(** ** Fixtures

    A library, clients and payloads on which the definitions run. *)

Module Fixture.

Definition rgwURL : URL := {| Path := "https://objects.example.com/"; RawQuery := [] |}.

Definition alice_b1_put : usageKey :=
  {| Owner := "alice"; Bucket := "b1"; Category := "put_obj" |}.

Definition row (ops successful sent received : Z) : usageCategoryEntry :=
  {| ucName := "put_obj"; BytesSent := sent; BytesReceived := received;
     Ops := ops; SuccessfulOps := successful |}.

Definition payloadOf (rows : list usageCategoryEntry) : usageResponse :=
  {| Entries := [ {| User := "alice";
                     Buckets := [ {| buID := "b1"; buOwner := "alice";
                                     Categories := rows |} ] |} ] |}.

(** Two rows of one key: ops 3 and 4, successful ops 3 and 3, bytes
    sent 100 and 50. *)
Definition duplicated : usageResponse := payloadOf [row 3 3 100 0; row 4 3 50 0].

(** Two rows of one key whose ops add up to [2^63]. *)
Definition huge : usageResponse :=
  payloadOf [row (2 ^ 62) 1 0 0; row (2 ^ 62) 1 0 0].

Definition withMain : bucketInfoEntry :=
  {| biName := "b1"; biOwner := "alice"; ZoneGroup := "default"; NumShards := 11;
     Usage := {[ "rgw.main" := {| Size := 4096; UtilizedSize := 1000; NumObjects := 2 |} ]};
     Quota := {| bqEnabled := true; bqMaxSize := 1048576; bqMaxObjects := 100 |} |}.

Definition withoutMain : bucketInfoEntry :=
  {| biName := "b2"; biOwner := "bob"; ZoneGroup := "default"; NumShards := 1;
     Usage := {[ "rgw.multimeta" := {| Size := 0; UtilizedSize := 0; NumObjects := 3 |} ]};
     Quota := {| bqEnabled := false; bqMaxSize := -1; bqMaxObjects := 0 |} |}.

Definition quotaOn : userStats := {| usEnabled := true; usMaxSize := 1024; usMaxObjects := 10 |}.
Definition quotaOff : userStats := {| usEnabled := false; usMaxSize := -1; usMaxObjects := -1 |}.

Definition fiveUsers : list string := ["u1"; "u2"; "u3"; "u4"; "u5"].

(** A decoder that knows a handful of bodies by name. *)
Definition lib : Library :=
  {| Parse := fun u ref => Ok {| Path := Path u ++ ref; RawQuery := [] |};
     unmarshalUsage := fun body =>
       if String.eqb body "duplicated" then Ok duplicated
       else if String.eqb body "huge" then Ok huge
       else if String.eqb body "empty" then Ok {| Entries := [] |}
       else Err "unexpected end of JSON input";
     unmarshalBuckets := fun body =>
       if String.eqb body "two buckets" then Ok [withMain; withoutMain]
       else if String.eqb body "empty" then Ok []
       else Err "unexpected end of JSON input";
     unmarshalUserStats := fun body =>
       if String.eqb body "on" then Ok quotaOn
       else if String.eqb body "off" then Ok quotaOff
       else Err "unexpected end of JSON input";
     unmarshalUserList := fun body =>
       if String.eqb body "five users" then Ok {| Keys := fiveUsers |}
       else if String.eqb body "empty" then Ok {| Keys := [] |}
       else Err "unexpected end of JSON input" |}.

Definition answer (code : Z) (status body : string) : Exchange :=
  {| NewRequest := None; Sign := None;
     Do := Ok {| StatusCode := code; Status := status; ReadAll := (body, None);
                 Close := None |} |}.

Definition ok (body : string) : Exchange := answer 200 "200 OK" body.

Definition refused : Exchange :=
  {| NewRequest := None; Sign := None; Do := Err "dial tcp: connection refused" |}.

(** Signing fails (as with empty static credentials); the server would
    have answered. *)
Definition unsigned (body : string) : Exchange :=
  {| NewRequest := None; Sign := Some "EmptyStaticCreds: static credentials are empty";
     Do := Do (ok body) |}.

(** A client that answers the [k]-th request with the [k]-th exchange
    of a script, and refuses connections after it. *)
Definition scripted (script : list Exchange) : nat -> Client :=
  fun k _ => nth k script refused.

Definition reversed : MapOrder := fun _ l => rev l.

Definition cycle (script : list Exchange) : CycleEnv :=
  {| envStart := 1000; envFetched := 1500001000; envClient := scripted script;
     envOrder := reversed |}.

(** A collector that has published before. *)
Definition stale : Metric :=
  NewMetricWithTimestamp 1
    (MustNewConstMetric operationsCollector.opsTotal CounterValue (float64_of_Z 1)
       ["old"; "old"; "old"]).

Definition seasoned : collector :=
  {| metrics := [stale]; scrapeDurationSeconds := Some float64_zero;
     scrapeCountTotal := {[ "success" := 1%nat ]}; trace := [] |}.

End Fixture.

(** ** What a call adds to the trace, and what a reader is handed *)

Definition emitted (c c' : collector) : list Action := drop (length (trace c)) (trace c').

(** The series one call of [Collect] puts on the channel: the answer to
    an exposition query. *)
Definition collected (c : collector) : list Metric :=
  omap (fun a => match a with ASend m => Some m | _ => None end) (emitted c (Collect c)).

(** What a cycle with fetch result [r] must have done to the accounting
    and to the snapshot. *)
Definition cycleOutcome {A} (r : result A) (c c' : collector) : Prop :=
  (is_err r = true ->
     metrics c' = metrics c /\ collected c' = collected c /\ countedError c c') /\
  (is_err r = false -> countedSuccess c c').

Definition accounted (e : CycleEnv) (c c' : collector) : Prop :=
  scrapeDurationSeconds c' = Some (Seconds (Since (envFetched e) (envStart e))) /\
  (countedSuccess c c' /\ ~ countedError c c' \/
   countedError c c' /\ ~ countedSuccess c c').

(** What the error branch of a cycle adds to the trace. *)
Definition failureTrace (e : CycleEnv) (err : error) : list Action :=
  [ANow; AFetch; AGaugeSet (elapsed e); ACounterInc "error";
   ALog ("Failed to scrape Ceph usage stats - " ++ err)].

Definition successTrace (e : CycleEnv) (ms : list Metric) : list Action :=
  [ANow; AFetch; AGaugeSet (elapsed e); ACounterInc "success"; ALock; AStore ms; AUnlock].


(** ** Vocabulary for the loop

    [tr] is what one cycle adds to the trace: it opens with the clock
    reading and the fetch, and takes the protocol from [Ready] to
    [Finished]. *)
Definition cycleTrace (tr : list Action) : Prop :=
  (exists rest, tr = ANow :: AFetch :: rest) /\ phaseRun Ready tr = Some Finished.

(** What [FetchMetrics], started on [c] and run over [rounds], must have
    added to the trace when it is in state [r]. *)
Definition runsInSequence (interval : Z) (rounds : list Round) (c : collector)
    (r : collector * LoopStatus) : Prop :=
  exists tr,
    trace r.1 = (trace c ++ tr)%list /\
    phaseRun Created tr
      = Some (match r.2 with
              | Returned => Stopped | Looping => Top | Panicked => Created
              end) /\
    (forall tr1 w tr2, tr = (tr1 ++ ASelect w :: tr2)%list ->
       phaseRun Created tr1 = Some Finished) /\
    (forall tr1 tr2, tr = (tr1 ++ ANow :: tr2)%list ->
       phaseRun Created tr1 = Some Ready) /\
    (forall r0 rest, rounds = r0 :: rest -> ctxErr r0 = false ->
       exists tr', tr = ([ANewTicker interval; ACtxErr false; ANow; AFetch] ++ tr')%list).

(** The gauges of one bucket, by group. *)
Definition shardGauge (start : Z) (b : bucketInfoEntry) : Metric :=
  bucketGauge start bucketsCollector.bucketShardCount b (float64_of_Z (NumShards b)).

Definition usageGauges (start : Z) (b : bucketInfoEntry) (usage : bucketInfoUsageEntry)
    : list Metric :=
  [ bucketGauge start bucketsCollector.bucketUsedBytes b (float64_of_Z (Size usage));
    bucketGauge start bucketsCollector.bucketUtilizedBytes b (float64_of_Z (UtilizedSize usage));
    bucketGauge start bucketsCollector.bucketObjectCount b (float64_of_Z (NumObjects usage)) ].

Definition quotaEnabledGauge (start : Z) (b : bucketInfoEntry) : Metric :=
  bucketGauge start bucketsCollector.bucketQuotaEnabled b
    (if bqEnabled (Quota b) then float64_one else float64_zero).

Definition quotaMaxSizeGauge (start : Z) (b : bucketInfoEntry) : Metric :=
  bucketGauge start bucketsCollector.bucketQuotaMaxSizeBytes b
    (float64_of_Z (bqMaxSize (Quota b))).

Definition quotaMaxObjectsGauge (start : Z) (b : bucketInfoEntry) : Metric :=
  bucketGauge start bucketsCollector.bucketQuotaMaxObjectCount b
    (float64_of_Z (bqMaxObjects (Quota b))).

Definition quotaGauges (start : Z) (b : bucketInfoEntry) : list Metric :=
  [quotaEnabledGauge start b; quotaMaxSizeGauge start b; quotaMaxObjectsGauge start b].

(** The snapshot [snap] holds the block [block] that the pass over one
    bucket appended, between the blocks of the buckets before and after. *)
Definition holdsBlock (snap block : list Metric) : Prop :=
  exists before after, snap = (before ++ block ++ after)%list.

(** ** [Describe]

    The descriptors each collector puts on the channel of [Describe], in
    the order of the sends. *)

Module Describe.

Definition operationsCollector : list Desc :=
  [ operationsCollector.opsTotal; operationsCollector.opsSuccessful;
    operationsCollector.sentBytesTotal; operationsCollector.receivedBytesTotal ].

Definition bucketsCollector : list Desc :=
  [ bucketsCollector.bucketUsedBytes; bucketsCollector.bucketUtilizedBytes;
    bucketsCollector.bucketObjectCount; bucketsCollector.bucketShardCount;
    bucketsCollector.bucketQuotaEnabled; bucketsCollector.bucketQuotaMaxSizeBytes;
    bucketsCollector.bucketQuotaMaxObjectCount ].

Definition userInfoCollector : list Desc :=
  [ userInfoCollector.userQuotaEnabled; userInfoCollector.userQuotaMaxSizeBytes;
    userInfoCollector.userQuotaMaxObjects ].

End Describe.

(** ** Vocabulary for snapshots *)

(** What tells two series of one collector apart when they are gathered:
    the descriptor and the label values. *)
Definition identity (m : Metric) : Desc * list string := (mDesc m, mLabelValues m).

(** A series as the registry expects it from a collector that described
    [described]: one of the described descriptors, as many label values
    as the descriptor has labels, the value type [t] and the timestamp
    [start]. *)
Definition wellFormedSeries (described : list Desc) (t : ValueType) (start : Z) (m : Metric)
    : Prop :=
  mDesc m ∈ described /\
  length (mLabelValues m) = length (variableLabels (mDesc m)) /\
  mValueType m = t /\
  mTimestamp m = Some start.

Definition userGauge (start : Z) (d : Desc) (user : string) (v : float64) : Metric :=
  NewMetricWithTimestamp start (MustNewConstMetric d GaugeValue v [user]).

(** The three series of one user. *)
Definition userGauges (start : Z) (user : string) (quotaInfo : userStats) : list Metric :=
  [ userGauge start userInfoCollector.userQuotaEnabled user
      (if usEnabled quotaInfo then float64_one else float64_zero);
    userGauge start userInfoCollector.userQuotaMaxSizeBytes user
      (float64_of_Z (usMaxSize quotaInfo));
    userGauge start userInfoCollector.userQuotaMaxObjects user
      (float64_of_Z (usMaxObjects quotaInfo)) ].

Definition hasMain (b : bucketInfoEntry) : Prop := is_Some (Usage b !! "rgw.main").

(** ** Vocabulary for runs of the loop *)

(** The rounds whose cycle runs: those before the first round that finds
    the context cancelled, up to and including the first whose [select]
    takes the [Done] case. *)
Fixpoint executed (rounds : list Round) : list Round :=
  match rounds with
  | [] => []
  | r :: rest =>
      if ctxErr r then []
      else r :: match wake r with
                | Tick => executed rest
                | Done => []
                end
  end.

(** The rounds the loop looks at: through the first that makes it return. *)
Fixpoint untilStop (rounds : list Round) : list Round :=
  match rounds with
  | [] => []
  | r :: rest =>
      if ctxErr r then [r]
      else match wake r with
           | Tick => r :: untilStop rest
           | Done => [r]
           end
  end.

Definition stops (r : Round) : Prop := ctxErr r = true \/ wake r = Done.

(** After the run from [c] to [c'] over [rounds], a reader is handed the
    aggregate of the last executed round whose fetch succeeded, and what
    it was handed before the run if there is none. *)
Definition servesLatest {A} (fetch : CycleEnv -> result A) (agg : CycleEnv -> A -> list Metric)
    (rounds : list Round) (c c' : collector) : Prop :=
  ((forall r, r ∈ executed rounds -> is_err (fetch (env r)) = true) ->
     collected c' = collected c) /\
  (forall before r after payload,
     executed rounds = (before ++ r :: after)%list ->
     fetch (env r) = Ok payload ->
     (forall r', r' ∈ after -> is_err (fetch (env r')) = true) ->
     collected c' = agg (env r) payload).

(** Over the run from [c] to [c'] every executed round was counted once,
    under the status of its fetch, and no other status was touched. *)
Definition countsRounds {A} (fetch : CycleEnv -> result A) (rounds : list Round)
    (c c' : collector) : Prop :=
  counterValue "success" c'
    = (counterValue "success" c
       + length (filter (fun r => is_err (fetch (env r)) = false) (executed rounds)))%nat /\
  counterValue "error" c'
    = (counterValue "error" c
       + length (filter (fun r => is_err (fetch (env r)) = true) (executed rounds)))%nat /\
  (forall status, status <> "success" -> status <> "error" ->
     counterValue status c' = counterValue status c).

(** One cycle of [scrape], seen from outside: with [fetch] its fetch and
    [agg] its aggregation, it stores the aggregate of a fetched payload,
    keeps the snapshot when the fetch fails, and adds one to the counter
    of the fetch's status and to no other. *)
Definition cycleOf {A} (fetch : CycleEnv -> result A) (agg : CycleEnv -> A -> list Metric)
    (scrape : CycleEnv -> collector -> collector) : Prop :=
  forall e c,
    metrics (scrape e c)
      = match fetch e with
        | Ok payload => agg e payload
        | Err _ => metrics c
        end /\
    forall status,
      counterValue status (scrape e c)
        = (counterValue status c
           + if decide (status = if is_err (fetch e) then "error" else "success")
             then 1 else 0)%nat.

(** The snapshot one more executed round leaves. *)
Definition afterRound {A} (fetch : CycleEnv -> result A) (agg : CycleEnv -> A -> list Metric)
    (ms : list Metric) (r : Round) : list Metric :=
  match fetch (env r) with
  | Ok payload => agg (env r) payload
  | Err _ => ms
  end.

(** ** The health endpoints ([server.go])

    [cephHealthCheck] sends an unsigned GET to [swift/healthcheck] and
    throws the body away.  An [Exchange] serves again: [NewRequest] is
    what [http.NewRequestWithContext] returns, the error of [ReadAll]
    what [io.Copy(io.Discard, resp.Body)] returns; [Sign] is not called.
    [%d] prints an integer in decimal, as [pretty] does. *)

Definition cephHealthCheck `{Library} (client : Client) (rgwURL : URL) : result unit :=
  cephHealthcheckURL ← Errorf "failed to create ceph healthcheck URL"
                         (Parse rgwURL "swift/healthcheck");
  let x := client cephHealthcheckURL in
  check "failed to create request" (NewRequest x) ;;
  resp ← Errorf "failed to query ceph" (Do x);
  let err := (ReadAll resp).2 in
  let closeErr := Close resp in
  check "failed to read ceph resp body" err ;;
  check "failed to close ceph resp body" closeErr ;;
  if negb (StatusCode resp =? StatusOK)
  then Err ("request to ceph returned " ++ pretty (StatusCode resp))
  else Ok tt.

(** What a handler has done to its [http.ResponseWriter] and to the log
    when it returns. *)
Record Answer := {
  wroteHeader : Z;
  wrote : string;
  loggedErrors : list string
}.

Definition StatusInternalServerError : Z := 500.

(** [w.WriteHeader(code)] and [w.Write(body)]; [write body] is the error
    [Write] returns, which the handlers log under [failure]. *)
Definition respond (write : string -> option error) (code : Z) (body failure : string)
    : Answer :=
  {| wroteHeader := code; wrote := body;
     loggedErrors := match write body with
                     | Some err => [failure ++ " - " ++ err]
                     | None => []
                     end |}.

(** The handler of [/readiness]. *)
Definition readiness `{Library} (client : Client) (rgwURL : URL)
    (write : string -> option error) : Answer :=
  match cephHealthCheck client rgwURL with
  | Err err =>
      respond write StatusInternalServerError ("Ceph Health check failed - " ++ err)
        "Failed writing readiness failure"
  | Ok _ => respond write StatusOK "ready" "Failed writing readiness success"
  end.

(** The handler of [/liveness]. *)
Definition liveness (write : string -> option error) : Answer :=
  respond write StatusOK "alive" "Failed writing liveness success".

(** The probe finds the gateway in good health. *)
Definition healthy (x : Exchange) : Prop :=
  NewRequest x = None /\
  exists resp, Do x = Ok resp /\ (ReadAll resp).2 = None /\ Close resp = None /\
               StatusCode resp = StatusOK.

(** ** Start-up and shut-down ([server.go])

    [RunServer] reads its settings through viper, validates them, starts
    the scrapers and the HTTP server, waits for a signal and shuts down.
    What viper and the parsers return is the class [Settings]
    ([GetString] and [GetInt] after the [SetDefault]s and
    [AutomaticEnv]); a log level is its number, a duration its
    nanoseconds.  The calls [RunServer] makes on the world are
    [ServerAction]s. *)

Class Settings := {
  GetString : string -> string;
  GetInt : string -> Z;
  ParseLevel : string -> result Z;
  url_Parse : string -> result URL;
  Str2Duration : string -> result Z
}.

Definition viperLogLevel : string := "log_level".
Definition viperPort : string := "port".
Definition viperRGWURL : string := "rgw_url".
Definition viperInterval : string := "interval".
Definition viperAccessKey : string := "access_key".
Definition viperSecretKey : string := "secret_key".

Inductive ServerAction :=
| SSetLevel (level : Z)
| SWithCancel
| SNotify
| SStartScraping (rgwURL : URL) (accessKey secretKey : string) (interval : Z)
| SListenAndServe (addr : string)
| SAwaitSignal
| SDebugf (msg : string)
| SInfof (msg : string)
| SErrorf (msg : string)
| SShutdown (timeout : Z)
| SClose
| SServerCancel
| SSleep (d : Z)
| SCancelTimeout.

(** What [RunServer] meets once the server runs: the signal that ends
    the wait and what [srv.Shutdown] and [srv.Close] return. *)
Record ShutdownEnv := {
  doneSignal : string;
  shutdownErr : option error;
  srvCloseErr : option error
}.

(** How a call of [RunServer] ends: it returns its error, or the
    process dies of a panic that nothing recovers. *)
Inductive Exit :=
| Returns (err : option error)
| Panics (msg : string).

(** [startServer]: the credentials, the metrics and their scrapers, the
    server on [":<port>"] started in a goroutine of its own (a failure
    to listen is logged from there, it is not returned), the log line.
    Its error result is always [nil].  [SStartScraping] is the call of
    [StartScraping], which starts the three [FetchMetrics] with the
    interval given. *)
Definition startServer (rgwURL : URL) (accessKey secretKey : string) (port : Z)
    (scrapeInterval : Z) : list ServerAction * result unit :=
  ([ SStartScraping rgwURL accessKey secretKey scrapeInterval;
     SListenAndServe (":" ++ pretty port);
     SInfof "HTTP Server Started" ],
   Ok tt).

Definition logIfErr (msg : string) (o : option error) : list ServerAction :=
  match o with
  | Some err => [SErrorf (msg ++ err)]
  | None => []
  end.

(** [RunServer]: the actions taken and how the call ends.

    The goroutines that [StartScraping] starts call
    [time.NewTicker(interval)] before anything else, and [RunServer]
    checks the interval for nothing but a parse error: with an interval
    that is not positive all three panic and the process exits.  How far
    the main goroutine has got by then is up to the scheduler; here
    [startServer] has returned and no signal has been received. *)
Definition RunServer `{Settings} (sd : ShutdownEnv) : list ServerAction * Exit :=
  let logLevelStr := GetString viperLogLevel in
  match ParseLevel logLevelStr with
  | Err err =>
      ([], Returns (Some ("failed to parse RGW_EXPORTER_CEPH_URL `" ++ logLevelStr
                          ++ "` - " ++ err)))
  | Ok logLevel =>
  let tr := [SSetLevel logLevel] in
  let rgwURLStr := GetString viperRGWURL in
  if String.eqb rgwURLStr "" then
    (tr, Returns (Some "RGW_EXPORTER_CEPH_URL is a required argument"))
  else
  match url_Parse rgwURLStr with
  | Err err =>
      (tr, Returns (Some ("failed to parse RGW_EXPORTER_CEPH_URL `" ++ rgwURLStr
                          ++ "` - " ++ err)))
  | Ok rgwURL =>
  let intervalStr := GetString viperInterval in
  if String.eqb intervalStr "" then
    (tr, Returns (Some "RGW_EXPORTER_INTERVAL is a required argument"))
  else
  match Str2Duration intervalStr with
  | Err err =>
      (tr, Returns (Some ("failed to parse RGW_EXPORTER_INTERVAL `" ++ intervalStr
                          ++ "` as a duration - " ++ err)))
  | Ok interval =>
  let accessKey := GetString viperAccessKey in
  if String.eqb accessKey "" then
    (tr, Returns (Some "RGW_EXPORTER_ACCESS_KEY is a required argument"))
  else
  let secretKey := GetString viperSecretKey in
  if String.eqb secretKey "" then
    (tr, Returns (Some "RGW_EXPORTER_SECRET_KEY is a required argument"))
  else
  let tr := (tr ++ [SWithCancel; SNotify])%list in
  let '(started, r) := startServer rgwURL accessKey secretKey (GetInt viperPort) interval in
  let tr := (tr ++ started)%list in
  match r with
  | Err err =>
      ((tr ++ [SServerCancel])%list, Returns (Some ("failed to start server - " ++ err)))
  | Ok _ =>
  match NewTicker interval with
  | Some msg => (tr, Panics msg)
  | None =>
  let timeout := 10 in
  let delay := 2 in
  ((tr ++ [ SAwaitSignal;
            SDebugf ("Got " ++ doneSignal sd ++ " signal");
            SInfof ("HTTP Server Stopping... Waiting up to " ++ pretty timeout
                    ++ " seconds for all in-progress requests to finish.");
            SShutdown (timeout * Second) ]
       ++ logIfErr "HTTP Server Shutdown Failed - " (shutdownErr sd)
       ++ [SClose]
       ++ logIfErr "Failed closing server: " (srvCloseErr sd)
       ++ [ SServerCancel;
            SInfof ("HTTP Server shutdown finished - will now delay " ++ pretty delay
                    ++ " seconds before exiting");
            SSleep (delay * Second);
            SInfof "Server Exited";
            SCancelTimeout ])%list,
   Returns None)
  end end end end end.

(** The settings pass every check [RunServer] makes. *)
Definition validated `{Settings} : Prop :=
  is_err (ParseLevel (GetString viperLogLevel)) = false /\
  GetString viperRGWURL <> "" /\
  is_err (url_Parse (GetString viperRGWURL)) = false /\
  GetString viperInterval <> "" /\
  is_err (Str2Duration (GetString viperInterval)) = false /\
  GetString viperAccessKey <> "" /\
  GetString viperSecretKey <> "".

(** The interval parses to a duration that satisfies [P]. *)
Definition intervalIs `{Settings} (P : Z -> Prop) : Prop :=
  exists interval, Str2Duration (GetString viperInterval) = Ok interval /\ P interval.

(** The settings [RunServer] asks for are all there and parse, and the
    interval is one a ticker can be made of. *)
Definition configured `{Settings} : Prop :=
  validated /\ intervalIs (fun interval => 0 < interval).

(** An action that starts something: the scrapers or the listener. *)
Definition starts (a : ServerAction) : Prop :=
  match a with
  | SStartScraping _ _ _ _ | SListenAndServe _ => True
  | _ => False
  end.

#[export] Instance starts_dec (a : ServerAction) : Decision (starts a).
Proof. destruct a; simpl; apply _. Defined.

(** Settings that pass: a gateway URL, an interval and both keys. *)
Definition Fixture_settings : Settings :=
  {| GetString := fun key =>
       if String.eqb key "log_level" then "info"
       else if String.eqb key "rgw_url" then "https://objects.example.com/"
       else if String.eqb key "interval" then "1m"
       else if String.eqb key "access_key" then "AK"
       else if String.eqb key "secret_key" then "SK"
       else "";
     GetInt := fun _ => 8080;
     ParseLevel := fun s => if String.eqb s "info" then Ok 4 else Err ("not a valid logrus Level: " ++ s);
     url_Parse := fun s => Ok {| Path := s; RawQuery := [] |};
     Str2Duration := fun s => if String.eqb s "1m" then Ok (60 * Second) else Err "invalid duration" |}.

(** The same without a secret key. *)
Definition Fixture_no_secret : Settings :=
  {| GetString := fun key =>
       if String.eqb key "secret_key" then "" else @GetString Fixture_settings key;
     GetInt := @GetInt Fixture_settings;
     ParseLevel := @ParseLevel Fixture_settings;
     url_Parse := @url_Parse Fixture_settings;
     Str2Duration := @Str2Duration Fixture_settings |}.

(** The same with an interval of no length. *)
Definition Fixture_zero_interval : Settings :=
  {| GetString := fun key =>
       if String.eqb key "interval" then "0s" else @GetString Fixture_settings key;
     GetInt := @GetInt Fixture_settings;
     ParseLevel := @ParseLevel Fixture_settings;
     url_Parse := @url_Parse Fixture_settings;
     Str2Duration := fun s => if String.eqb s "0s" then Ok 0 else @Str2Duration Fixture_settings s |}.

(** Field by field, the [int64] sum of two aggregates. *)
Definition addValues (v1 v2 : usageValue) : usageValue :=
  {| OpsTotal := add64 (OpsTotal v1) (OpsTotal v2);
     OpsSuccessful := add64 (OpsSuccessful v1) (OpsSuccessful v2);
     SentBytesTotal := add64 (SentBytesTotal v1) (SentBytesTotal v2);
     ReceivedBytesTotal := add64 (ReceivedBytesTotal v1) (ReceivedBytesTotal v2) |}.

Definition isStore (a : Action) : bool :=
  match a with AStore _ => true | _ => false end.

(** Every [c.metrics = metrics] of [tr] happens with the lock held. *)
Fixpoint storesUnderLock (held : bool) (tr : list Action) : bool :=
  match tr with
  | [] => true
  | a :: tr => (if isStore a then held else true) && storesUnderLock (lockStep held a) tr
  end.

(** A stretch of actions that starts and ends with the lock free and
    writes the snapshot only while it holds the lock. *)
Definition lockDisciplined (tr : list Action) : Prop :=
  storesUnderLock false tr = true /\ lockHeld tr = false.
(** * Properties *)

(** ** Machine arithmetic *)

Lemma wrap64_in_range z : in_range (wrap64 z).
Proof.
  unfold in_range, wrap64, min_signed, max_signed, modulus.
  pose proof (Z.mod_pos_bound (z + 2 ^ 63) (2 ^ 64)). lia.
Qed.

Lemma wrap64_id z : in_range z -> wrap64 z = z.
Proof.
  unfold in_range, wrap64, min_signed, max_signed, modulus. intros Hz.
  rewrite Z.mod_small; lia.
Qed.

Lemma wrap64_add_l a b : wrap64 (wrap64 a + b) = wrap64 (a + b).
Proof.
  unfold wrap64, modulus.
  replace ((a + 2 ^ 63) mod 2 ^ 64 - 2 ^ 63 + b + 2 ^ 63)
    with ((a + 2 ^ 63) mod 2 ^ 64 + b) by lia.
  rewrite Zplus_mod_idemp_l.
  f_equal. f_equal. lia.
Qed.

Lemma add64_wrap_l a b : add64 (wrap64 a) b = wrap64 (a + b).
Proof. apply wrap64_add_l. Qed.

(** ** Results *)

Lemma bind_err_inv {A B} (r : result A) (k : A -> result B) :
  is_err (r ≫= k) = true <->
  is_err r = true \/ exists a, r = Ok a /\ is_err (k a) = true.
Proof.
  destruct r as [a|e]; simpl.
  - split; [intros H; right; eauto | intros [H|(a' & Ha & H)]; [discriminate | congruence]].
  - split; [auto | reflexivity].
Qed.

Lemma is_err_false_Ok {A} (r : result A) : is_err r = false -> exists a, r = Ok a.
Proof. destruct r; [eauto | discriminate]. Qed.

(** ** The definitions at work *)

Example float64_of_seven :
  float64_of_Z 7 = S754_finite false 7881299347898368 (-50) /\
  float64_to_Z (float64_of_Z 7) = Some 7.
Proof. split; reflexivity. Qed.

Example float64_rounds_above_2_53 :
  float64_to_Z (float64_of_Z (2 ^ 53 + 1)) = Some (2 ^ 53).
Proof. reflexivity. Qed.

Example one_and_a_half_seconds : float64_of_Z 3 = SFmul 53 1024 (float64_of_Z 2) (Seconds 1500000000).
Proof. reflexivity. Qed.

Example add64_overflows : add64 (2 ^ 62) (2 ^ 62) = - 2 ^ 63.
Proof. reflexivity. Qed.

Example combine_duplicated :
  operationsCollector.combine Fixture.duplicated
    = {[ Fixture.alice_b1_put :=
           {| OpsTotal := 7; OpsSuccessful := 6; SentBytesTotal := 150;
              ReceivedBytesTotal := 0 |} ]}.
Proof. vm_compute. reflexivity. Qed.

Example query_not_found :
  queryCephAdminAPI (fun _ => Fixture.answer 404 "404 Not Found" "NoSuchKey") Fixture.rgwURL
    = Err "server returned 404 Not Found - Body: NoSuchKey".
Proof. reflexivity. Qed.

Example two_users_fetched :
  @getCephUserQuotaStats Fixture.lib
     (fun k _ => nth k [Fixture.ok "five users"; Fixture.ok "on"; Fixture.ok "off";
                        Fixture.ok "on"; Fixture.ok "on"; Fixture.ok "off"] Fixture.refused)
     Fixture.rgwURL
    = Ok (list_to_map [("u1", Fixture.quotaOn); ("u2", Fixture.quotaOff);
                       ("u3", Fixture.quotaOn); ("u4", Fixture.quotaOn);
                       ("u5", Fixture.quotaOff)]).
Proof. vm_compute. reflexivity. Qed.

(** The query of a user lookup as it goes out: sorted by key. *)
Example user_lookup_query :
  RawQuery (withQuery Fixture.rgwURL
              [("format", "json"); ("quota", ""); ("uid", "alice"); ("quota-type", "user")])
  = [("format", "json"); ("quota", ""); ("quota-type", "user"); ("uid", "alice")].
Proof. vm_compute. reflexivity. Qed.

(** A successful cycle, a tick, a failed cycle, then cancellation. *)
Example two_rounds :
  let rounds :=
    [ {| ctxErr := false; env := Fixture.cycle [Fixture.ok "empty"]; wake := Tick |};
      {| ctxErr := false; env := Fixture.cycle [Fixture.refused]; wake := Done |} ] in
  let r := @operationsCollector.FetchMetrics Fixture.lib Fixture.rgwURL (60 * Second) rounds
             newCollector in
  r.2 = Returned /\
  counterValue "success" r.1 = 1%nat /\ counterValue "error" r.1 = 1%nat /\
  metrics r.1 = [] /\
  trace r.1
    = [ ANewTicker (60 * Second);
        ACtxErr false; ANow; AFetch; AGaugeSet (Seconds 1500000000);
        ACounterInc "success"; ALock; AStore []; AUnlock; ASelect Tick;
        ACtxErr false; ANow; AFetch; AGaugeSet (Seconds 1500000000);
        ACounterInc "error";
        ALog "Failed to scrape Ceph usage stats - failed to get usage stats from ceph - failed to do request - dial tcp: connection refused";
        ASelect Done ].
Proof. vm_compute. repeat split; reflexivity. Qed.

(** ** Lists built by appending in a loop *)

Lemma fold_left_app_flat_map {A B} (f : A -> list B) (l : list A) (acc : list B) :
  fold_left (fun acc x => (acc ++ f x)%list) l acc = (acc ++ flat_map f l)%list.
Proof.
  revert acc. induction l as [|x l IH]; intros acc; simpl.
  - by rewrite app_nil_r.
  - by rewrite IH, app_assoc.
Qed.

Lemma fold_left_flat_map {A B C} (f : C -> B -> C) (g : A -> list B) (l : list A) (acc : C) :
  fold_left f (flat_map g l) acc = fold_left (fun acc x => fold_left f (g x) acc) l acc.
Proof.
  revert acc. induction l as [|x l IH]; intros acc; simpl; [done|].
  by rewrite fold_left_app, IH.
Qed.

Lemma fold_left_map {A B C} (f : C -> B -> C) (g : A -> B) (l : list A) (acc : C) :
  fold_left f (map g l) acc = fold_left (fun acc x => f acc (g x)) l acc.
Proof. revert acc. induction l as [|x l IH]; intros acc; simpl; [done|]. by rewrite IH. Qed.

(** ** The usage aggregate *)

Module UsageFacts.
Import operationsCollector.


Lemma combine_rawEntries usageStats :
  combine usageStats = fold_left addRaw (rawEntries usageStats) ∅.
Proof.
  unfold combine, rawEntries.
  rewrite fold_left_flat_map. generalize (∅ : gmap usageKey usageValue).
  induction (Entries usageStats) as [|entry es IH]; intros acc; simpl; [done|].
  rewrite <- IH. f_equal.
  rewrite fold_left_flat_map. clear IH.
  revert acc. induction (Buckets entry) as [|bucket bs IHb]; intros acc; simpl; [done|].
  rewrite <- IHb. f_equal.
  by rewrite fold_left_map.
Qed.

Lemma sumOver_app f l1 l2 : sumOver f (l1 ++ l2) = sumOver f l1 + sumOver f l2.
Proof. unfold sumOver. induction l1 as [|x l1 IH]; simpl; [done|]. rewrite IH. lia. Qed.

Lemma withKey_snoc k raw key category :
  withKey k (raw ++ [(key, category)]) =
    (withKey k raw ++ if decide (key = k) then [(key, category)] else [])%list.
Proof. unfold withKey. rewrite filter_app. f_equal. Qed.

Lemma fold_addRaw_lookup raw k :
  fold_left addRaw raw ∅ !! k =
    if decide (withKey k raw = []) then None else Some (wrapValue (exactValue k raw)).
Proof.
  induction raw as [|[key category] raw IH] using rev_ind; [done|].
  rewrite fold_left_app. simpl. unfold addRaw at 1, addCategory. simpl.
  unfold wrapValue, exactValue. simpl. rewrite withKey_snoc.
  destruct (decide (key = k)) as [->|Hne].
  - rewrite lookup_insert_eq, IH.
    destruct (decide ((withKey k raw ++ [(k, category)])%list = [])) as [Habs|_];
      [by apply app_eq_nil in Habs as [_ ?]|].
    f_equal. rewrite !sumOver_app. simpl. rewrite !Z.add_0_r.
    destruct (decide (withKey k raw = [])) as [Hnil|Hnn].
    + rewrite Hnil. reflexivity.
    + simpl. by rewrite !add64_wrap_l.
  - rewrite lookup_insert_ne by done. rewrite IH, !app_nil_r.
    destruct (decide (withKey k raw = [])); done.
Qed.

End UsageFacts.

Module SnapshotFacts.
Import operationsCollector UsageFacts.

Lemma aggregate_flat_map o start usageStats :
  aggregate o start usageStats = flat_map (series start) (rangeMap o (combine usageStats)).
Proof. unfold aggregate. by rewrite fold_left_app_flat_map. Qed.

Lemma usageLabels_inj k k' : usageLabels k = usageLabels k' -> k = k'.
Proof. destruct k, k'. unfold usageLabels. simpl. by intros [= -> -> ->]. Qed.

Lemma seriesOf_app d ls l1 l2 :
  seriesOf d ls (l1 ++ l2) = (seriesOf d ls l1 ++ seriesOf d ls l2)%list.
Proof. apply filter_app. Qed.

Lemma seriesOf_cons_other d ls m l :
  mLabelValues m <> ls -> seriesOf d ls (m :: l) = seriesOf d ls l.
Proof. intros Hne. unfold seriesOf. rewrite filter_cons_False; [done|]. by intros [_ ?]. Qed.

Lemma seriesOf_cons_desc d ls m l :
  mDesc m <> d -> seriesOf d ls (m :: l) = seriesOf d ls l.
Proof. intros Hne. unfold seriesOf. rewrite filter_cons_False; [done|]. by intros [? _]. Qed.

Lemma seriesOf_cons_same d ls m l :
  mDesc m = d -> mLabelValues m = ls -> seriesOf d ls (m :: l) = m :: seriesOf d ls l.
Proof. intros Hd Hl. unfold seriesOf. by rewrite filter_cons_True. Qed.

Lemma series_other start d k k' v :
  k' <> k -> seriesOf d (usageLabels k) (series start (k', v)) = [].
Proof.
  intros Hne. unfold series.
  rewrite !seriesOf_cons_other; [done|..]; simpl; intros Heq;
    by apply usageLabels_inj in Heq.
Qed.

Lemma series_others start d k (l : list (usageKey * usageValue)) :
  (forall kv, kv ∈ l -> kv.1 <> k) ->
  seriesOf d (usageLabels k) (flat_map (series start) l) = [].
Proof.
  induction l as [|[k' v] l IH]; intros Hall; cbn [flat_map]; [done|].
  rewrite seriesOf_app, series_other, IH; [done| |].
  - intros kv Hin. apply Hall. by right.
  - apply (Hall (k', v)). by left.
Qed.

Lemma series_same start k v : fourSeries start k v (series start (k, v)).
Proof.
  unfold fourSeries, series. repeat split.
  - rewrite seriesOf_cons_same by done. by rewrite !seriesOf_cons_desc by done.
  - rewrite seriesOf_cons_desc by done. rewrite seriesOf_cons_same by done.
    by rewrite !seriesOf_cons_desc by done.
  - rewrite !seriesOf_cons_desc by done. rewrite seriesOf_cons_same by done.
    by rewrite !seriesOf_cons_desc by done.
  - rewrite !seriesOf_cons_desc by done. by rewrite seriesOf_cons_same by done.
Qed.

Lemma seriesOf_perm d ls l l' : l ≡ₚ l' -> seriesOf d ls l ≡ₚ seriesOf d ls l'.
Proof. intros Hp. unfold seriesOf. by rewrite Hp. Qed.

Lemma seriesOf_range o start d k (m : gmap usageKey usageValue) :
  valid_order o ->
  seriesOf d (usageLabels k) (flat_map (series start) (rangeMap o m))
    ≡ₚ match m !! k with
       | Some v => seriesOf d (usageLabels k) (series start (k, v))
       | None => []
       end.
Proof.
  intros Ho.
  etransitivity.
  { apply seriesOf_perm, Permutation_flat_map, Ho. }
  destruct (m !! k) as [v|] eqn:Hk.
  - etransitivity.
    { apply seriesOf_perm, Permutation_flat_map. symmetry.
      apply (map_to_list_delete m k v Hk). }
    cbn [flat_map].
    rewrite seriesOf_app, series_others, app_nil_r; [done|].
    intros [k' v'] Hin%elem_of_map_to_list. simpl. intros ->.
    by rewrite lookup_delete_eq in Hin.
  - rewrite series_others; [done|].
    intros [k' v'] Hin%elem_of_map_to_list. simpl. intros ->. congruence.
Qed.
End SnapshotFacts.

(** ** One cycle of a collector *)

Section CycleFacts.

Lemma counterValue_act status a c : counterValue status (act a c) = counterValue status c.
Proof. reflexivity. Qed.

Lemma counterValue_inc_same status c :
  counterValue status (counterInc status c) = S (counterValue status c).
Proof. unfold counterValue, counterInc. simpl. by rewrite lookup_insert_eq. Qed.

Lemma counterValue_inc_other status status' c :
  status <> status' ->
  counterValue status' (counterInc status c) = counterValue status' c.
Proof. intros Hne. unfold counterValue, counterInc. simpl. by rewrite lookup_insert_ne. Qed.

(** The error branch, from the state in which the fetch is called. *)
Lemma error_branch e c msg :
  abandoned e c (logErrorf msg (counterInc "error" (gaugeSet (elapsed e) (act AFetch (act ANow c))))).
Proof.
  repeat split.
  - unfold logErrorf. rewrite counterValue_act, counterValue_inc_same. reflexivity.
  - unfold logErrorf. rewrite counterValue_act, counterValue_inc_other by done. reflexivity.
Qed.

Lemma success_branch e c ms :
  published e ms c (publish ms (counterInc "success" (gaugeSet (elapsed e) (act AFetch (act ANow c))))).
Proof.
  repeat split.
  - unfold publish, store. rewrite !counterValue_act.
    change (counterValue "success" (counterInc "success" (gaugeSet (elapsed e) (act AFetch (act ANow c))))
            = S (counterValue "success" c)).
    by rewrite counterValue_inc_same.
  - change (counterValue "error" (counterInc "success" (gaugeSet (elapsed e) (act AFetch (act ANow c))))
            = counterValue "error" c).
    by rewrite counterValue_inc_other.
Qed.

Context `{Library}.
Variable rgwURL : URL.

Lemma ops_scrape_err e c err :
  getCephUsageStats (envClient e) rgwURL = Err err ->
  abandoned e c (operationsCollector.scrape rgwURL e c).
Proof. intros Hr. unfold operationsCollector.scrape. rewrite Hr. apply error_branch. Qed.

Lemma ops_scrape_ok e c usageStats :
  getCephUsageStats (envClient e) rgwURL = Ok usageStats ->
  published e (operationsCollector.aggregate (envOrder e) (envStart e) usageStats) c
    (operationsCollector.scrape rgwURL e c).
Proof. intros Hr. unfold operationsCollector.scrape. rewrite Hr. apply success_branch. Qed.

Lemma buckets_scrape_err e c err :
  getCephBucketStats (envClient e) rgwURL = Err err ->
  abandoned e c (bucketsCollector.scrape rgwURL e c).
Proof. intros Hr. unfold bucketsCollector.scrape. rewrite Hr. apply error_branch. Qed.

Lemma buckets_scrape_ok e c bucketStats :
  getCephBucketStats (envClient e) rgwURL = Ok bucketStats ->
  published e (bucketsCollector.aggregate (envStart e) bucketStats) c
    (bucketsCollector.scrape rgwURL e c).
Proof. intros Hr. unfold bucketsCollector.scrape. rewrite Hr. apply success_branch. Qed.

Lemma users_scrape_err e c err :
  getCephUserQuotaStats (envClient e) rgwURL = Err err ->
  abandoned e c (userInfoCollector.scrape rgwURL e c).
Proof. intros Hr. unfold userInfoCollector.scrape. rewrite Hr. apply error_branch. Qed.

Lemma users_scrape_ok e c userQuotaInfo :
  getCephUserQuotaStats (envClient e) rgwURL = Ok userQuotaInfo ->
  published e (userInfoCollector.aggregate (envOrder e) (envStart e) userQuotaInfo) c
    (userInfoCollector.scrape rgwURL e c).
Proof. intros Hr. unfold userInfoCollector.scrape. rewrite Hr. apply success_branch. Qed.

End CycleFacts.

Lemma is_err_true_Err {A} (r : result A) : is_err r = true -> exists e, r = Err e.
Proof. destruct r; [discriminate | eauto]. Qed.

(** ** The reader *)

Lemma trace_sends ms c :
  trace (fold_left (fun c metric => act (ASend metric) c) ms c)
    = (trace c ++ map ASend ms)%list.
Proof.
  revert c. induction ms as [|m ms IH]; intros c; simpl.
  - by rewrite app_nil_r.
  - rewrite IH. simpl. by rewrite <- app_assoc.
Qed.

Lemma metrics_sends ms c :
  metrics (fold_left (fun c metric => act (ASend metric) c) ms c) = metrics c.
Proof. revert c. induction ms as [|m ms IH]; intros c; simpl; [done|]. by rewrite IH. Qed.

Lemma counters_sends ms c :
  scrapeCountTotal (fold_left (fun c metric => act (ASend metric) c) ms c) = scrapeCountTotal c.
Proof. revert c. induction ms as [|m ms IH]; intros c; simpl; [done|]. by rewrite IH. Qed.

Lemma gauge_sends ms c :
  scrapeDurationSeconds (fold_left (fun c metric => act (ASend metric) c) ms c)
    = scrapeDurationSeconds c.
Proof. revert c. induction ms as [|m ms IH]; intros c; simpl; [done|]. by rewrite IH. Qed.

Lemma Collect_emitted c :
  emitted c (Collect c) = (ALock :: map ASend (metrics c) ++ [AUnlock])%list.
Proof.
  unfold emitted, Collect. simpl. rewrite trace_sends. simpl.
  rewrite <- !app_assoc. rewrite drop_app_length. reflexivity.
Qed.

Lemma collected_metrics c : collected c = metrics c.
Proof.
  unfold collected. rewrite Collect_emitted. simpl.
  induction (metrics c) as [|m ms IH]; simpl; [done|]. by rewrite IH.
Qed.

Lemma abandoned_collected e c c' : abandoned e c c' -> collected c' = collected c.
Proof. intros (Hm & _). by rewrite !collected_metrics. Qed.

Lemma cycleOutcome_intro {A} (r : result A) e c c' :
  (forall err, r = Err err -> abandoned e c c') ->
  (forall a, r = Ok a -> exists ms, published e ms c c') ->
  cycleOutcome r c c'.
Proof.
  intros Herr Hok. split.
  - intros [err Hr]%is_err_true_Err. pose proof (Herr err Hr) as Hc.
    split; [apply Hc|]. split; [apply (abandoned_collected e), Hc | apply Hc].
  - intros [a Hr]%is_err_false_Ok. destruct (Hok a Hr) as [ms Hc]. apply Hc.
Qed.

Lemma counted_exclusive c c' : countedSuccess c c' -> ~ countedError c c'.
Proof. intros [_ Hs] [He _]. rewrite Hs in He. lia. Qed.

Lemma accounted_published e ms c c' : published e ms c c' -> accounted e c c'.
Proof.
  intros (_ & Hc & Hg). split; [exact Hg|]. left. split; [done|]. by apply counted_exclusive.
Qed.

Lemma accounted_abandoned e c c' : abandoned e c c' -> accounted e c c'.
Proof.
  intros (_ & Hc & Hg). split; [exact Hg|]. right. split; [done|].
  intros Hs. by apply (counted_exclusive c c').
Qed.

(** ** The fetchers *)

Lemma query_is_err (cl : Client) (u : URL) :
  is_err (queryCephAdminAPI cl u)
    = notSent (cl u) || transportFails (cl u) || nonOKStatus (cl u).
Proof.
  unfold queryCephAdminAPI, notSent, transportFails, nonOKStatus.
  destruct (cl u) as [[nrErr|] [sgErr|] [[code status [body [rdErr|]] [clErr|]]|doErr]];
    simpl; try reflexivity.
  by destruct (code =? StatusOK).
Qed.

Lemma query_ok (cl : Client) (u : URL) body :
  queryCephAdminAPI cl u = Ok body -> body = bodyOf (cl u).
Proof.
  unfold queryCephAdminAPI, bodyOf.
  destruct (cl u) as [[nrErr|] [sgErr|] [[code status [body' [rdErr|]] [clErr|]]|doErr]];
    simpl; try discriminate.
  destruct (code =? StatusOK); simpl; [|discriminate]. by intros [= ->].
Qed.

(** The shape the four single-request fetchers share. *)
Lemma fetch_is_err {A B} (dec : string -> result A) (f : A -> B) (parsed : result URL)
    (cl : Client) (q : list (string * string)) (dflt : URL) (m1 m2 m3 : string) :
  is_err (destURL ← Errorf m1 parsed;
          resp ← Errorf m2 (queryCephAdminAPI cl (withQuery destURL q));
          v ← Errorf m3 (dec resp);
          Ok (f v))
  = anyFailure dec parsed
      (cl (match parsed with Ok u => withQuery u q | Err _ => withQuery dflt q end)).
Proof.
  unfold anyFailure, listedFailure. destruct parsed as [u|perr]; simpl; [|done].
  pose proof (query_is_err cl (withQuery u q)) as Hq.
  destruct (queryCephAdminAPI cl (withQuery u q)) as [body|qerr] eqn:Hr; simpl in *.
  - apply query_ok in Hr as ->.
    symmetry in Hq. apply orb_false_elim in Hq as [[Hn%orb_false_elim Ht]%orb_false_elim Hs].
    destruct Hn as [Hn1 Hn2]. unfold notSent. rewrite Hn1, Hn2, Ht, Hs. simpl.
    by destruct (dec _).
  - destruct (notSent _), (transportFails _), (nonOKStatus _); simpl in *; done.
Qed.

Section FetcherFacts.
Context `{Library}.
Variable client : nat -> Client.
Variable rgwURL : URL.

Lemma usage_is_err :
  is_err (getCephUsageStats client rgwURL)
    = anyFailure unmarshalUsage (Parse rgwURL "admin/usage")
        (client 0%nat (destOf rgwURL "admin/usage" usageQuery)).
Proof. apply (fetch_is_err unmarshalUsage id). Qed.

Lemma buckets_is_err :
  is_err (getCephBucketStats client rgwURL)
    = anyFailure unmarshalBuckets (Parse rgwURL "admin/bucket")
        (client 0%nat (destOf rgwURL "admin/bucket" bucketQuery)).
Proof. apply (fetch_is_err unmarshalBuckets id). Qed.

Lemma userList_is_err :
  is_err (getUserList client rgwURL)
    = anyFailure unmarshalUserList (Parse rgwURL "admin/user")
        (client 0%nat (destOf rgwURL "admin/user" userListQuery)).
Proof. apply (fetch_is_err unmarshalUserList Keys). Qed.

Lemma userLookup_is_err k user :
  is_err (userLookup client rgwURL k user)
    = anyFailure unmarshalUserStats (Parse rgwURL "admin/user")
        (client k (destOf rgwURL "admin/user" (userQuery user))).
Proof. apply (fetch_is_err unmarshalUserStats id). Qed.

Lemma userQuotaLoop_is_err users : forall k statsMap,
  is_err (userQuotaLoop client rgwURL k users statsMap) = true <->
  exists i user, users !! i = Some user /\
                 is_err (userLookup client rgwURL (k + i) user) = true.
Proof.
  induction users as [|u users IH]; intros k statsMap; simpl.
  - split; [discriminate | intros (i & user & Hi & _); by rewrite lookup_nil in Hi].
  - rewrite bind_err_inv. split.
    + intros [Hu | (stats & Hu & Hrest)].
      * exists 0%nat, u. by rewrite Nat.add_0_r.
      * apply IH in Hrest as (i & user & Hi & Hl).
        exists (S i), user. split; [done|]. by rewrite <- Nat.add_succ_comm.
    + intros ([|i] & user & Hi & Hl); simpl in Hi.
      * injection Hi as ->. rewrite Nat.add_0_r in Hl. by left.
      * destruct (userLookup client rgwURL k u) as [stats|err] eqn:Hu; [|by left].
        right. exists stats. split; [done|]. apply IH.
        exists i, user. split; [done|]. by rewrite Nat.add_succ_comm.
Qed.

Lemma userQuota_is_err :
  is_err (getCephUserQuotaStats client rgwURL) = true <->
  is_err (getUserList client rgwURL) = true \/
  exists users i user,
    getUserList client rgwURL = Ok users /\ users !! i = Some user /\
    is_err (userLookup client rgwURL (S i) user) = true.
Proof.
  unfold getCephUserQuotaStats. rewrite bind_err_inv. split.
  - intros [Hl | (users & Hl & Hrest)]; [by left | right].
    apply userQuotaLoop_is_err in Hrest as (i & user & Hi & Hu). by exists users, i, user.
  - intros [Hl | (users & i & user & Hl & Hi & Hu)]; [by left | right].
    exists users. split; [done|]. apply userQuotaLoop_is_err. by exists i, user.
Qed.

(** With no users there is nothing to look up. *)
Lemma userQuota_no_users :
  getUserList client rgwURL = Ok [] -> getCephUserQuotaStats client rgwURL = Ok ∅.
Proof. intros Hl. unfold getCephUserQuotaStats. by rewrite Hl. Qed.

End FetcherFacts.

Lemma emitted_app c c' tr : trace c' = (trace c ++ tr)%list -> emitted c c' = tr.
Proof. intros Ht. unfold emitted. rewrite Ht. apply drop_app_length. Qed.

Section TraceFacts.
Context `{Library}.
Variable rgwURL : URL.

Lemma ops_trace e c :
  trace (operationsCollector.scrape rgwURL e c)
    = (trace c ++ match getCephUsageStats (envClient e) rgwURL with
                  | Err err => failureTrace e err
                  | Ok usageStats =>
                      successTrace e
                        (operationsCollector.aggregate (envOrder e) (envStart e) usageStats)
                  end)%list.
Proof.
  unfold operationsCollector.scrape.
  destruct (getCephUsageStats _ _); simpl; by rewrite <- !app_assoc.
Qed.

Lemma buckets_trace e c :
  trace (bucketsCollector.scrape rgwURL e c)
    = (trace c ++ match getCephBucketStats (envClient e) rgwURL with
                  | Err err => failureTrace e err
                  | Ok bucketStats =>
                      successTrace e (bucketsCollector.aggregate (envStart e) bucketStats)
                  end)%list.
Proof.
  unfold bucketsCollector.scrape.
  destruct (getCephBucketStats _ _); simpl; by rewrite <- !app_assoc.
Qed.

Lemma users_trace e c :
  trace (userInfoCollector.scrape rgwURL e c)
    = (trace c ++ match getCephUserQuotaStats (envClient e) rgwURL with
                  | Err err => failureTrace e err
                  | Ok userQuotaInfo =>
                      successTrace e
                        (userInfoCollector.aggregate (envOrder e) (envStart e) userQuotaInfo)
                  end)%list.
Proof.
  unfold userInfoCollector.scrape.
  destruct (getCephUserQuotaStats _ _); simpl; by rewrite <- !app_assoc.
Qed.

End TraceFacts.

(** ** Empty payloads *)

Lemma rangeMap_empty `{Countable K} {V} (o : MapOrder) :
  valid_order o -> rangeMap o (∅ : gmap K V) = [].
Proof.
  intros Ho. unfold rangeMap. rewrite map_to_list_empty.
  apply Permutation_nil_r, Ho.
Qed.

Lemma combine_no_rows usageStats :
  rawEntries usageStats = [] -> operationsCollector.combine usageStats = ∅.
Proof. intros Hraw. by rewrite UsageFacts.combine_rawEntries, Hraw. Qed.

(** ** The scheduling loop *)

Lemma phaseRun_app p tr1 tr2 :
  phaseRun p (tr1 ++ tr2) = phaseRun p tr1 ≫= fun q => phaseRun q tr2.
Proof.
  revert p. induction tr1 as [|a tr1 IH]; intros p; simpl; [done|].
  destruct (phaseStep p a); simpl; [apply IH | done].
Qed.

Lemma phaseRun_at p tr1 a tr2 q :
  phaseRun p (tr1 ++ a :: tr2) = Some q ->
  exists p1 p2, phaseRun p tr1 = Some p1 /\ phaseStep p1 a = Some p2.
Proof.
  rewrite phaseRun_app. destruct (phaseRun p tr1) as [p1|]; simpl; [|discriminate].
  destruct (phaseStep p1 a) as [p2|] eqn:Hs; [|discriminate]. eauto.
Qed.

Lemma phaseRun_select p tr1 w tr2 q :
  phaseRun p (tr1 ++ ASelect w :: tr2) = Some q -> phaseRun p tr1 = Some Finished.
Proof.
  intros (p1 & p2 & Hrun & Hstep)%phaseRun_at. rewrite Hrun. f_equal.
  by destruct p1.
Qed.

Lemma phaseRun_now p tr1 tr2 q :
  phaseRun p (tr1 ++ ANow :: tr2) = Some q -> phaseRun p tr1 = Some Ready.
Proof.
  intros (p1 & p2 & Hrun & Hstep)%phaseRun_at. rewrite Hrun. f_equal.
  by destruct p1.
Qed.

Lemma failureTrace_cycle e err : cycleTrace (failureTrace e err).
Proof. split; [eexists; reflexivity | reflexivity]. Qed.

Lemma successTrace_cycle e ms : cycleTrace (successTrace e ms).
Proof. split; [eexists; reflexivity | reflexivity]. Qed.

(** ** The ticker *)

Lemma NewTicker_positive d : 0 < d -> NewTicker d = None.
Proof. intros Hd. unfold NewTicker. destruct (Z.leb_spec d 0); [lia | done]. Qed.

Lemma NewTicker_non_positive d :
  d <= 0 -> NewTicker d = Some "non-positive interval for NewTicker".
Proof. intros Hd. unfold NewTicker. destruct (Z.leb_spec d 0); [done | lia]. Qed.

Section LoopFacts.
Variable scrape : CycleEnv -> collector -> collector.
Hypothesis scrape_cycle :
  forall e c, exists tr, trace (scrape e c) = (trace c ++ tr)%list /\ cycleTrace tr.

Lemma fetchLoop_trace rounds : forall c,
  exists tr,
    trace (fetchLoop scrape rounds c).1 = (trace c ++ tr)%list /\
    phaseRun Top tr
      = Some (match (fetchLoop scrape rounds c).2 with
              | Returned => Stopped | Looping => Top | Panicked => Created end) /\
    (forall r0 rest, rounds = r0 :: rest -> ctxErr r0 = false ->
       exists tr', tr = ([ACtxErr false; ANow; AFetch] ++ tr')%list).
Proof.
  induction rounds as [|r rounds IH]; intros c; simpl.
  - exists []. rewrite app_nil_r. repeat split; [done..|]. intros; discriminate.
  - destruct (ctxErr r) eqn:Hctx.
    + exists [ACtxErr true]. simpl. repeat split; [done..|]. intros ? ? [= <- _]. congruence.
    + destruct (scrape_cycle (env r) (act (ACtxErr false) c)) as (tr & Htr & [rest ->] & Hrun).
      destruct (wake r) eqn:Hwake.
      * destruct (IH (act (ASelect Tick) (scrape (env r) (act (ACtxErr false) c))))
          as (tr' & Htr' & Hrun' & _).
        exists (ACtxErr false :: (ANow :: AFetch :: rest) ++ ASelect Tick :: tr')%list.
        split; [|split].
        -- rewrite Htr'. simpl. rewrite Htr. simpl. by rewrite <- !app_assoc.
        -- change (phaseRun Ready ((ANow :: AFetch :: rest) ++ ASelect Tick :: tr')
                   = Some match (fetchLoop scrape rounds
                                   (act (ASelect Tick)
                                      (scrape (env r) (act (ACtxErr false) c)))).2 with
                          | Returned => Stopped | Looping => Top | Panicked => Created end).
           rewrite phaseRun_app, Hrun. simpl. exact Hrun'.
        -- intros _ _ _ _. by eexists.
      * exists (ACtxErr false :: (ANow :: AFetch :: rest) ++ [ASelect Done])%list.
        split; [|split].
        -- simpl. rewrite Htr. simpl. by rewrite <- !app_assoc.
        -- change (phaseRun Ready ((ANow :: AFetch :: rest) ++ [ASelect Done]) = Some Stopped).
           by rewrite phaseRun_app, Hrun.
        -- intros _ _ _ _. by eexists.
Qed.

Lemma fetchLoop_runsInSequence interval rounds c :
  runsInSequence interval rounds c (fetchLoop scrape rounds (act (ANewTicker interval) c)).
Proof.
  destruct (fetchLoop_trace rounds (act (ANewTicker interval) c))
    as (tr & Htr & Hrun & Hfirst).
  exists (ANewTicker interval :: tr).
  assert (Hacc : phaseRun Created (ANewTicker interval :: tr)
                 = Some match (fetchLoop scrape rounds (act (ANewTicker interval) c)).2 with
                        | Returned => Stopped | Looping => Top | Panicked => Created end) by exact Hrun.
  split; [|split; [|split; [|split]]].
  - rewrite Htr. simpl. by rewrite <- app_assoc.
  - exact Hacc.
  - intros tr1 w tr2 Heq. rewrite Heq in Hacc. by apply phaseRun_select in Hacc.
  - intros tr1 tr2 Heq. rewrite Heq in Hacc. by apply phaseRun_now in Hacc.
  - intros r0 rest Hr Hctx. destruct (Hfirst r0 rest Hr Hctx) as [tr' ->]. by exists tr'.
Qed.

End LoopFacts.

(** ** The lock during [Collect] *)

Lemma lockHeld_sends held ms : fold_left lockStep (map ASend ms) held = held.
Proof. induction ms as [|m ms IH]; simpl; [done | exact IH]. Qed.

Lemma sendsUnderLock_sends ms tr :
  sendsUnderLock true (map ASend ms ++ tr) = sendsUnderLock true tr.
Proof. induction ms as [|m ms IH]; simpl; [done | exact IH]. Qed.

Lemma lockHeld_during ms (n : nat) :
  (0 < n <= length ms + 1)%nat ->
  lockHeld (take n (ALock :: map ASend ms ++ [AUnlock])) = true.
Proof.
  intros [Hpos Hle]. destruct n as [|n]; [lia|].
  unfold lockHeld. simpl.
  rewrite take_app_le by (rewrite length_map; lia).
  rewrite firstn_map. apply lockHeld_sends.
Qed.

Lemma lockHeld_after ms : lockHeld (ALock :: map ASend ms ++ [AUnlock]) = false.
Proof. unfold lockHeld. simpl. by rewrite fold_left_app. Qed.

(** ** From the payload to the published usage series *)

Lemma sumOver_perm f l l' : l ≡ₚ l' -> sumOver f l = sumOver f l'.
Proof.
  unfold sumOver. induction 1 as [|x l l' _ IH|x y l|l l' l'' _ IH1 _ IH2]; simpl.
  - reflexivity.
  - by rewrite IH.
  - lia.
  - by rewrite IH1.
Qed.

Lemma withKey_perm k l l' : l ≡ₚ l' -> withKey k l ≡ₚ withKey k l'.
Proof. intros Hp. unfold withKey. by rewrite Hp. Qed.

Lemma exactValue_perm k l l' : l ≡ₚ l' -> exactValue k l = exactValue k l'.
Proof.
  intros Hp%(withKey_perm k). unfold exactValue.
  by rewrite !(sumOver_perm _ _ _ Hp).
Qed.

Lemma combine_lookup usageStats k :
  operationsCollector.combine usageStats !! k =
    if decide (withKey k (rawEntries usageStats) = []) then None
    else Some (wrapValue (exactValue k (rawEntries usageStats))).
Proof. rewrite UsageFacts.combine_rawEntries. apply UsageFacts.fold_addRaw_lookup. Qed.

Lemma combine_perm usageStats usageStats' :
  rawEntries usageStats' ≡ₚ rawEntries usageStats ->
  operationsCollector.combine usageStats' = operationsCollector.combine usageStats.
Proof.
  intros Hp. apply map_eq. intros k. rewrite !combine_lookup.
  rewrite (exactValue_perm k _ _ Hp).
  pose proof (withKey_perm k _ _ Hp) as Hk.
  destruct (decide (withKey k (rawEntries usageStats') = [])) as [Hnil|Hnn];
    destruct (decide (withKey k (rawEntries usageStats) = [])) as [Hnil'|Hnn']; try done.
  - rewrite Hnil in Hk. by apply Permutation_nil_l in Hk.
  - rewrite Hnil' in Hk. by apply Permutation_nil_r in Hk.
Qed.

Lemma wrapValue_fits v : fitsInt64 v -> wrapValue v = v.
Proof.
  intros (H1 & H2 & H3 & H4). destruct v. unfold wrapValue. simpl in *.
  by rewrite !wrap64_id.
Qed.

Lemma aggregate_absent o start usageStats k d :
  valid_order o ->
  withKey k (rawEntries usageStats) = [] ->
  seriesOf d (usageLabels k) (operationsCollector.aggregate o start usageStats) = [].
Proof.
  intros Ho Hnil. rewrite SnapshotFacts.aggregate_flat_map.
  apply Permutation_nil_r.
  rewrite (SnapshotFacts.seriesOf_range o start d k _ Ho).
  rewrite combine_lookup. by rewrite decide_True.
Qed.

Lemma aggregate_present o start usageStats k :
  valid_order o ->
  withKey k (rawEntries usageStats) <> [] ->
  fourSeries start k (wrapValue (exactValue k (rawEntries usageStats)))
    (operationsCollector.aggregate o start usageStats).
Proof.
  intros Ho Hnn. rewrite SnapshotFacts.aggregate_flat_map.
  pose proof (SnapshotFacts.series_same start k
                (wrapValue (exactValue k (rawEntries usageStats)))) as (H1 & H2 & H3 & H4).
  assert (Hone : forall d x,
    seriesOf d (usageLabels k)
      (operationsCollector.series start
         (k, wrapValue (exactValue k (rawEntries usageStats)))) = [x] ->
    seriesOf d (usageLabels k)
      (flat_map (operationsCollector.series start)
         (rangeMap o (operationsCollector.combine usageStats))) = [x]).
  { intros d x Hx. apply Permutation_singleton_r.
    rewrite (SnapshotFacts.seriesOf_range o start d k _ Ho).
    rewrite combine_lookup, decide_False by done. by rewrite Hx. }
  repeat split; by apply Hone.
Qed.

(** ** The bucket series *)

Lemma buckets_aggregate_flat_map start bucketStats :
  bucketsCollector.aggregate start bucketStats
    = flat_map (bucketsCollector.series start) bucketStats.
Proof. unfold bucketsCollector.aggregate. by rewrite fold_left_app_flat_map. Qed.

Lemma flat_map_holdsBlock {A} (f : A -> list Metric) (l : list A) (x : A) :
  x ∈ l -> holdsBlock (flat_map f l) (f x).
Proof.
  intros (l1 & l2 & ->)%list_elem_of_split.
  exists (flat_map f l1), (flat_map f l2). by rewrite flat_map_app.
Qed.

Lemma holdsBlock_suffix snap front block :
  holdsBlock snap (front ++ block) -> holdsBlock snap block.
Proof.
  intros (before & after & ->). exists (before ++ front)%list, after.
  by rewrite <- !app_assoc.
Qed.

Lemma quotaSeries_gauges start b : bucketsCollector.quotaSeries start b = quotaGauges start b.
Proof.
  unfold bucketsCollector.quotaSeries, quotaGauges, quotaEnabledGauge.
  by destruct (bqEnabled (Quota b)).
Qed.

Lemma series_without_main start b :
  Usage b !! "rgw.main" = None ->
  bucketsCollector.series start b = shardGauge start b :: quotaGauges start b.
Proof.
  intros Hm. unfold bucketsCollector.series, bucketsCollector.usageSeries.
  by rewrite Hm, quotaSeries_gauges.
Qed.

Lemma series_with_main start b usage :
  Usage b !! "rgw.main" = Some usage ->
  bucketsCollector.series start b
    = (shardGauge start b :: usageGauges start b usage ++ quotaGauges start b)%list.
Proof.
  intros Hm. unfold bucketsCollector.series, bucketsCollector.usageSeries.
  by rewrite Hm, quotaSeries_gauges.
Qed.

Lemma series_ends_with_quota start b :
  exists front, bucketsCollector.series start b = (front ++ quotaGauges start b)%list.
Proof.
  unfold bucketsCollector.series. rewrite quotaSeries_gauges.
  eexists (_ ++ _)%list. by rewrite <- app_assoc.
Qed.

(** ** Integers that [float64] holds exactly *)

Lemma digits2_pos_iter m k : digits2_pos (Pos.iter xO m k) = (digits2_pos m + k)%positive.
Proof.
  induction k using Pos.peano_ind.
  - simpl. lia.
  - rewrite Pos.iter_succ. simpl. rewrite IHk. lia.
Qed.

Lemma shr_fexp_canonical (mz : positive) (ez : Z) :
  Z.pos (digits2_pos mz) = 53 -> -1021 <= ez ->
  shr_fexp 53 1024 (Z.pos mz) ez loc_Exact
    = ({| shr_m := Z.pos mz; shr_r := false; shr_s := false |}, ez).
Proof.
  intros Hd He. unfold shr_fexp, fexp, emin. simpl Zdigits2. rewrite Hd.
  replace (Z.max (53 + ez - 53) (3 - 1024 - 53) - ez) with 0 by lia.
  reflexivity.
Qed.

Lemma binary_round_aux_canonical sx (mz : positive) (ez : Z) :
  Z.pos (digits2_pos mz) = 53 -> -1021 <= ez <= 971 ->
  binary_round_aux 53 1024 sx (Z.pos mz) ez loc_Exact = S754_finite sx mz ez.
Proof.
  intros Hd He. unfold binary_round_aux.
  rewrite shr_fexp_canonical by (auto; lia).
  cbv beta iota delta [shr_m loc_of_shr_record round_nearest_even].
  rewrite shr_fexp_canonical by (auto; lia).
  cbv beta iota delta [shr_m].
  destruct (Z.leb_spec ez (1024 - 53)); [reflexivity | lia].
Qed.

Lemma binary_round_small sx (m : positive) :
  Z.pos (digits2_pos m) <= 53 ->
  exists mz k, binary_round 53 1024 sx m 0 = S754_finite sx mz (- k) /\
               0 <= k /\ Z.pos mz = Z.pos m * 2 ^ k.
Proof.
  intros Hd. unfold binary_round, shl_align, fexp, emin.
  replace (Z.max (Z.pos (digits2_pos m) + 0 - 53) (3 - 1024 - 53) - 0)
    with (Z.pos (digits2_pos m) - 53) by lia.
  replace (Z.max (Z.pos (digits2_pos m) + 0 - 53) (3 - 1024 - 53))
    with (Z.pos (digits2_pos m) - 53) by lia.
  destruct (Z.pos (digits2_pos m) - 53) as [|p|p] eqn:Hdiff; [|lia|].
  - exists m, 0. rewrite binary_round_aux_canonical by lia.
    split; [reflexivity|]. split; lia.
  - exists (Pos.iter xO m p), (Z.pos p).
    rewrite binary_round_aux_canonical.
    + split; [reflexivity|]. split; [lia|].
      change (Pos.iter xO m p) with (shift_pos p m).
      rewrite shift_pos_correct. change (Zpower_pos 2 p) with (2 ^ Z.pos p). lia.
    + rewrite digits2_pos_iter. lia.
    + lia.
Qed.

Lemma digits2_pos_size m : digits2_pos m = Pos.size m.
Proof. induction m; simpl; congruence. Qed.

Lemma digits2_pos_le_53 m : Z.pos m < 2 ^ 53 -> Z.pos (digits2_pos m) <= 53.
Proof.
  intros Hm. rewrite digits2_pos_size.
  destruct (Z_le_gt_dec (Z.pos (Pos.size m)) 53) as [|Hgt]; [assumption|].
  exfalso. pose proof (Pos.size_le m) as Hle.
  apply Pos2Z.pos_le_pos in Hle. rewrite Pos2Z.inj_pow in Hle.
  assert (H54 : 2 ^ 54 <= 2 ^ Z.pos (Pos.size m)) by (apply Z.pow_le_mono_r; lia).
  lia.
Qed.

Lemma float64_of_pos_exact sx (m : positive) :
  Z.pos m < 2 ^ 53 ->
  float64_to_Z (binary_round 53 1024 sx m 0) = Some (if sx then Z.neg m else Z.pos m).
Proof.
  intros Hm. destruct (binary_round_small sx m (digits2_pos_le_53 m Hm)) as (mz & k & -> & Hk & Hmz).
  unfold float64_to_Z.
  assert (Hv : (if sx then Z.neg mz else Z.pos mz) = (if sx then Z.neg m else Z.pos m) * 2 ^ k).
  { destruct sx; [|assumption]. rewrite <- !Pos2Z.opp_pos. lia. }
  rewrite Hv. clear Hv Hmz.
  destruct (0 <=? - k) eqn:Hle.
  - apply Z.leb_le in Hle. assert (k = 0) as -> by lia. simpl. f_equal. lia.
  - rewrite Z.opp_involutive. rewrite Z.mod_mul by (apply Z.pow_nonzero; lia).
    simpl. rewrite Z.div_mul by (apply Z.pow_nonzero; lia). reflexivity.
Qed.

Lemma float64_of_Z_exact z :
  - 2 ^ 53 < z < 2 ^ 53 -> float64_to_Z (float64_of_Z z) = Some z.
Proof.
  intros Hz. destruct z as [|m|m]; [reflexivity|..]; apply float64_of_pos_exact; lia.
Qed.

(** ** More on the fetchers *)

Lemma query_ok_iff (cl : Client) (u : URL) (body : string) :
  queryCephAdminAPI cl u = Ok body <->
  NewRequest (cl u) = None /\ Sign (cl u) = None /\
  exists resp, Do (cl u) = Ok resp /\ ReadAll resp = (body, None) /\
               Close resp = None /\ StatusCode resp = StatusOK.
Proof.
  unfold queryCephAdminAPI.
  destruct (cl u) as [[nrErr|] [sgErr|] [[code status [body' [rdErr|]] [clErr|]]|doErr]];
    simpl; (split; [try discriminate | try (by intros (? & ? & ?))]);
    try (by intros (_ & _ & resp & [= <-] & Hrd & Hcl & Hst)).
  - destruct (code =? StatusOK) eqn:Hcode; simpl; [|discriminate].
    intros [= ->]. apply Z.eqb_eq in Hcode. repeat split. by eexists.
  - intros (_ & _ & resp & [= <-] & [= ->] & _ & Hst). simpl in Hst.
    apply Z.eqb_eq in Hst. by rewrite Hst.
Qed.

(** The shape of the single-request fetchers once more, with the value. *)
Lemma fetch_ok_iff {A B} (dec : string -> result A) (f : A -> B) (parsed : result URL)
    (cl : Client) (q : list (string * string)) (dflt : URL) (m1 m2 m3 : string) (b : B) :
  (destURL ← Errorf m1 parsed;
   resp ← Errorf m2 (queryCephAdminAPI cl (withQuery destURL q));
   v ← Errorf m3 (dec resp);
   Ok (f v)) = Ok b <->
  let x := cl (match parsed with Ok u => withQuery u q | Err _ => withQuery dflt q end) in
  is_err parsed = false /\ notSent x = false /\ transportFails x = false /\
  nonOKStatus x = false /\ exists v, dec (bodyOf x) = Ok v /\ b = f v.
Proof.
  cbv zeta. destruct parsed as [u|perr]; simpl; [|split; [discriminate | by intros [? _]]].
  pose proof (query_is_err cl (withQuery u q)) as Hq.
  destruct (queryCephAdminAPI cl (withQuery u q)) as [body|qerr] eqn:Hr; simpl in *.
  - apply query_ok in Hr as ->.
    symmetry in Hq. apply orb_false_elim in Hq as [[Hn Ht]%orb_false_elim Hs].
    rewrite Hn, Ht, Hs. destruct (dec _) as [v|derr]; simpl.
    + split; [intros [= <-]; repeat split; by exists v
             | by intros (_ & _ & _ & _ & v' & [= <-] & ->)].
    + split; [discriminate | by intros (_ & _ & _ & _ & v' & ? & _)].
  - split; [discriminate|]. intros (_ & Hn & Ht & Hs & _).
    rewrite Hn, Ht, Hs in Hq. discriminate.
Qed.

Lemma fetch_ok_any {A B} (dec : string -> result A) (f : A -> B) (parsed : result URL)
    (cl : Client) (q : list (string * string)) (dflt : URL) (m1 m2 m3 : string) (b : B) :
  (destURL ← Errorf m1 parsed;
   resp ← Errorf m2 (queryCephAdminAPI cl (withQuery destURL q));
   v ← Errorf m3 (dec resp);
   Ok (f v)) = Ok b <->
  let x := cl (match parsed with Ok u => withQuery u q | Err _ => withQuery dflt q end) in
  anyFailure dec parsed x = false /\ exists v, dec (bodyOf x) = Ok v /\ b = f v.
Proof.
  rewrite (fetch_ok_iff dec f parsed cl q dflt). cbv zeta.
  unfold anyFailure, listedFailure. split.
  - intros (-> & -> & -> & -> & v & Hv & ->). rewrite Hv. split; [done | by exists v].
  - intros (Hany & v & Hv & ->). rewrite Hv in Hany. simpl in Hany.
    rewrite !orb_false_r in Hany.
    apply orb_false_elim in Hany as [[Hp Hn]%orb_false_elim [Ht Hs]%orb_false_elim].
    repeat split; try done. by exists v.
Qed.

Section MoreFetcherFacts.
Context `{Library}.
Variable client : nat -> Client.
Variable rgwURL : URL.

Lemma userQuotaLoop_first_failure users : forall k statsMap i user err,
  users !! i = Some user ->
  userLookup client rgwURL (k + i) user = Err err ->
  (forall j u, (j < i)%nat -> users !! j = Some u ->
     is_err (userLookup client rgwURL (k + j) u) = false) ->
  userQuotaLoop client rgwURL k users statsMap = Err err.
Proof.
  induction users as [|u0 users IH]; intros k statsMap i user err Hi Herr Hbefore.
  - by rewrite lookup_nil in Hi.
  - destruct i as [|i]; simpl in *.
    + injection Hi as ->. rewrite Nat.add_0_r in Herr. by rewrite Herr.
    + pose proof (Hbefore 0%nat u0 ltac:(lia) eq_refl) as H0.
      rewrite Nat.add_0_r in H0. apply is_err_false_Ok in H0 as [stats0 ->]. simpl.
      apply (IH (S k) _ i user err Hi).
      * by rewrite Nat.add_succ_comm.
      * intros j u Hj Hu. rewrite Nat.add_succ_comm. apply (Hbefore (S j) u); [lia | done].
Qed.

(** What the loop leaves in the map when no lookup fails. *)
Lemma userQuotaLoop_all_ok users : forall k statsMap,
  (forall i u, users !! i = Some u ->
     is_err (userLookup client rgwURL (k + i) u) = false) ->
  exists m,
    userQuotaLoop client rgwURL k users statsMap = Ok m /\
    (forall u, u ∉ users -> m !! u = statsMap !! u) /\
    (forall i u, users !! i = Some u ->
       (forall j, (i < j)%nat -> users !! j <> Some u) ->
       exists stats, userLookup client rgwURL (k + i) u = Ok stats /\ m !! u = Some stats).
Proof.
  induction users as [|u0 users IH]; intros k statsMap Hall; simpl.
  - exists statsMap. split; [done|]. split; [done|].
    intros i u Hi. by rewrite lookup_nil in Hi.
  - pose proof (Hall 0%nat u0 eq_refl) as H0. rewrite Nat.add_0_r in H0.
    apply is_err_false_Ok in H0 as [stats0 Hs0]. rewrite Hs0. simpl.
    destruct (IH (S k) (<[u0 := stats0]> statsMap)) as (m & Hm & Hout & Hin).
    { intros i u Hi. rewrite Nat.add_succ_comm. by apply (Hall (S i) u). }
    exists m. split; [done|]. split.
    + intros u Hu. apply not_elem_of_cons in Hu as [Hne Hu].
      rewrite (Hout u Hu). by rewrite lookup_insert_ne.
    + intros [|i] u Hi Hlast; simpl in Hi.
      * injection Hi as ->. exists stats0. rewrite Nat.add_0_r. split; [done|].
        rewrite Hout; [by rewrite lookup_insert_eq|].
        intros (j & Hj)%list_elem_of_lookup. by apply (Hlast (S j) ltac:(lia)).
      * destruct (Hin i u Hi) as (stats & Hs & Hmu).
        { intros j Hj. apply (Hlast (S j)). lia. }
        exists stats. split; [|done]. by rewrite <- Nat.add_succ_comm.
Qed.

Lemma userQuotaLoop_dom users : forall k statsMap m,
  userQuotaLoop client rgwURL k users statsMap = Ok m ->
  dom m = dom statsMap ∪ list_to_set users.
Proof.
  induction users as [|u0 users IH]; intros k statsMap m; simpl.
  - intros [= ->]. simpl. by rewrite union_empty_r_L.
  - destruct (userLookup client rgwURL k u0) as [stats0|err]; simpl; [|discriminate].
    intros Hm%IH. rewrite Hm, dom_insert_L. simpl.
    rewrite (union_comm_L {[u0]} (dom statsMap)). by rewrite union_assoc_L.
Qed.

End MoreFetcherFacts.

(** A fetcher sees its client only through the requests it makes. *)
Lemma userLookup_ext `{Library} (client client' : nat -> Client) rgwURL k user :
  (forall u, client k u = client' k u) ->
  userLookup client rgwURL k user = userLookup client' rgwURL k user.
Proof.
  intros Hk. unfold userLookup, queryCephAdminAPI.
  destruct (Parse rgwURL "admin/user"); simpl; [|done]. by rewrite Hk.
Qed.

Lemma getUserList_ext `{Library} (client client' : nat -> Client) rgwURL :
  (forall u, client 0%nat u = client' 0%nat u) ->
  getUserList client rgwURL = getUserList client' rgwURL.
Proof.
  intros Hk. unfold getUserList, queryCephAdminAPI.
  destruct (Parse rgwURL "admin/user"); simpl; [|done]. by rewrite Hk.
Qed.

Lemma userQuotaLoop_ext `{Library} (client client' : nat -> Client) rgwURL users :
  forall k statsMap,
  (forall i u, (i < length users)%nat -> client (k + i)%nat u = client' (k + i)%nat u) ->
  userQuotaLoop client rgwURL k users statsMap = userQuotaLoop client' rgwURL k users statsMap.
Proof.
  induction users as [|u0 users IH]; intros k statsMap Hagree; simpl; [done|].
  rewrite (userLookup_ext client client' rgwURL k u0).
  - destruct (userLookup client' rgwURL k u0); simpl; [|done].
    apply IH. intros i u Hi. rewrite Nat.add_succ_comm. apply Hagree. simpl. lia.
  - intros u. specialize (Hagree 0%nat u). rewrite Nat.add_0_r in Hagree.
    apply Hagree. simpl. lia.
Qed.

(** ** Snapshots made of blocks *)

Section Blocks.
Context {A : Type}.
Variable key : A -> list string.
Variable block : A -> list Metric.
Hypothesis block_labels : forall a m, m ∈ block a -> mLabelValues m = key a.
Hypothesis block_descs : forall a, NoDup (mDesc <$> block a).

Lemma block_identity_NoDup a : NoDup (identity <$> block a).
Proof.
  apply (NoDup_fmap_1 fst). rewrite <- list_fmap_compose. apply block_descs.
Qed.

Lemma blocks_identity_key l x :
  x ∈ identity <$> flat_map block l -> exists a, a ∈ l /\ x.2 = key a.
Proof.
  intros (m & -> & Hm)%list_elem_of_fmap.
  apply list_elem_of_In, in_flat_map in Hm as (a & Ha & Hm).
  exists a. split; [by apply list_elem_of_In|].
  simpl. apply block_labels. by apply list_elem_of_In.
Qed.

Lemma blocks_identity_NoDup l :
  NoDup (key <$> l) -> NoDup (identity <$> flat_map block l).
Proof.
  induction l as [|a l IH]; simpl; [constructor|].
  intros [Hnotin Hnodup]%NoDup_cons. rewrite fmap_app. apply NoDup_app.
  split; [apply block_identity_NoDup|]. split; [|by apply IH].
  intros x (m & -> & Hm)%list_elem_of_fmap (a' & Ha' & Hkey)%blocks_identity_key.
  apply Hnotin. simpl in Hkey. rewrite (block_labels a m Hm) in Hkey.
  rewrite Hkey. apply list_elem_of_fmap. by exists a'.
Qed.

Lemma seriesOf_blocks_other d ls l :
  (forall a, a ∈ l -> key a <> ls) -> seriesOf d ls (flat_map block l) = [].
Proof.
  intros Hall. unfold seriesOf.
  apply elem_of_nil_inv. intros m [[_ Hls] Hm]%list_elem_of_filter.
  apply list_elem_of_In, in_flat_map in Hm as (a & Ha & Hm).
  apply (Hall a); [by apply list_elem_of_In|].
  rewrite <- Hls. symmetry. apply block_labels. by apply list_elem_of_In.
Qed.

End Blocks.

Lemma length_flat_map_const {A B} (f : A -> list B) (n : nat) (l : list A) :
  (forall a, length (f a) = n) -> length (flat_map f l) = (n * length l)%nat.
Proof.
  intros Hn. induction l as [|a l IH]; simpl; [lia|].
  rewrite length_app, Hn, IH. lia.
Qed.

Lemma rangeMap_perm `{Countable K} {V} (o : MapOrder) (m : gmap K V) :
  valid_order o -> rangeMap o m ≡ₚ map_to_list m.
Proof. intros Ho. apply Ho. Qed.

(** ** The usage snapshot as a whole *)

Lemma usage_series_labels start kv m :
  m ∈ operationsCollector.series start kv -> mLabelValues m = usageLabels kv.1.
Proof.
  destruct kv as [k v]. unfold operationsCollector.series.
  intros Hm. repeat (apply elem_of_cons in Hm as [->|Hm]; [reflexivity|]).
  by apply elem_of_nil in Hm.
Qed.

Lemma usage_series_descs start kv :
  mDesc <$> operationsCollector.series start kv = Describe.operationsCollector.
Proof. by destruct kv. Qed.

(** Lists of distinct closed descriptors. *)
Ltac distinct_descs :=
  repeat (apply NoDup_cons; split;
          [ let Hin := fresh "Hin" in
            intros Hin;
            repeat (apply elem_of_cons in Hin as [Hin|Hin]; [discriminate Hin|]);
            by apply elem_of_nil in Hin
          | ]);
  apply NoDup_nil; exact I.

Lemma Describe_operations_NoDup : NoDup Describe.operationsCollector.
Proof. unfold Describe.operationsCollector. distinct_descs. Qed.

Lemma withKey_nonempty k raw : withKey k raw <> [] <-> k ∈ raw.*1.
Proof.
  unfold withKey. split.
  - intros Hne. destruct (filter _ raw) as [|kc l] eqn:Hf; [done|].
    assert (Hin : kc ∈ filter (fun kc => kc.1 = k) raw) by (rewrite Hf; by left).
    apply list_elem_of_filter in Hin as [<- Hin]. apply list_elem_of_fmap. by exists kc.
  - intros (kc & -> & Hin)%list_elem_of_fmap Hnil.
    assert (Hin' : kc ∈ filter (fun kc' => kc'.1 = kc.1) raw) by (by apply list_elem_of_filter).
    rewrite Hnil in Hin'. by apply elem_of_nil in Hin'.
Qed.

Lemma combine_dom usageStats :
  dom (operationsCollector.combine usageStats) = list_to_set (rawEntries usageStats).*1.
Proof.
  apply set_eq. intros k. rewrite elem_of_dom, elem_of_list_to_set, combine_lookup.
  rewrite <- withKey_nonempty.
  destruct (decide (withKey k (rawEntries usageStats) = [])) as [Hnil|Hnn].
  - split; [by intros [? ?] | done].
  - split; [done | by eexists].
Qed.

(** ** The user snapshot *)

Lemma users_aggregate_flat_map o start userQuotaInfo :
  userInfoCollector.aggregate o start userQuotaInfo
    = flat_map (userInfoCollector.series start) (rangeMap o userQuotaInfo).
Proof. unfold userInfoCollector.aggregate. by rewrite fold_left_app_flat_map. Qed.

Lemma user_series_gauges start user quotaInfo :
  userInfoCollector.series start (user, quotaInfo) = userGauges start user quotaInfo.
Proof.
  unfold userInfoCollector.series, userGauges. by destruct (usEnabled quotaInfo).
Qed.

Lemma user_series_labels start (kv : string * userStats) m :
  m ∈ userInfoCollector.series start kv -> mLabelValues m = [kv.1].
Proof.
  destruct kv as [user quotaInfo]. unfold userInfoCollector.series.
  intros Hm. repeat (apply elem_of_cons in Hm as [->|Hm]; [reflexivity|]).
  by apply elem_of_nil in Hm.
Qed.

Lemma user_series_descs start kv :
  mDesc <$> userInfoCollector.series start kv = Describe.userInfoCollector.
Proof. by destruct kv. Qed.

Lemma Describe_users_NoDup : NoDup Describe.userInfoCollector.
Proof. unfold Describe.userInfoCollector. distinct_descs. Qed.

Lemma user_keys_NoDup (l : list (string * userStats)) :
  NoDup l.*1 -> NoDup ((fun kv : string * userStats => [kv.1]) <$> l).
Proof.
  intros Hl. change (NoDup (((fun u : string => [u]) ∘ fst) <$> l)).
  rewrite (list_fmap_compose fst (fun u : string => [u])).
  apply NoDup_fmap_2; [|done]. by intros u u' [= ->].
Qed.

Lemma seriesOf_user_range o start d user (m : gmap string userStats) :
  valid_order o ->
  seriesOf d [user] (flat_map (userInfoCollector.series start) (rangeMap o m))
    ≡ₚ match m !! user with
       | Some quotaInfo => seriesOf d [user] (userGauges start user quotaInfo)
       | None => []
       end.
Proof.
  intros Ho. etransitivity.
  { apply SnapshotFacts.seriesOf_perm, Permutation_flat_map, Ho. }
  assert (Hothers : forall l : list (string * userStats),
            (forall kv, kv ∈ l -> [kv.1] <> [user]) ->
            seriesOf d [user] (flat_map (userInfoCollector.series start) l) = []).
  { intros l. apply (seriesOf_blocks_other (fun kv : string * userStats => [kv.1])).
    apply user_series_labels. }
  destruct (m !! user) as [quotaInfo|] eqn:Hu.
  - etransitivity.
    { apply SnapshotFacts.seriesOf_perm, Permutation_flat_map. symmetry.
      apply (map_to_list_delete m user quotaInfo Hu). }
    cbn [flat_map]. rewrite SnapshotFacts.seriesOf_app, user_series_gauges.
    rewrite Hothers, app_nil_r; [done|].
    intros [u q] Hin%elem_of_map_to_list [= ->]. by rewrite lookup_delete_eq in Hin.
  - rewrite Hothers; [done|].
    intros [u q] Hin%elem_of_map_to_list [= ->]. simpl in Hin. congruence.
Qed.

(** ** The bucket snapshot *)

Lemma bucket_series_labels start b m :
  m ∈ bucketsCollector.series start b -> mLabelValues m = bucketLabels b.
Proof.
  unfold bucketsCollector.series, bucketsCollector.shardSeries,
    bucketsCollector.usageSeries, bucketsCollector.quotaSeries.
  destruct (Usage b !! "rgw.main"); intros Hm; simpl in Hm;
    repeat (apply elem_of_cons in Hm as [->|Hm]; [reflexivity|]);
    by apply elem_of_nil in Hm.
Qed.

Lemma bucket_series_descs start b : NoDup (mDesc <$> bucketsCollector.series start b).
Proof.
  unfold bucketsCollector.series, bucketsCollector.shardSeries,
    bucketsCollector.usageSeries, bucketsCollector.quotaSeries.
  destruct (Usage b !! "rgw.main"); simpl; distinct_descs.
Qed.

Lemma bucket_series_head start b :
  exists rest, bucketsCollector.series start b = shardGauge start b :: rest.
Proof. unfold bucketsCollector.series. simpl. by eexists. Qed.

Lemma bucket_series_length start b :
  length (bucketsCollector.series start b)
    = if decide (hasMain b) then 7%nat else 4%nat.
Proof.
  unfold bucketsCollector.series, bucketsCollector.usageSeries.
  destruct (decide (hasMain b)) as [[usage Hm]|Hn].
  - by rewrite Hm.
  - destruct (Usage b !! "rgw.main") as [usage|] eqn:Hm; [|done].
    exfalso. apply Hn. by exists usage.
Qed.

Lemma shard_identities_sublist start bucketStats :
  ((fun b => (bucketsCollector.bucketShardCount, bucketLabels b)) <$> bucketStats)
    `sublist_of` (identity <$> flat_map (bucketsCollector.series start) bucketStats).
Proof.
  induction bucketStats as [|b bs IH]; [constructor|].
  cbn [flat_map]. rewrite fmap_cons, fmap_app.
  destruct (bucket_series_head start b) as [rest ->].
  rewrite fmap_cons, <- app_comm_cons.
  apply (sublist_skip (bucketsCollector.bucketShardCount, bucketLabels b)).
  by apply sublist_inserts_l.
Qed.

Lemma seriesOf_shard_block start ls b :
  seriesOf bucketsCollector.bucketShardCount ls (bucketsCollector.series start b)
    = if decide (bucketLabels b = ls) then [shardGauge start b] else [].
Proof.
  unfold bucketsCollector.series, bucketsCollector.shardSeries,
    bucketsCollector.usageSeries, bucketsCollector.quotaSeries.
  destruct (decide (bucketLabels b = ls)) as [<-|Hne];
    destruct (Usage b !! "rgw.main"); cbn [app].
  - rewrite SnapshotFacts.seriesOf_cons_same by done.
    by rewrite !SnapshotFacts.seriesOf_cons_desc by done.
  - rewrite SnapshotFacts.seriesOf_cons_same by done.
    by rewrite !SnapshotFacts.seriesOf_cons_desc by done.
  - by rewrite !SnapshotFacts.seriesOf_cons_other by done.
  - by rewrite !SnapshotFacts.seriesOf_cons_other by done.
Qed.

(** ** Runs of the loop *)

Lemma ops_cycleOf `{Library} rgwURL :
  cycleOf (fun e => getCephUsageStats (envClient e) rgwURL)
    (fun e => operationsCollector.aggregate (envOrder e) (envStart e))
    (operationsCollector.scrape rgwURL).
Proof.
  intros e c. unfold operationsCollector.scrape.
  destruct (getCephUsageStats (envClient e) rgwURL) as [usageStats|err];
    (split; [reflexivity|]); intros status; simpl.
  - unfold publish, store. rewrite !counterValue_act.
    change (counterValue status
              (counterInc "success" (gaugeSet (elapsed e) (act AFetch (act ANow c))))
            = (counterValue status c + if decide (status = "success") then 1 else 0)%nat).
    destruct (decide (status = "success")) as [->|Hne].
    + rewrite counterValue_inc_same. unfold counterValue. simpl. lia.
    + rewrite counterValue_inc_other by done. unfold counterValue. simpl. lia.
  - unfold logErrorf. rewrite counterValue_act.
    destruct (decide (status = "error")) as [->|Hne].
    + rewrite counterValue_inc_same. unfold counterValue. simpl. lia.
    + rewrite counterValue_inc_other by done. unfold counterValue. simpl. lia.
Qed.

Lemma buckets_cycleOf `{Library} rgwURL :
  cycleOf (fun e => getCephBucketStats (envClient e) rgwURL)
    (fun e => bucketsCollector.aggregate (envStart e))
    (bucketsCollector.scrape rgwURL).
Proof.
  intros e c. unfold bucketsCollector.scrape.
  destruct (getCephBucketStats (envClient e) rgwURL) as [bucketStats|err];
    (split; [reflexivity|]); intros status; simpl.
  - unfold publish, store. rewrite !counterValue_act.
    change (counterValue status
              (counterInc "success" (gaugeSet (elapsed e) (act AFetch (act ANow c))))
            = (counterValue status c + if decide (status = "success") then 1 else 0)%nat).
    destruct (decide (status = "success")) as [->|Hne].
    + rewrite counterValue_inc_same. unfold counterValue. simpl. lia.
    + rewrite counterValue_inc_other by done. unfold counterValue. simpl. lia.
  - unfold logErrorf. rewrite counterValue_act.
    destruct (decide (status = "error")) as [->|Hne].
    + rewrite counterValue_inc_same. unfold counterValue. simpl. lia.
    + rewrite counterValue_inc_other by done. unfold counterValue. simpl. lia.
Qed.

Lemma users_cycleOf `{Library} rgwURL :
  cycleOf (fun e => getCephUserQuotaStats (envClient e) rgwURL)
    (fun e => userInfoCollector.aggregate (envOrder e) (envStart e))
    (userInfoCollector.scrape rgwURL).
Proof.
  intros e c. unfold userInfoCollector.scrape.
  destruct (getCephUserQuotaStats (envClient e) rgwURL) as [userQuotaInfo|err];
    (split; [reflexivity|]); intros status; simpl.
  - unfold publish, store. rewrite !counterValue_act.
    change (counterValue status
              (counterInc "success" (gaugeSet (elapsed e) (act AFetch (act ANow c))))
            = (counterValue status c + if decide (status = "success") then 1 else 0)%nat).
    destruct (decide (status = "success")) as [->|Hne].
    + rewrite counterValue_inc_same. unfold counterValue. simpl. lia.
    + rewrite counterValue_inc_other by done. unfold counterValue. simpl. lia.
  - unfold logErrorf. rewrite counterValue_act.
    destruct (decide (status = "error")) as [->|Hne].
    + rewrite counterValue_inc_same. unfold counterValue. simpl. lia.
    + rewrite counterValue_inc_other by done. unfold counterValue. simpl. lia.
Qed.

Section Runs.
Context {A : Type}.
Variable fetch : CycleEnv -> result A.
Variable agg : CycleEnv -> A -> list Metric.
Variable scrape : CycleEnv -> collector -> collector.
Hypothesis scrape_cycle : cycleOf fetch agg scrape.

Local Abbreviation afterRound := (afterRound fetch agg).

Lemma fetchLoop_metrics rounds : forall c,
  metrics (fetchLoop scrape rounds c).1 = fold_left afterRound (executed rounds) (metrics c).
Proof.
  induction rounds as [|r rounds IH]; intros c; simpl; [done|].
  destruct (ctxErr r); [done|].
  pose proof (scrape_cycle (env r) (act (ACtxErr false) c)) as [Hm _].
  destruct (wake r); simpl.
  - rewrite IH. simpl. by rewrite Hm.
  - by rewrite Hm.
Qed.

Lemma afterRound_all_failed l ms :
  (forall r, r ∈ l -> is_err (fetch (env r)) = true) -> fold_left afterRound l ms = ms.
Proof.
  revert ms. induction l as [|r l IH]; intros ms Hall; simpl; [done|].
  rewrite IH by (intros r' Hr'; apply Hall; by right).
  unfold afterRound. pose proof (Hall r ltac:(by left)) as Hr.
  by destruct (fetch (env r)).
Qed.

Lemma afterRound_last_ok before r after payload ms :
  fetch (env r) = Ok payload ->
  (forall r', r' ∈ after -> is_err (fetch (env r')) = true) ->
  fold_left afterRound (before ++ r :: after) ms = agg (env r) payload.
Proof.
  intros Hr Hafter. rewrite fold_left_app. simpl.
  rewrite afterRound_all_failed by done. unfold afterRound. by rewrite Hr.
Qed.

Lemma fetchLoop_servesLatest interval rounds c :
  servesLatest fetch agg rounds c
    (fetchLoop scrape rounds (act (ANewTicker interval) c)).1.
Proof.
  unfold servesLatest. rewrite !collected_metrics, fetchLoop_metrics. split.
  - intros Hall. by rewrite afterRound_all_failed.
  - intros before r after payload -> Hr Hafter. by apply afterRound_last_ok.
Qed.

Lemma fetchLoop_counter status rounds : forall c,
  counterValue status (fetchLoop scrape rounds c).1
    = (counterValue status c
       + length (filter (fun r => status = if is_err (fetch (env r)) then "error" else "success")
                   (executed rounds)))%nat.
Proof.
  induction rounds as [|r rounds IH]; intros c; simpl; [lia|].
  destruct (ctxErr r); simpl; [rewrite counterValue_act; lia|].
  pose proof (scrape_cycle (env r) (act (ACtxErr false) c)) as [_ Hc].
  specialize (Hc status). rewrite counterValue_act in Hc.
  rewrite filter_cons.
  destruct (wake r); simpl.
  - rewrite IH, counterValue_act, Hc. destruct (decide _); simpl; lia.
  - rewrite counterValue_act, Hc. destruct (decide _); simpl; lia.
Qed.

Lemma fetchLoop_countsRounds interval rounds c :
  countsRounds fetch rounds c (fetchLoop scrape rounds (act (ANewTicker interval) c)).1.
Proof.
  unfold countsRounds. rewrite !fetchLoop_counter, !counterValue_act.
  split; [|split].
  - f_equal. f_equal. apply list_filter_iff. intros r.
    destruct (is_err (fetch (env r))); split; done.
  - f_equal. f_equal. apply list_filter_iff. intros r.
    destruct (is_err (fetch (env r))); split; done.
  - intros status Hs He. rewrite fetchLoop_counter, counterValue_act.
    rewrite (elem_of_nil_inv (filter _ (executed rounds))); [simpl; lia|].
    intros r [Hr _]%list_elem_of_filter. destruct (is_err (fetch (env r))); congruence.
Qed.

End Runs.

Lemma fetchLoop_untilStop scrape rounds : forall c,
  fetchLoop scrape (untilStop rounds) c = fetchLoop scrape rounds c.
Proof.
  induction rounds as [|r rounds IH]; intros c; simpl; [done|].
  destruct (ctxErr r) eqn:Hctx; simpl; [by rewrite Hctx|].
  destruct (wake r) eqn:Hw; simpl; rewrite Hctx, Hw; [apply IH | done].
Qed.

Lemma fetchLoop_returned scrape rounds : forall c,
  (fetchLoop scrape rounds c).2 = Returned <-> Exists stops rounds.
Proof.
  induction rounds as [|r rounds IH]; intros c; simpl.
  - split; [discriminate | by intros ?%Exists_nil].
  - rewrite Exists_cons.
    destruct (ctxErr r) eqn:Hctx; simpl.
    { split; [intros _; left; by left | done]. }
    destruct (wake r) eqn:Hw; simpl.
    + rewrite IH. split; [by right|].
      intros [[Hc|Hd]|Hrest]; [congruence | congruence | done].
    + split; [intros _; left; by right | done].
Qed.

(** ** The health probe *)

Lemma cephHealthCheck_ok_iff `{Library} (client : Client) (rgwURL : URL) :
  cephHealthCheck client rgwURL = Ok tt <->
  exists u, Parse rgwURL "swift/healthcheck" = Ok u /\ healthy (client u).
Proof.
  unfold cephHealthCheck, healthy.
  destruct (Parse rgwURL "swift/healthcheck") as [u|perr]; simpl;
    [|split; [discriminate | by intros (u & ? & _)]].
  destruct (client u) as [[nrErr|] sg [[code status [body [rdErr|]] [clErr|]]|doErr]] eqn:Hx;
    simpl.
  all: split; [try discriminate | intros (u' & [= <-] & Hh); rewrite Hx in Hh; simpl in Hh].
  all: try (by destruct Hh as (? & ?)).
  all: try (by destruct Hh as (_ & resp & [= <-] & ? & ? & ?)).
  all: try (by destruct Hh as (_ & resp & ? & _)).
  - destruct (code =? StatusOK) eqn:Hcode; simpl; [|discriminate].
    intros _. exists u. split; [done|]. rewrite Hx. simpl. split; [done|].
    eexists. split; [done|]. simpl. apply Z.eqb_eq in Hcode. by repeat split.
  - destruct Hh as (_ & resp & [= <-] & _ & _ & Hst). simpl in Hst.
    apply Z.eqb_eq in Hst. by rewrite Hst.
Qed.

Lemma cephHealthCheck_ext `{Library} (client client' : Client) (rgwURL : URL) :
  (forall u, NewRequest (client u) = NewRequest (client' u) /\ Do (client u) = Do (client' u)) ->
  cephHealthCheck client rgwURL = cephHealthCheck client' rgwURL.
Proof.
  intros Hagree. unfold cephHealthCheck.
  destruct (Parse rgwURL "swift/healthcheck") as [u|perr]; simpl; [|done].
  destruct (Hagree u) as [-> ->]. done.
Qed.

(** ** Joining payloads *)

Lemma wrap64_add a b : wrap64 (wrap64 a + wrap64 b) = wrap64 (a + b).
Proof.
  rewrite wrap64_add_l, (Z.add_comm a (wrap64 b)), wrap64_add_l. f_equal. lia.
Qed.

Lemma rawEntries_app entries1 entries2 :
  rawEntries {| Entries := entries1 ++ entries2 |}
    = (rawEntries {| Entries := entries1 |} ++ rawEntries {| Entries := entries2 |})%list.
Proof. unfold rawEntries. simpl. apply flat_map_app. Qed.

(** ** The lock over a run *)

Lemma storesUnderLock_app held tr1 tr2 :
  storesUnderLock held (tr1 ++ tr2)
    = storesUnderLock held tr1 && storesUnderLock (fold_left lockStep tr1 held) tr2.
Proof.
  revert held. induction tr1 as [|a tr1 IH]; intros held; simpl; [done|].
  rewrite IH. by rewrite andb_assoc.
Qed.

Lemma lockDisciplined_app tr1 tr2 :
  lockDisciplined tr1 -> lockDisciplined tr2 -> lockDisciplined (tr1 ++ tr2).
Proof.
  unfold lockDisciplined, lockHeld. intros [Hs1 Hl1] [Hs2 Hl2].
  rewrite storesUnderLock_app, fold_left_app, Hs1, Hl1. by split.
Qed.

Lemma failureTrace_lockDisciplined e err : lockDisciplined (failureTrace e err).
Proof. by split. Qed.

Lemma successTrace_lockDisciplined e ms : lockDisciplined (successTrace e ms).
Proof. by split. Qed.

Section LockFacts.
Variable scrape : CycleEnv -> collector -> collector.
Hypothesis scrape_disciplined :
  forall e c, exists tr, trace (scrape e c) = (trace c ++ tr)%list /\ lockDisciplined tr.

Lemma fetchLoop_lockDisciplined rounds : forall c,
  exists tr, trace (fetchLoop scrape rounds c).1 = (trace c ++ tr)%list /\ lockDisciplined tr.
Proof.
  induction rounds as [|r rounds IH]; intros c; simpl.
  - exists []. by rewrite app_nil_r.
  - destruct (ctxErr r).
    + by exists [ACtxErr true].
    + destruct (scrape_disciplined (env r) (act (ACtxErr false) c)) as (tr & Htr & Hd).
      destruct (wake r).
      * destruct (IH (act (ASelect Tick) (scrape (env r) (act (ACtxErr false) c))))
          as (tr' & Htr' & Hd').
        exists ([ACtxErr false] ++ tr ++ [ASelect Tick] ++ tr')%list. split.
        -- rewrite Htr'. simpl. rewrite Htr. simpl. by rewrite <- !app_assoc.
        -- repeat apply lockDisciplined_app; first [assumption | by split].
      * exists ([ACtxErr false] ++ tr ++ [ASelect Done])%list. split.
        -- simpl. rewrite Htr. simpl. by rewrite <- !app_assoc.
        -- repeat apply lockDisciplined_app; first [assumption | by split].
Qed.

Lemma FetchMetrics_lockDisciplined interval rounds c :
  lockDisciplined (emitted c (fetchLoop scrape rounds (act (ANewTicker interval) c)).1).
Proof.
  destruct (fetchLoop_lockDisciplined rounds (act (ANewTicker interval) c))
    as (tr & Htr & Hd).
  rewrite (emitted_app c _ ([ANewTicker interval] ++ tr)).
  - apply lockDisciplined_app; first [assumption | by split].
  - rewrite Htr. simpl. by rewrite <- app_assoc.
Qed.

End LockFacts.

(** ** The ticker and the loop *)

Lemma fetchLoop_not_Panicked scrape rounds : forall c,
  (fetchLoop scrape rounds c).2 <> Panicked.
Proof.
  induction rounds as [|r rounds IH]; intros c; simpl; [done|].
  destruct (ctxErr r); [done|]. destruct (wake r); [apply IH | done].
Qed.

Lemma fetchLoop_trace_grows scrape rounds :
  (forall e c, exists tr, trace (scrape e c) = (trace c ++ tr)%list) ->
  forall c, exists tr, trace (fetchLoop scrape rounds c).1 = (trace c ++ tr)%list.
Proof.
  intros Hs. induction rounds as [|r rounds IH]; intros c; simpl.
  - exists []. by rewrite app_nil_r.
  - destruct (ctxErr r); [by eexists|].
    destruct (Hs (env r) (act (ACtxErr false) c)) as [tr Htr].
    destruct (wake r).
    + destruct (IH (act (ASelect Tick) (scrape (env r) (act (ACtxErr false) c))))
        as [tr' Htr'].
      rewrite Htr'. simpl. rewrite Htr. simpl. rewrite <- !app_assoc. by eexists.
    + simpl. rewrite Htr. simpl. rewrite <- !app_assoc. by eexists.
Qed.

(** ** Start-up *)

Lemma validated_or_not `{Settings} : validated \/ ~ validated.
Proof.
  unfold validated.
  destruct (decide (is_err (ParseLevel (GetString viperLogLevel)) = false));
    [|right; tauto].
  destruct (decide (GetString viperRGWURL = "")); [right; tauto|].
  destruct (decide (is_err (url_Parse (GetString viperRGWURL)) = false));
    [|right; tauto].
  destruct (decide (GetString viperInterval = "")); [right; tauto|].
  destruct (decide (is_err (Str2Duration (GetString viperInterval)) = false));
    [|right; tauto].
  destruct (decide (GetString viperAccessKey = "")); [right; tauto|].
  destruct (decide (GetString viperSecretKey = "")); [right; tauto|].
  left. tauto.
Qed.

(** Settings that fail a check: an error, and nothing started. *)
Lemma RunServer_rejects `{Settings} (sd : ShutdownEnv) :
  ~ validated ->
  exists err, (RunServer sd).2 = Returns (Some err) /\
              forall a, a ∈ (RunServer sd).1 -> ~ starts a.
Proof.
  intros Hnot. unfold RunServer.
  destruct (ParseLevel (GetString viperLogLevel)) as [logLevel|e0] eqn:Hl; simpl.
  2: { eexists. split; [done|]. intros a Ha. by apply elem_of_nil in Ha. }
  assert (Honly : forall a, a ∈ [SSetLevel logLevel] -> ~ starts a).
  { intros a Ha. apply list_elem_of_singleton in Ha as ->. by intros []. }
  destruct (String.eqb_spec (GetString viperRGWURL) "") as [Hu|Hu]; simpl; [by eexists|].
  destruct (url_Parse (GetString viperRGWURL)) as [rgwURL|e1] eqn:Hp; simpl; [|by eexists].
  destruct (String.eqb_spec (GetString viperInterval) "") as [Hi|Hi]; simpl; [by eexists|].
  destruct (Str2Duration (GetString viperInterval)) as [interval|e2] eqn:Hd; simpl;
    [|by eexists].
  destruct (String.eqb_spec (GetString viperAccessKey) "") as [Ha|Ha]; simpl; [by eexists|].
  destruct (String.eqb_spec (GetString viperSecretKey) "") as [Hs|Hs]; simpl; [by eexists|].
  exfalso. apply Hnot. unfold validated. by rewrite Hl, Hp, Hd.
Qed.

(** Settings that pass every check: the scrapers and the listener are
    started, and the interval decides between a panic and a run to the
    end of the shut-down. *)
Lemma RunServer_accepts `{Settings} (sd : ShutdownEnv) :
  validated ->
  exists rgwURL interval,
    url_Parse (GetString viperRGWURL) = Ok rgwURL /\
    Str2Duration (GetString viperInterval) = Ok interval /\
    filter starts (RunServer sd).1
      = [ SStartScraping rgwURL (GetString viperAccessKey) (GetString viperSecretKey)
            interval;
          SListenAndServe (":" ++ pretty (GetInt viperPort)) ] /\
    (interval <= 0 ->
       (RunServer sd).2 = Panics "non-positive interval for NewTicker") /\
    (0 < interval ->
       (RunServer sd).2 = Returns None /\
       exists before between after,
         (RunServer sd).1
           = (before ++ SShutdown (10 * Second) :: between ++ SClose :: after)%list /\
         SAwaitSignal ∈ before /\ SServerCancel ∈ after /\
         between = logIfErr "HTTP Server Shutdown Failed - " (shutdownErr sd) /\
         (forall err, srvCloseErr sd = Some err ->
            SErrorf ("Failed closing server: " ++ err) ∈ after)).
Proof.
  intros (Hl & Hu & Hp & Hi & Hd & Ha & Hs). unfold RunServer.
  apply is_err_false_Ok in Hl as [logLevel ->].
  apply is_err_false_Ok in Hp as [rgwURL ->].
  apply is_err_false_Ok in Hd as [interval ->].
  apply String.eqb_neq in Hu, Hi, Ha, Hs. rewrite Hu, Hi, Ha, Hs. simpl.
  exists rgwURL, interval. split; [done|]. split; [done|].
  split; [|split].
  - destruct (NewTicker interval); [done|].
    by destruct (shutdownErr sd), (srvCloseErr sd).
  - intros Hle. by rewrite (NewTicker_non_positive interval Hle).
  - intros Hpos. rewrite (NewTicker_positive interval Hpos). split; [done|].
    eexists [_; _; _; _; _; _; _; _; _], _, _. split; [reflexivity|].
    split; [set_solver|]. split; [set_solver|]. split; [done|].
    intros err ->. set_solver.
Qed.

(** * The claims *)

(** C2.  In every cycle of any of the three collectors whose fetch
    returns an error, the snapshot stays the one published before (a
    reader is handed the same list), the error counter goes up by exactly
    one and the success counter keeps its value; in every cycle whose
    fetch succeeds, the success counter goes up by one and the error
    counter keeps its value. *)
Theorem failed_cycle_keeps_snapshot `{Library} (rgwURL : URL) (e : CycleEnv) (c : collector) :
  cycleOutcome (getCephUsageStats (envClient e) rgwURL) c
    (operationsCollector.scrape rgwURL e c) /\
  cycleOutcome (getCephBucketStats (envClient e) rgwURL) c
    (bucketsCollector.scrape rgwURL e c) /\
  cycleOutcome (getCephUserQuotaStats (envClient e) rgwURL) c
    (userInfoCollector.scrape rgwURL e c).
Proof.
  split; [|split]; apply (cycleOutcome_intro _ e).
  - apply ops_scrape_err.
  - intros usageStats Hr. eexists; apply (ops_scrape_ok rgwURL e c usageStats Hr).
  - apply buckets_scrape_err.
  - intros bucketStats Hr. eexists; apply (buckets_scrape_ok rgwURL e c bucketStats Hr).
  - apply users_scrape_err.
  - intros userQuotaInfo Hr. eexists; apply (users_scrape_ok rgwURL e c userQuotaInfo Hr).
Qed.

(** C8.  In every cycle of any of the three collectors the duration
    gauge is set to the time the fetch took, whether the fetch succeeded
    or failed, and exactly one of the two counters goes up by one while
    the other keeps its value. *)
Theorem accounting_on_every_cycle `{Library} (rgwURL : URL) (e : CycleEnv) (c : collector) :
  accounted e c (operationsCollector.scrape rgwURL e c) /\
  accounted e c (bucketsCollector.scrape rgwURL e c) /\
  accounted e c (userInfoCollector.scrape rgwURL e c).
Proof.
  split; [|split].
  - destruct (getCephUsageStats (envClient e) rgwURL) as [a|err] eqn:Hr.
    + eapply accounted_published, ops_scrape_ok, Hr.
    + eapply accounted_abandoned, ops_scrape_err, Hr.
  - destruct (getCephBucketStats (envClient e) rgwURL) as [a|err] eqn:Hr.
    + eapply accounted_published, buckets_scrape_ok, Hr.
    + eapply accounted_abandoned, buckets_scrape_err, Hr.
  - destruct (getCephUserQuotaStats (envClient e) rgwURL) as [a|err] eqn:Hr.
    + eapply accounted_published, users_scrape_ok, Hr.
    + eapply accounted_abandoned, users_scrape_err, Hr.
Qed.

(** C3.  Whatever the user list and whichever of its users has a quota
    lookup that fails, the user-quota fetch returns an error and no map,
    and the cycle publishes nothing: it stores no list, the snapshot and
    what a reader is handed stay as they were, and one error is counted.
    No prefix of the users is published. *)
Theorem user_quota_all_or_nothing `{Library} (rgwURL : URL) (e : CycleEnv) (c : collector)
    (users : list string) (i : nat) (user : string) :
  getUserList (envClient e) rgwURL = Ok users ->
  users !! i = Some user ->
  is_err (userLookup (envClient e) rgwURL (S i) user) = true ->
  exists err,
    getCephUserQuotaStats (envClient e) rgwURL = Err err /\
    let c' := userInfoCollector.scrape rgwURL e c in
    emitted c c' = failureTrace e err /\
    (forall ms, AStore ms ∉ emitted c c') /\
    metrics c' = metrics c /\ collected c' = collected c /\ countedError c c'.
Proof.
  intros Hl Hi Hu.
  assert (Herr : is_err (getCephUserQuotaStats (envClient e) rgwURL) = true).
  { apply userQuota_is_err. right. by exists users, i, user. }
  apply is_err_true_Err in Herr as [err Herr]. exists err. split; [done|].
  pose proof (users_scrape_err rgwURL e c err Herr) as Hc.
  pose proof (users_trace rgwURL e c) as Ht. rewrite Herr in Ht.
  apply emitted_app in Ht. cbv zeta. rewrite Ht.
  split; [done|]. split.
  - intros ms Hin. unfold failureTrace in Hin.
    repeat (apply elem_of_cons in Hin as [Hin|Hin]; [discriminate|]).
    by apply elem_of_nil in Hin.
  - split; [apply Hc|]. split; [apply (abandoned_collected e), Hc | apply Hc].
Qed.

(** Five users, the lookup of the third answered with status 500: nothing
    is published and the earlier snapshot stays. *)
Lemma user_quota_all_or_nothing_witness :
  let e := Fixture.cycle [Fixture.ok "five users"; Fixture.ok "on"; Fixture.ok "off";
                          Fixture.answer 500 "500 Internal Server Error" "";
                          Fixture.ok "on"; Fixture.ok "on"] in
  exists err,
    @getCephUserQuotaStats Fixture.lib (envClient e) Fixture.rgwURL = Err err /\
    let c' := @userInfoCollector.scrape Fixture.lib Fixture.rgwURL e Fixture.seasoned in
    emitted Fixture.seasoned c' = failureTrace e err /\
    (forall ms, AStore ms ∉ emitted Fixture.seasoned c') /\
    metrics c' = [Fixture.stale] /\ collected c' = collected Fixture.seasoned /\
    countedError Fixture.seasoned c'.
Proof.
  intros e.
  apply (@user_quota_all_or_nothing Fixture.lib Fixture.rgwURL e Fixture.seasoned
           Fixture.fiveUsers 2%nat "u3"); reflexivity.
Defined.

(** C10.  A cycle whose fetch succeeds with nothing in it (a usage
    payload without rows, an empty bucket list, an empty user list)
    stores the empty list in place of whatever was published before and
    counts as a success, not as an error. *)
Theorem empty_payload_replaces_snapshot `{Library} (rgwURL : URL) (e : CycleEnv)
    (c : collector) :
  valid_order (envOrder e) ->
  (forall usageStats,
     getCephUsageStats (envClient e) rgwURL = Ok usageStats ->
     rawEntries usageStats = [] ->
     published e [] c (operationsCollector.scrape rgwURL e c) /\
     collected (operationsCollector.scrape rgwURL e c) = []) /\
  (getCephBucketStats (envClient e) rgwURL = Ok [] ->
     published e [] c (bucketsCollector.scrape rgwURL e c) /\
     collected (bucketsCollector.scrape rgwURL e c) = []) /\
  (getUserList (envClient e) rgwURL = Ok [] ->
     published e [] c (userInfoCollector.scrape rgwURL e c) /\
     collected (userInfoCollector.scrape rgwURL e c) = []).
Proof.
  intros Ho.
  assert (Hcol : forall c', published e [] c c' -> published e [] c c' /\ collected c' = []).
  { intros c' Hp. split; [done|]. rewrite collected_metrics. apply Hp. }
  split; [|split].
  - intros usageStats Hr Hraw. apply Hcol.
    pose proof (ops_scrape_ok rgwURL e c usageStats Hr) as Hp.
    unfold operationsCollector.aggregate in Hp.
    by rewrite (combine_no_rows _ Hraw), (rangeMap_empty _ Ho) in Hp.
  - intros Hr. apply Hcol. apply (buckets_scrape_ok rgwURL e c [] Hr).
  - intros Hl. apply Hcol.
    pose proof (users_scrape_ok rgwURL e c ∅ (userQuota_no_users _ _ Hl)) as Hp.
    unfold userInfoCollector.aggregate in Hp.
    by rewrite (rangeMap_empty _ Ho) in Hp.
Qed.

(** Reversing is an order a range may take. *)
Lemma reversed_valid : valid_order Fixture.reversed.
Proof. intros A l. symmetry. apply Permutation_rev. Defined.

(** A collector that has published one series meets an empty payload. *)
Lemma empty_payload_replaces_snapshot_witness :
  let e := Fixture.cycle [Fixture.ok "empty"] in
  metrics Fixture.seasoned = [Fixture.stale] /\
  published e [] Fixture.seasoned
    (@operationsCollector.scrape Fixture.lib Fixture.rgwURL e Fixture.seasoned) /\
  published e [] Fixture.seasoned
    (@bucketsCollector.scrape Fixture.lib Fixture.rgwURL e Fixture.seasoned) /\
  published e [] Fixture.seasoned
    (@userInfoCollector.scrape Fixture.lib Fixture.rgwURL e Fixture.seasoned).
Proof.
  intros e.
  destruct (@empty_payload_replaces_snapshot Fixture.lib Fixture.rgwURL e Fixture.seasoned
              reversed_valid) as (Hops & Hbuckets & Husers).
  split; [reflexivity|]. split; [|split].
  - apply (Hops {| Entries := [] |}); reflexivity.
  - apply Hbuckets. reflexivity.
  - apply Husers. reflexivity.
Defined.

(** C6, as stated, does not hold: a fetch also fails when nothing can
    be sent.  Here signing the request fails; the transport is not
    reached, no status arrives and no payload is decoded, yet the usage
    fetch returns an error. *)
Lemma fetch_fails_without_listed_cause :
  let client := Fixture.scripted [Fixture.unsigned "duplicated"] in
  let x := client 0%nat (@destOf Fixture.lib Fixture.rgwURL "admin/usage" usageQuery) in
  @getCephUsageStats Fixture.lib client Fixture.rgwURL
    = Err "failed to get usage stats from ceph - failed to sign request - EmptyStaticCreds: static credentials are empty" /\
  transportFails x = false /\ nonOKStatus x = false /\
  is_err (@unmarshalUsage Fixture.lib (bodyOf x)) = false /\
  is_err (@getCephUsageStats Fixture.lib client Fixture.rgwURL)
    <> listedFailure (@unmarshalUsage Fixture.lib) x.
Proof. vm_compute. repeat split; discriminate. Qed.

(** C6, amended.  Each single-request fetcher (usage stats, bucket
    stats, user list, one user's quota) returns an error if and only if
    the admin URL cannot be built, the request cannot be created or
    signed, the transport fails (sending, reading or closing the body),
    the status is not 200, or the body does not decode.  The user-quota
    fetch returns an error if and only if the user-list fetch does or
    the lookup of some listed user does.  Whenever a fetch returns an
    error the cycle is abandoned: one error is counted and the snapshot
    is the one published before.  The loop does not look at the outcome:
    after a tick it goes on with the next round. *)
Theorem fetch_error_causes `{Library} (client : nat -> Client) (rgwURL : URL) :
  is_err (getCephUsageStats client rgwURL)
    = anyFailure unmarshalUsage (Parse rgwURL "admin/usage")
        (client 0%nat (destOf rgwURL "admin/usage" usageQuery)) /\
  is_err (getCephBucketStats client rgwURL)
    = anyFailure unmarshalBuckets (Parse rgwURL "admin/bucket")
        (client 0%nat (destOf rgwURL "admin/bucket" bucketQuery)) /\
  is_err (getUserList client rgwURL)
    = anyFailure unmarshalUserList (Parse rgwURL "admin/user")
        (client 0%nat (destOf rgwURL "admin/user" userListQuery)) /\
  (forall k user,
     is_err (userLookup client rgwURL k user)
       = anyFailure unmarshalUserStats (Parse rgwURL "admin/user")
           (client k (destOf rgwURL "admin/user" (userQuery user)))) /\
  (is_err (getCephUserQuotaStats client rgwURL) = true <->
     is_err (getUserList client rgwURL) = true \/
     exists users i user,
       getUserList client rgwURL = Ok users /\ users !! i = Some user /\
       is_err (userLookup client rgwURL (S i) user) = true) /\
  (forall e c, envClient e = client ->
     (is_err (getCephUsageStats client rgwURL) = true ->
        abandoned e c (operationsCollector.scrape rgwURL e c)) /\
     (is_err (getCephBucketStats client rgwURL) = true ->
        abandoned e c (bucketsCollector.scrape rgwURL e c)) /\
     (is_err (getCephUserQuotaStats client rgwURL) = true ->
        abandoned e c (userInfoCollector.scrape rgwURL e c))) /\
  (forall scrape r rest c,
     ctxErr r = false -> wake r = Tick ->
     fetchLoop scrape (r :: rest) c
       = fetchLoop scrape rest (act (ASelect Tick) (scrape (env r) (act (ACtxErr false) c)))).
Proof.
  split; [apply usage_is_err|].
  split; [apply buckets_is_err|].
  split; [apply userList_is_err|].
  split; [apply userLookup_is_err|].
  split; [apply userQuota_is_err|].
  split.
  - intros e c <-. split; [|split]; intros [err Hr]%is_err_true_Err.
    + by apply (ops_scrape_err rgwURL e c err).
    + by apply (buckets_scrape_err rgwURL e c err).
    + by apply (users_scrape_err rgwURL e c err).
  - intros scrape r rest c Hctx Hwake. simpl. by rewrite Hctx, Hwake.
Qed.

(** C7.  With a positive interval, whatever the rounds a collector's
    loop goes through, its actions follow the protocol of [phaseStep]:
    the wait for the tick or the cancellation is taken only when the
    cycle before it is finished (after the unlock that ends the publish,
    or after the failure is logged), a cycle begins only at the head of
    the loop, so no cycle begins while another is under way, and when
    the context is live at the start the first cycle's fetch follows the
    creation of the ticker with no wait in between. *)
Theorem cycles_are_sequential `{Library} (rgwURL : URL) (interval : Z)
    (rounds : list Round) (c : collector) :
  0 < interval ->
  runsInSequence interval rounds c
    (operationsCollector.FetchMetrics rgwURL interval rounds c) /\
  runsInSequence interval rounds c
    (bucketsCollector.FetchMetrics rgwURL interval rounds c) /\
  runsInSequence interval rounds c
    (userInfoCollector.FetchMetrics rgwURL interval rounds c).
Proof.
  intros Hpos.
  unfold operationsCollector.FetchMetrics, bucketsCollector.FetchMetrics,
    userInfoCollector.FetchMetrics.
  rewrite (NewTicker_positive interval Hpos).
  split; [|split]; apply fetchLoop_runsInSequence; intros e c0; eexists.
  - split; [apply ops_trace|].
    destruct (getCephUsageStats _ _); [apply successTrace_cycle | apply failureTrace_cycle].
  - split; [apply buckets_trace|].
    destruct (getCephBucketStats _ _); [apply successTrace_cycle | apply failureTrace_cycle].
  - split; [apply users_trace|].
    destruct (getCephUserQuotaStats _ _); [apply successTrace_cycle | apply failureTrace_cycle].
Qed.

(** A minute between ticks; a cycle that succeeds, a tick, a cycle that
    is refused, then cancellation. *)
Lemma cycles_are_sequential_witness :
  let rounds :=
    [ {| ctxErr := false; env := Fixture.cycle [Fixture.ok "empty"]; wake := Tick |};
      {| ctxErr := false; env := Fixture.cycle [Fixture.refused]; wake := Done |} ] in
  runsInSequence (60 * Second) rounds newCollector
    (@operationsCollector.FetchMetrics Fixture.lib Fixture.rgwURL (60 * Second) rounds
       newCollector).
Proof.
  intros rounds.
  apply (@cycles_are_sequential Fixture.lib Fixture.rgwURL (60 * Second) rounds newCollector).
  reflexivity.
Defined.

(** C9, as stated, does not hold: the reader does not let go of the
    lock before it hands the series on.  On a collector whose snapshot
    holds one series, [Collect] locks, sends that series and only then
    unlocks; the send happens with the lock held. *)
Lemma reader_sends_before_unlock :
  emitted Fixture.seasoned (Collect Fixture.seasoned)
    = [ALock; ASend Fixture.stale; AUnlock] /\
  sendsWithLockFree false (emitted Fixture.seasoned (Collect Fixture.seasoned)) = false.
Proof. split; reflexivity. Qed.

(** C9, amended.  A reader takes the collector's lock, puts every series
    of the current snapshot on the channel, in order, while it holds the
    lock, and lets go of the lock when it returns; from its first action
    to its last but one the lock is held, so a publish has to wait for
    the whole hand-over.  The reader changes neither the snapshot nor the
    accounting. *)
Theorem reader_holds_lock_while_sending (c : collector) :
  let tr := emitted c (Collect c) in
  tr = (ALock :: map ASend (metrics c) ++ [AUnlock])%list /\
  sendsUnderLock false tr = true /\
  (forall n : nat, (0 < n <= length (metrics c) + 1)%nat -> lockHeld (take n tr) = true) /\
  lockHeld tr = false /\
  collected c = metrics c /\
  metrics (Collect c) = metrics c /\
  scrapeCountTotal (Collect c) = scrapeCountTotal c /\
  scrapeDurationSeconds (Collect c) = scrapeDurationSeconds c.
Proof.
  cbv zeta. rewrite Collect_emitted.
  split; [done|]. split; [simpl; by rewrite sendsUnderLock_sends|].
  split; [apply lockHeld_during|]. split; [apply lockHeld_after|].
  split; [apply collected_metrics|].
  unfold Collect. simpl.
  rewrite metrics_sends, counters_sends, gauge_sends. done.
Qed.

(** C1, as stated, does not hold.  For the two rows of the spec's own
    example (ops 3 and 4, successful ops 3 and 3, bytes sent 100 and 50)
    the published successful-ops value is 6, not 7.  And the sum is that
    of [int64]: two rows of one key with [2^62] ops each have the exact
    sum [2^63], while the published series holds [float64(-2^63)]. *)
Lemma usage_sum_differs :
  let k := Fixture.alice_b1_put in
  let snapOf body :=
    metrics (@operationsCollector.scrape Fixture.lib Fixture.rgwURL
               (Fixture.cycle [Fixture.ok body]) newCollector) in
  (seriesOf operationsCollector.opsSuccessful (usageLabels k) (snapOf "duplicated")
     = [usageCounter 1000 operationsCollector.opsSuccessful k 6] /\
   usageCounter 1000 operationsCollector.opsSuccessful k 6
     <> usageCounter 1000 operationsCollector.opsSuccessful k 7) /\
  (exactSum Ops k Fixture.huge = 2 ^ 63 /\
   seriesOf operationsCollector.opsTotal (usageLabels k) (snapOf "huge")
     = [usageCounter 1000 operationsCollector.opsTotal k (- 2 ^ 63)] /\
   usageCounter 1000 operationsCollector.opsTotal k (- 2 ^ 63)
     <> usageCounter 1000 operationsCollector.opsTotal k (2 ^ 63)).
Proof.
  cbv zeta. split; [split|split; [|split]].
  - vm_compute. reflexivity.
  - intros Heq. vm_compute in Heq. discriminate.
  - vm_compute. reflexivity.
  - vm_compute. reflexivity.
  - intros Heq. vm_compute in Heq. discriminate.
Qed.

(** C1, amended.  For every fetched usage payload and every key
    (owner, bucket, category): if no row has the key, no series is
    published for it; otherwise the snapshot holds exactly one series of
    each of the four kinds for it, and their values are [float64] of the
    sums of ops, successful ops, bytes sent and bytes received over all
    rows with that key (across all users and buckets), each row counted
    once, the sums taken in [int64], so reduced modulo [2^64], and equal
    to the exact sums whenever those fit; a sum of magnitude below [2^53]
    is published without rounding.  The result does not depend on
    the order of the rows nor on the order in which the map is ranged
    over.  In particular two rows of one key with ops 3 and 4,
    successful ops 3 and 3 and bytes sent 100 and 50 give ops 7,
    successful ops 6 and bytes sent 150. *)
Theorem usage_aggregate_is_int64_sum `{Library} (rgwURL : URL) (e : CycleEnv) (c : collector)
    (usageStats : usageResponse) (k : usageKey) :
  valid_order (envOrder e) ->
  getCephUsageStats (envClient e) rgwURL = Ok usageStats ->
  let snap := metrics (operationsCollector.scrape rgwURL e c) in
  let raw := rawEntries usageStats in
  (withKey k raw = [] -> forall d, seriesOf d (usageLabels k) snap = []) /\
  (withKey k raw <> [] ->
     fourSeries (envStart e) k (wrapValue (exactValue k raw)) snap) /\
  (withKey k raw <> [] -> fitsInt64 (exactValue k raw) ->
     fourSeries (envStart e) k (exactValue k raw) snap) /\
  (forall d z, - 2 ^ 53 < z < 2 ^ 53 ->
     float64_to_Z (mValue (usageCounter (envStart e) d k z)) = Some z) /\
  (forall usageStats', rawEntries usageStats' ≡ₚ raw ->
     operationsCollector.combine usageStats' = operationsCollector.combine usageStats) /\
  (forall r1 r2, withKey k raw = [(k, r1); (k, r2)] ->
     Ops r1 = 3 -> Ops r2 = 4 -> SuccessfulOps r1 = 3 -> SuccessfulOps r2 = 3 ->
     BytesSent r1 = 100 -> BytesSent r2 = 50 ->
     seriesOf operationsCollector.opsTotal (usageLabels k) snap
       = [usageCounter (envStart e) operationsCollector.opsTotal k 7] /\
     seriesOf operationsCollector.opsSuccessful (usageLabels k) snap
       = [usageCounter (envStart e) operationsCollector.opsSuccessful k 6] /\
     seriesOf operationsCollector.sentBytesTotal (usageLabels k) snap
       = [usageCounter (envStart e) operationsCollector.sentBytesTotal k 150]).
Proof.
  intros Ho Hr. cbv zeta.
  destruct (ops_scrape_ok rgwURL e c usageStats Hr) as (-> & _).
  split; [|split; [|split; [|split; [|split]]]].
  - intros Hnil d. by apply aggregate_absent.
  - intros Hnn. by apply aggregate_present.
  - intros Hnn Hfit. rewrite <- (wrapValue_fits _ Hfit). by apply aggregate_present.
  - intros d z Hz. by apply float64_of_Z_exact.
  - intros usageStats' Hp. by apply combine_perm.
  - intros r1 r2 Hrows H1 H2 H3 H4 H5 H6.
    assert (Hnn : withKey k (rawEntries usageStats) <> []) by (rewrite Hrows; discriminate).
    destruct (aggregate_present (envOrder e) (envStart e) usageStats k Ho Hnn)
      as (Ha & Hb & Hc & _).
    unfold exactValue, wrapValue in Ha, Hb, Hc. simpl in Ha, Hb, Hc.
    rewrite Hrows in Ha, Hb, Hc. unfold sumOver in Ha, Hb, Hc. simpl in Ha, Hb, Hc.
    rewrite H1, H2 in Ha. rewrite H3, H4 in Hb. rewrite H5, H6 in Hc.
    done.
Qed.

(** The two rows of the example, ranged over in reverse. *)
Lemma usage_aggregate_is_int64_sum_witness :
  let e := Fixture.cycle [Fixture.ok "duplicated"] in
  let k := Fixture.alice_b1_put in
  fourSeries 1000 k
    {| OpsTotal := 7; OpsSuccessful := 6; SentBytesTotal := 150; ReceivedBytesTotal := 0 |}
    (metrics (@operationsCollector.scrape Fixture.lib Fixture.rgwURL e Fixture.seasoned)).
Proof.
  intros e k.
  destruct (@usage_aggregate_is_int64_sum Fixture.lib Fixture.rgwURL e Fixture.seasoned
              Fixture.duplicated k reversed_valid eq_refl) as (_ & Hpresent & _).
  apply Hpresent. vm_compute. discriminate.
Defined.

(** C4.  For every fetched bucket payload the cycle succeeds and the
    snapshot is the buckets' blocks in payload order.  The block of a
    bucket whose usage map has no entry for the main category
    ([rgw.main]) is its shard-count series followed by its three quota
    series, with no used-bytes, utilized-bytes or object-count series;
    the block of a bucket that has the entry holds, between the two, the
    three usage series with the reported size, utilized size and object
    count. *)
Theorem main_usage_gates_usage_series `{Library} (rgwURL : URL) (e : CycleEnv)
    (c : collector) (bucketStats : list bucketInfoEntry) :
  getCephBucketStats (envClient e) rgwURL = Ok bucketStats ->
  let start := envStart e in
  let c' := bucketsCollector.scrape rgwURL e c in
  published e (flat_map (bucketsCollector.series start) bucketStats) c c' /\
  forall b, b ∈ bucketStats ->
    holdsBlock (metrics c') (bucketsCollector.series start b) /\
    (Usage b !! "rgw.main" = None ->
       bucketsCollector.series start b = shardGauge start b :: quotaGauges start b /\
       forall m, m ∈ bucketsCollector.series start b -> ~ isUsageDesc (mDesc m)) /\
    (forall usage, Usage b !! "rgw.main" = Some usage ->
       bucketsCollector.series start b
         = (shardGauge start b :: usageGauges start b usage ++ quotaGauges start b)%list).
Proof.
  intros Hr. cbv zeta.
  pose proof (buckets_scrape_ok rgwURL e c bucketStats Hr) as Hp.
  rewrite buckets_aggregate_flat_map in Hp. split; [exact Hp|].
  intros b Hb. split; [|split].
  - destruct Hp as (-> & _). by apply flat_map_holdsBlock.
  - intros Hm. rewrite (series_without_main _ _ Hm). split; [done|].
    intros m Hin [Hd|[Hd|Hd]];
      repeat (apply elem_of_cons in Hin as [->|Hin]; [discriminate Hd|]);
      by apply elem_of_nil in Hin.
  - intros usage Hm. by apply series_with_main.
Qed.

(** Two buckets, the first with the main category, the second without. *)
Lemma main_usage_gates_usage_series_witness :
  let e := Fixture.cycle [Fixture.ok "two buckets"] in
  let c' := @bucketsCollector.scrape Fixture.lib Fixture.rgwURL e Fixture.seasoned in
  published e
    (flat_map (bucketsCollector.series 1000) [Fixture.withMain; Fixture.withoutMain])
    Fixture.seasoned c' /\
  bucketsCollector.series 1000 Fixture.withoutMain
    = shardGauge 1000 Fixture.withoutMain :: quotaGauges 1000 Fixture.withoutMain /\
  bucketsCollector.series 1000 Fixture.withMain
    = (shardGauge 1000 Fixture.withMain
       :: usageGauges 1000 Fixture.withMain
            {| Size := 4096; UtilizedSize := 1000; NumObjects := 2 |}
       ++ quotaGauges 1000 Fixture.withMain)%list.
Proof.
  intros e c'.
  destruct (@main_usage_gates_usage_series Fixture.lib Fixture.rgwURL e Fixture.seasoned
              [Fixture.withMain; Fixture.withoutMain] eq_refl) as (Hpub & Hblocks).
  split; [exact Hpub|]. split.
  - destruct (Hblocks Fixture.withoutMain) as (_ & Hnone & _).
    + apply elem_of_cons. right. apply elem_of_cons. by left.
    + apply Hnone. reflexivity.
  - destruct (Hblocks Fixture.withMain) as (_ & _ & Hsome).
    + apply elem_of_cons. by left.
    + apply Hsome. reflexivity.
Defined.

(** C5.  For every bucket of a fetched bucket payload the snapshot holds
    the bucket's three quota series, one after the other: quota-enabled
    with value 1.0 when the quota's enabled flag is true and 0.0 when it
    is false, quota-max-size and quota-max-objects with [float64] of the
    configured limits (the limit itself when its magnitude is below
    [2^53]).  Nothing about the quota (disabled, zero or
    negative limits) and nothing about the bucket's usage map changes
    that. *)
Theorem quota_series_always_emitted `{Library} (rgwURL : URL) (e : CycleEnv)
    (c : collector) (bucketStats : list bucketInfoEntry) (b : bucketInfoEntry) :
  getCephBucketStats (envClient e) rgwURL = Ok bucketStats ->
  b ∈ bucketStats ->
  let start := envStart e in
  let snap := metrics (bucketsCollector.scrape rgwURL e c) in
  holdsBlock snap
    [ bucketGauge start bucketsCollector.bucketQuotaEnabled b
        (if bqEnabled (Quota b) then float64_one else float64_zero);
      bucketGauge start bucketsCollector.bucketQuotaMaxSizeBytes b
        (float64_of_Z (bqMaxSize (Quota b)));
      bucketGauge start bucketsCollector.bucketQuotaMaxObjectCount b
        (float64_of_Z (bqMaxObjects (Quota b))) ] /\
  (exists front, bucketsCollector.series start b = (front ++ quotaGauges start b)%list) /\
  float64_to_Z float64_one = Some 1 /\ float64_to_Z float64_zero = Some 0 /\
  (forall limit, - 2 ^ 53 < limit < 2 ^ 53 -> float64_to_Z (float64_of_Z limit) = Some limit).
Proof.
  intros Hr Hb. cbv zeta.
  destruct (buckets_scrape_ok rgwURL e c bucketStats Hr) as (-> & _).
  rewrite buckets_aggregate_flat_map.
  split; [|split; [apply series_ends_with_quota
                  |split; [reflexivity|split; [reflexivity|apply float64_of_Z_exact]]]].
  destruct (series_ends_with_quota (envStart e) b) as [front Hfront].
  assert (Hblock : holdsBlock (flat_map (bucketsCollector.series (envStart e)) bucketStats)
                     (quotaGauges (envStart e) b)).
  { apply (holdsBlock_suffix _ front). rewrite <- Hfront. by apply flat_map_holdsBlock. }
  exact Hblock.
Qed.

(** A bucket with its quota disabled, a negative size limit and a zero
    object limit. *)
Lemma quota_series_always_emitted_witness :
  let e := Fixture.cycle [Fixture.ok "two buckets"] in
  let snap := metrics (@bucketsCollector.scrape Fixture.lib Fixture.rgwURL e Fixture.seasoned) in
  bqEnabled (Quota Fixture.withoutMain) = false /\
  holdsBlock snap
    [ bucketGauge 1000 bucketsCollector.bucketQuotaEnabled Fixture.withoutMain float64_zero;
      bucketGauge 1000 bucketsCollector.bucketQuotaMaxSizeBytes Fixture.withoutMain
        (float64_of_Z (-1));
      bucketGauge 1000 bucketsCollector.bucketQuotaMaxObjectCount Fixture.withoutMain
        (float64_of_Z 0) ].
Proof.
  intros e snap. split; [reflexivity|].
  apply (@quota_series_always_emitted Fixture.lib Fixture.rgwURL e Fixture.seasoned
           [Fixture.withMain; Fixture.withoutMain] Fixture.withoutMain).
  - reflexivity.
  - apply elem_of_cons. right. apply elem_of_cons. by left.
Defined.

(** * Further properties of the code *)

(** X1.  [queryCephAdminAPI] returns a body exactly when the request is
    created and signed, the client answers, the body is read and closed
    without error and the status is 200; the body returned is the one
    read. *)
Theorem query_succeeds_iff (client : Client) (destURL : URL) (body : string) :
  queryCephAdminAPI client destURL = Ok body <->
  NewRequest (client destURL) = None /\ Sign (client destURL) = None /\
  exists resp, Do (client destURL) = Ok resp /\ ReadAll resp = (body, None) /\
               Close resp = None /\ StatusCode resp = StatusOK.
Proof. apply query_ok_iff. Qed.

(** X2.  Once the client has answered, [queryCephAdminAPI] looks at the
    status last: a failure to read the body is reported whatever the
    close and the status are, a failure to close it is reported whatever
    the status is, and only a body read and closed without error lets a
    status other than 200 show, with the status line and the body in the
    message. *)
Theorem query_reports_body_errors_before_status (client : Client) (destURL : URL)
    (resp : Response) :
  NewRequest (client destURL) = None -> Sign (client destURL) = None ->
  Do (client destURL) = Ok resp ->
  (forall rerr, (ReadAll resp).2 = Some rerr ->
     queryCephAdminAPI client destURL = Err ("failed to read response body - " ++ rerr)) /\
  (forall cerr, (ReadAll resp).2 = None -> Close resp = Some cerr ->
     queryCephAdminAPI client destURL = Err ("failed to close response body - " ++ cerr)) /\
  ((ReadAll resp).2 = None -> Close resp = None -> StatusCode resp <> StatusOK ->
     queryCephAdminAPI client destURL
       = Err ("server returned " ++ Status resp ++ " - Body: " ++ (ReadAll resp).1)).
Proof.
  intros Hn Hs Hd. unfold queryCephAdminAPI. rewrite Hn, Hs, Hd. simpl.
  destruct resp as [code status [body rdErr] clErr]. simpl.
  split; [|split].
  - by intros rerr ->.
  - by intros cerr -> ->.
  - intros -> -> Hcode. simpl. apply Z.eqb_neq in Hcode. by rewrite Hcode.
Qed.

(** A 500 whose body breaks off: the read error is what comes back. *)
Lemma query_reports_body_errors_before_status_witness :
  let broken : Response :=
    {| StatusCode := 500; Status := "500 Internal Server Error";
       ReadAll := ("<html>", Some "unexpected EOF"); Close := Some "already closed" |} in
  let client : Client := fun _ => {| NewRequest := None; Sign := None; Do := Ok broken |} in
  queryCephAdminAPI client Fixture.rgwURL
    = Err "failed to read response body - unexpected EOF".
Proof.
  intros broken client.
  destruct (query_reports_body_errors_before_status client Fixture.rgwURL broken
              eq_refl eq_refl eq_refl) as (Hread & _).
  apply (Hread "unexpected EOF"). reflexivity.
Defined.

(** X3.  Each single-request fetcher returns a payload exactly when
    nothing fails on the way, and the payload is then what the decoder
    makes of the body the client delivered: the usage response, the
    bucket list, the keys of the user list, one user's quota. *)
Theorem fetchers_return_the_decoded_body `{Library} (client : nat -> Client) (rgwURL : URL) :
  (forall usage,
     getCephUsageStats client rgwURL = Ok usage <->
     let x := client 0%nat (destOf rgwURL "admin/usage" usageQuery) in
     anyFailure unmarshalUsage (Parse rgwURL "admin/usage") x = false /\
     unmarshalUsage (bodyOf x) = Ok usage) /\
  (forall bucketStats,
     getCephBucketStats client rgwURL = Ok bucketStats <->
     let x := client 0%nat (destOf rgwURL "admin/bucket" bucketQuery) in
     anyFailure unmarshalBuckets (Parse rgwURL "admin/bucket") x = false /\
     unmarshalBuckets (bodyOf x) = Ok bucketStats) /\
  (forall users,
     getUserList client rgwURL = Ok users <->
     let x := client 0%nat (destOf rgwURL "admin/user" userListQuery) in
     anyFailure unmarshalUserList (Parse rgwURL "admin/user") x = false /\
     exists userList, unmarshalUserList (bodyOf x) = Ok userList /\ users = Keys userList) /\
  (forall k user stats,
     userLookup client rgwURL k user = Ok stats <->
     let x := client k (destOf rgwURL "admin/user" (userQuery user)) in
     anyFailure unmarshalUserStats (Parse rgwURL "admin/user") x = false /\
     unmarshalUserStats (bodyOf x) = Ok stats).
Proof.
  split; [|split; [|split]].
  - intros usage. unfold getCephUsageStats, destOf, usageQuery.
    rewrite (fetch_ok_any unmarshalUsage id _ _ _ rgwURL). cbv zeta. split.
    + by intros (Ha & v & Hv & ->).
    + intros (Ha & Hv). split; [done | by exists usage].
  - intros bucketStats. unfold getCephBucketStats, destOf, bucketQuery.
    rewrite (fetch_ok_any unmarshalBuckets id _ _ _ rgwURL). cbv zeta. split.
    + by intros (Ha & v & Hv & ->).
    + intros (Ha & Hv). split; [done | by exists bucketStats].
  - intros users. unfold getUserList, destOf, userListQuery.
    by rewrite (fetch_ok_any unmarshalUserList Keys _ _ _ rgwURL).
  - intros k user stats. unfold userLookup, destOf, userQuery.
    rewrite (fetch_ok_any unmarshalUserStats id _ _ _ rgwURL). cbv zeta. split.
    + by intros (Ha & v & Hv & ->).
    + intros (Ha & Hv). split; [done | by exists stats].
Qed.

(** X4.  The user-quota fetch stops at the first lookup that fails: when
    the lookups of all users before the [i]-th succeed and the [i]-th
    fails, the error returned is that lookup's error, unchanged, whatever
    the lookups of the later users would have given. *)
Theorem first_failing_lookup_decides `{Library} (client : nat -> Client) (rgwURL : URL)
    (users : list string) (i : nat) (user : string) (err : error) :
  getUserList client rgwURL = Ok users ->
  users !! i = Some user ->
  userLookup client rgwURL (S i) user = Err err ->
  (forall j u, (j < i)%nat -> users !! j = Some u ->
     is_err (userLookup client rgwURL (S j) u) = false) ->
  getCephUserQuotaStats client rgwURL = Err err.
Proof.
  intros Hl Hi Herr Hbefore. unfold getCephUserQuotaStats. rewrite Hl. simpl.
  by apply (userQuotaLoop_first_failure client rgwURL users 1 ∅ i user err).
Qed.

(** Five users; the third lookup is answered 500 and the fifth would be
    refused: the 500 is reported. *)
Lemma first_failing_lookup_decides_witness :
  @getCephUserQuotaStats Fixture.lib
     (Fixture.scripted [Fixture.ok "five users"; Fixture.ok "on"; Fixture.ok "off";
                        Fixture.answer 500 "500 Internal Server Error" "busy";
                        Fixture.ok "on"; Fixture.refused])
     Fixture.rgwURL
  = Err "failed to get user stats from ceph - server returned 500 Internal Server Error - Body: busy".
Proof.
  apply (@first_failing_lookup_decides Fixture.lib _ Fixture.rgwURL Fixture.fiveUsers
           2%nat "u3").
  - reflexivity.
  - reflexivity.
  - reflexivity.
  - intros [|[|j]] u Hj Hu; [injection Hu as <-; reflexivity
                           |injection Hu as <-; reflexivity | lia].
Defined.

(** X5.  When the user list is fetched and the lookup of every listed
    user succeeds, the user-quota fetch returns a map whose keys are
    exactly the listed users and that gives each user the quota returned
    by the lookup of its last occurrence in the list: a user listed twice
    is looked up twice and keeps the later answer. *)
Theorem user_quota_map_of_listed_users `{Library} (client : nat -> Client) (rgwURL : URL)
    (users : list string) :
  getUserList client rgwURL = Ok users ->
  (forall i u, users !! i = Some u -> is_err (userLookup client rgwURL (S i) u) = false) ->
  exists m,
    getCephUserQuotaStats client rgwURL = Ok m /\
    dom m = list_to_set users /\
    (forall i u, users !! i = Some u ->
       (forall j, (i < j)%nat -> users !! j <> Some u) ->
       exists stats, userLookup client rgwURL (S i) u = Ok stats /\ m !! u = Some stats).
Proof.
  intros Hl Hall. unfold getCephUserQuotaStats. rewrite Hl. simpl.
  destruct (userQuotaLoop_all_ok client rgwURL users 1 ∅ Hall) as (m & Hm & _ & Hin).
  exists m. split; [done|]. split; [|done].
  rewrite (userQuotaLoop_dom client rgwURL users 1 ∅ m Hm).
  by rewrite dom_empty_L, union_empty_l_L.
Qed.

(** The list names [u1] twice; its first lookup says on, its second off. *)
Lemma user_quota_map_of_listed_users_witness :
  let lib : Library :=
    {| Parse := @Parse Fixture.lib; unmarshalUsage := @unmarshalUsage Fixture.lib;
       unmarshalBuckets := @unmarshalBuckets Fixture.lib;
       unmarshalUserStats := @unmarshalUserStats Fixture.lib;
       unmarshalUserList := fun _ => Ok {| Keys := ["u1"; "u2"; "u1"] |} |} in
  let client := Fixture.scripted [Fixture.ok "list"; Fixture.ok "on"; Fixture.ok "on";
                                  Fixture.ok "off"] in
  exists m,
    @getCephUserQuotaStats lib client Fixture.rgwURL = Ok m /\
    dom m = {[ "u1"; "u2" ]} /\
    m !! "u1" = Some Fixture.quotaOff.
Proof.
  intros lib client.
  destruct (@user_quota_map_of_listed_users lib client Fixture.rgwURL ["u1"; "u2"; "u1"])
    as (m & Hm & Hdom & Hlast).
  - reflexivity.
  - intros [|[|[|i]]] u Hu; [injection Hu as <-; reflexivity ..| discriminate Hu].
  - exists m. split; [done|]. split.
    + rewrite Hdom. simpl. set_solver.
    + destruct (Hlast 2%nat "u1" eq_refl) as (stats & Hs & Hmu).
      * intros [|[|[|j]]] Hj; try lia. by simpl.
      * rewrite Hmu. f_equal. by injection Hs as <-.
Defined.

(** X6.  The user-quota fetch consults its client for the user list and
    then once per listed user, and for nothing else: two clients that
    answer those requests alike give the same result. *)
Theorem user_quota_fetch_is_local `{Library} (client client' : nat -> Client) (rgwURL : URL)
    (users : list string) :
  getUserList client rgwURL = Ok users ->
  (forall k u, (k <= length users)%nat -> client k u = client' k u) ->
  getCephUserQuotaStats client' rgwURL = getCephUserQuotaStats client rgwURL.
Proof.
  intros Hl Hagree. unfold getCephUserQuotaStats.
  rewrite <- (getUserList_ext client client' rgwURL) by (intros u; apply Hagree; lia).
  rewrite Hl. simpl. symmetry. apply userQuotaLoop_ext.
  intros i u Hi. apply Hagree. simpl. lia.
Qed.

(** Two clients that differ from the seventh request on. *)
Lemma user_quota_fetch_is_local_witness :
  let script := [Fixture.ok "five users"; Fixture.ok "on"; Fixture.ok "off"; Fixture.ok "on";
                 Fixture.ok "on"; Fixture.ok "off"] in
  @getCephUserQuotaStats Fixture.lib (Fixture.scripted (script ++ [Fixture.ok "on"]))
     Fixture.rgwURL
  = @getCephUserQuotaStats Fixture.lib (Fixture.scripted script) Fixture.rgwURL.
Proof.
  intros script.
  apply (@user_quota_fetch_is_local Fixture.lib _ _ Fixture.rgwURL Fixture.fiveUsers).
  - reflexivity.
  - intros k u Hk. simpl in Hk. unfold Fixture.scripted.
    do 6 (destruct k as [|k]; [reflexivity|]). lia.
Defined.

(** X7.  The usage snapshot never holds two series with the same
    descriptor and label values, however often the payload repeats a
    key, and it holds four series for each distinct key of the payload
    and nothing else. *)
Theorem usage_snapshot_identities_are_unique (o : MapOrder) (start : Z)
    (usageStats : usageResponse) :
  valid_order o ->
  let snap := operationsCollector.aggregate o start usageStats in
  NoDup (identity <$> snap) /\
  length snap = (4 * size (list_to_set (rawEntries usageStats).*1 : gset usageKey))%nat.
Proof.
  intros Ho. cbv zeta. rewrite SnapshotFacts.aggregate_flat_map. split.
  - rewrite (fmap_Permutation identity _ _
               (Permutation_flat_map _ (rangeMap_perm o _ Ho))).
    apply (blocks_identity_NoDup (fun kv : usageKey * usageValue => usageLabels kv.1)).
    + apply usage_series_labels.
    + intros kv. rewrite usage_series_descs. apply Describe_operations_NoDup.
    + change (NoDup ((usageLabels ∘ fst) <$> map_to_list (operationsCollector.combine usageStats))).
      rewrite (list_fmap_compose fst usageLabels).
      apply NoDup_fmap_2; [|apply NoDup_fst_map_to_list].
      intros k k'. apply SnapshotFacts.usageLabels_inj.
  - rewrite (length_flat_map_const _ 4) by (by intros [k v]).
    rewrite (Permutation_length (rangeMap_perm o _ Ho)), length_map_to_list.
    by rewrite <- size_dom, combine_dom.
Qed.

(** The two rows of one key, ranged over in reverse: four series. *)
Lemma usage_snapshot_identities_are_unique_witness :
  let snap := operationsCollector.aggregate Fixture.reversed 1000 Fixture.duplicated in
  NoDup (identity <$> snap) /\ length snap = 4%nat.
Proof.
  intros snap.
  destruct (usage_snapshot_identities_are_unique Fixture.reversed 1000 Fixture.duplicated)
    as (Hnodup & Hlen).
  - intros A l. symmetry. apply Permutation_rev.
  - split; [exact Hnodup|]. subst snap. rewrite Hlen. vm_compute. reflexivity.
Defined.

(** X8.  The user snapshot holds, for every user of the fetched map,
    exactly one quota-enabled, one quota-max-size and one
    quota-max-objects series labelled with the user (1.0 or 0.0 by the
    enabled flag, [float64] of the limits), no series for anyone else,
    three series per user in all, and no two series with the same
    descriptor and label values. *)
Theorem user_snapshot_has_three_series_per_user (o : MapOrder) (start : Z)
    (userQuotaInfo : gmap string userStats) :
  valid_order o ->
  let snap := userInfoCollector.aggregate o start userQuotaInfo in
  (forall user quotaInfo, userQuotaInfo !! user = Some quotaInfo ->
     seriesOf userInfoCollector.userQuotaEnabled [user] snap
       = [userGauge start userInfoCollector.userQuotaEnabled user
            (if usEnabled quotaInfo then float64_one else float64_zero)] /\
     seriesOf userInfoCollector.userQuotaMaxSizeBytes [user] snap
       = [userGauge start userInfoCollector.userQuotaMaxSizeBytes user
            (float64_of_Z (usMaxSize quotaInfo))] /\
     seriesOf userInfoCollector.userQuotaMaxObjects [user] snap
       = [userGauge start userInfoCollector.userQuotaMaxObjects user
            (float64_of_Z (usMaxObjects quotaInfo))]) /\
  (forall user d, userQuotaInfo !! user = None -> seriesOf d [user] snap = []) /\
  length snap = (3 * size userQuotaInfo)%nat /\
  NoDup (identity <$> snap).
Proof.
  intros Ho. cbv zeta. rewrite users_aggregate_flat_map.
  split; [|split; [|split]].
  - intros user quotaInfo Hu.
    assert (Hone : forall d x,
      seriesOf d [user] (userGauges start user quotaInfo) = [x] ->
      seriesOf d [user]
        (flat_map (userInfoCollector.series start) (rangeMap o userQuotaInfo)) = [x]).
    { intros d x Hx. apply Permutation_singleton_r.
      rewrite (seriesOf_user_range o start d user _ Ho), Hu. by rewrite Hx. }
    repeat split; apply Hone; unfold userGauges.
    + rewrite SnapshotFacts.seriesOf_cons_same by done.
      by rewrite !SnapshotFacts.seriesOf_cons_desc by done.
    + rewrite SnapshotFacts.seriesOf_cons_desc by done.
      rewrite SnapshotFacts.seriesOf_cons_same by done.
      by rewrite !SnapshotFacts.seriesOf_cons_desc by done.
    + rewrite !SnapshotFacts.seriesOf_cons_desc by done.
      by rewrite SnapshotFacts.seriesOf_cons_same by done.
  - intros user d Hu. apply Permutation_nil_r.
    by rewrite (seriesOf_user_range o start d user _ Ho), Hu.
  - rewrite (length_flat_map_const _ 3) by (by intros [u q]).
    by rewrite (Permutation_length (rangeMap_perm o _ Ho)), length_map_to_list.
  - rewrite (fmap_Permutation identity _ _
               (Permutation_flat_map _ (rangeMap_perm o _ Ho))).
    apply (blocks_identity_NoDup (fun kv : string * userStats => [kv.1])).
    + apply user_series_labels.
    + intros kv. rewrite user_series_descs. apply Describe_users_NoDup.
    + apply user_keys_NoDup, NoDup_fst_map_to_list.
Qed.

(** Two users, one with the quota on and one with it off. *)
Lemma user_snapshot_has_three_series_per_user_witness :
  let users : gmap string userStats :=
    {[ "u1" := Fixture.quotaOn; "u2" := Fixture.quotaOff ]} in
  let snap := userInfoCollector.aggregate Fixture.reversed 1000 users in
  seriesOf userInfoCollector.userQuotaEnabled ["u2"] snap
    = [userGauge 1000 userInfoCollector.userQuotaEnabled "u2" float64_zero] /\
  length snap = 6%nat.
Proof.
  intros users snap.
  destruct (user_snapshot_has_three_series_per_user Fixture.reversed 1000 users)
    as (Hin & _ & Hlen & _).
  - intros A l. symmetry. apply Permutation_rev.
  - split.
    + apply (Hin "u2" Fixture.quotaOff). reflexivity.
    + subst snap. rewrite Hlen. vm_compute. reflexivity.
Defined.

(** X9.  The bucket snapshot does not merge entries: the shard-count
    series it holds for a label triple are as many as the payload has
    entries with that bucket, owner and zonegroup, so the snapshot is
    free of series with equal descriptor and label values exactly when
    no two entries of the payload share the triple.  It holds seven
    series for an entry with the main usage category and four for one
    without. *)
Theorem bucket_snapshot_repeats_repeated_buckets (start : Z)
    (bucketStats : list bucketInfoEntry) :
  let snap := bucketsCollector.aggregate start bucketStats in
  (forall ls,
     length (seriesOf bucketsCollector.bucketShardCount ls snap)
       = length (filter (fun b => bucketLabels b = ls) bucketStats)) /\
  (NoDup (identity <$> snap) <-> NoDup (bucketLabels <$> bucketStats)) /\
  length snap
    = (4 * length bucketStats + 3 * length (filter hasMain bucketStats))%nat.
Proof.
  cbv zeta. rewrite buckets_aggregate_flat_map. split; [|split].
  - intros ls. induction bucketStats as [|b bs IH]; [done|].
    cbn [flat_map]. rewrite SnapshotFacts.seriesOf_app, length_app, IH.
    rewrite seriesOf_shard_block, filter_cons.
    by destruct (decide (bucketLabels b = ls)).
  - split.
    + intros Hnodup.
      apply (NoDup_fmap_1 (pair bucketsCollector.bucketShardCount)).
      rewrite <- list_fmap_compose.
      exact (sublist_NoDup _ _ Hnodup (shard_identities_sublist start bucketStats)).
    + apply (blocks_identity_NoDup bucketLabels).
      * apply bucket_series_labels.
      * apply bucket_series_descs.
  - induction bucketStats as [|b bs IH]; [done|].
    cbn [flat_map]. rewrite length_app, IH, bucket_series_length, filter_cons.
    destruct (decide (hasMain b)); simpl; lia.
Qed.

(** X10.  Every series a collector builds is one the registry accepts
    from it: its descriptor is among those the collector's [Describe]
    sends, it has as many label values as the descriptor has labels (so
    [MustNewConstMetric] is never handed the wrong number), its value
    type is counter for the usage series and gauge for the bucket and
    user series, and its timestamp is the start of the cycle. *)
Theorem snapshots_hold_described_series (o : MapOrder) (start : Z) :
  (forall usageStats,
     Forall (wellFormedSeries Describe.operationsCollector CounterValue start)
       (operationsCollector.aggregate o start usageStats)) /\
  (forall bucketStats,
     Forall (wellFormedSeries Describe.bucketsCollector GaugeValue start)
       (bucketsCollector.aggregate start bucketStats)) /\
  (forall userQuotaInfo,
     Forall (wellFormedSeries Describe.userInfoCollector GaugeValue start)
       (userInfoCollector.aggregate o start userQuotaInfo)).
Proof.
  assert (Hblocks : forall A (f : A -> list Metric) (P : Metric -> Prop) (l : list A),
            (forall a, Forall P (f a)) -> Forall P (flat_map f l)).
  { intros A f P l Hf. induction l as [|a l IH]; simpl; [constructor|].
    apply Forall_app. split; [apply Hf | apply IH]. }
  split; [|split].
  - intros usageStats. rewrite SnapshotFacts.aggregate_flat_map.
    apply Hblocks. intros [k v]. unfold operationsCollector.series.
    repeat (apply Forall_cons; split;
            [unfold wellFormedSeries, Describe.operationsCollector; simpl;
             split; [set_solver | done]|]).
    constructor.
  - intros bucketStats. rewrite buckets_aggregate_flat_map.
    apply Hblocks. intros b.
    unfold bucketsCollector.series, bucketsCollector.shardSeries,
      bucketsCollector.usageSeries, bucketsCollector.quotaSeries.
    destruct (Usage b !! "rgw.main"); cbn [app];
      repeat (apply Forall_cons; split;
              [unfold wellFormedSeries, Describe.bucketsCollector; simpl;
               split; [set_solver | done]|]);
      constructor.
  - intros userQuotaInfo. rewrite users_aggregate_flat_map.
    apply Hblocks. intros [user quotaInfo]. unfold userInfoCollector.series.
    repeat (apply Forall_cons; split;
            [unfold wellFormedSeries, Describe.userInfoCollector; simpl;
             split; [set_solver | done]|]).
    constructor.
Qed.

(** X11.  With a positive interval, whatever rounds a collector's loop
    has gone through, a reader is handed the aggregate of the most
    recent cycle whose fetch succeeded, whole and in the order it was
    built, however many failed cycles came after it; if no cycle has
    succeeded, the reader is handed what it would have been handed before
    the loop started.  Rounds after the loop has returned play no part. *)
Theorem readers_get_the_latest_successful_aggregate `{Library} (rgwURL : URL)
    (interval : Z) (rounds : list Round) (c : collector) :
  0 < interval ->
  servesLatest (fun e => getCephUsageStats (envClient e) rgwURL)
    (fun e => operationsCollector.aggregate (envOrder e) (envStart e))
    rounds c (operationsCollector.FetchMetrics rgwURL interval rounds c).1 /\
  servesLatest (fun e => getCephBucketStats (envClient e) rgwURL)
    (fun e => bucketsCollector.aggregate (envStart e))
    rounds c (bucketsCollector.FetchMetrics rgwURL interval rounds c).1 /\
  servesLatest (fun e => getCephUserQuotaStats (envClient e) rgwURL)
    (fun e => userInfoCollector.aggregate (envOrder e) (envStart e))
    rounds c (userInfoCollector.FetchMetrics rgwURL interval rounds c).1.
Proof.
  intros Hpos.
  unfold operationsCollector.FetchMetrics, bucketsCollector.FetchMetrics,
    userInfoCollector.FetchMetrics.
  rewrite (NewTicker_positive interval Hpos).
  split; [|split].
  - apply fetchLoop_servesLatest, ops_cycleOf.
  - apply fetchLoop_servesLatest, buckets_cycleOf.
  - apply fetchLoop_servesLatest, users_cycleOf.
Qed.

(** A cycle that fetches five users, then two cycles that are refused:
    the reader still gets the fifteen series of the first. *)
Lemma readers_get_the_latest_successful_aggregate_witness :
  let good := Fixture.cycle [Fixture.ok "five users"; Fixture.ok "on"; Fixture.ok "off";
                             Fixture.ok "on"; Fixture.ok "on"; Fixture.ok "off"] in
  let bad := Fixture.cycle [Fixture.refused] in
  let rounds := [ {| ctxErr := false; env := good; wake := Tick |};
                  {| ctxErr := false; env := bad; wake := Tick |};
                  {| ctxErr := false; env := bad; wake := Tick |} ] in
  servesLatest (fun e => @getCephUserQuotaStats Fixture.lib (envClient e) Fixture.rgwURL)
    (fun e => userInfoCollector.aggregate (envOrder e) (envStart e))
    rounds newCollector
    (@userInfoCollector.FetchMetrics Fixture.lib Fixture.rgwURL (60 * Second) rounds
       newCollector).1.
Proof.
  intros good bad rounds.
  apply (@readers_get_the_latest_successful_aggregate Fixture.lib Fixture.rgwURL
           (60 * Second) rounds newCollector).
  reflexivity.
Defined.

(** X12.  With a positive interval, over any run of a collector's loop
    the success counter grows by the number of executed cycles whose
    fetch succeeded and the error counter by the number of executed
    cycles whose fetch failed, so the two together count every executed
    cycle exactly once; a counter for any other status is never
    touched. *)
Theorem every_cycle_is_counted_once `{Library} (rgwURL : URL) (interval : Z)
    (rounds : list Round) (c : collector) :
  0 < interval ->
  countsRounds (fun e => getCephUsageStats (envClient e) rgwURL) rounds c
    (operationsCollector.FetchMetrics rgwURL interval rounds c).1 /\
  countsRounds (fun e => getCephBucketStats (envClient e) rgwURL) rounds c
    (bucketsCollector.FetchMetrics rgwURL interval rounds c).1 /\
  countsRounds (fun e => getCephUserQuotaStats (envClient e) rgwURL) rounds c
    (userInfoCollector.FetchMetrics rgwURL interval rounds c).1.
Proof.
  intros Hpos.
  unfold operationsCollector.FetchMetrics, bucketsCollector.FetchMetrics,
    userInfoCollector.FetchMetrics.
  rewrite (NewTicker_positive interval Hpos).
  split; [|split].
  - eapply fetchLoop_countsRounds, ops_cycleOf.
  - eapply fetchLoop_countsRounds, buckets_cycleOf.
  - eapply fetchLoop_countsRounds, users_cycleOf.
Qed.

(** A cycle that succeeds, one that is refused, and a cancellation that
    keeps the third round from running. *)
Lemma every_cycle_is_counted_once_witness :
  let rounds :=
    [ {| ctxErr := false; env := Fixture.cycle [Fixture.ok "empty"]; wake := Tick |};
      {| ctxErr := false; env := Fixture.cycle [Fixture.refused]; wake := Done |};
      {| ctxErr := false; env := Fixture.cycle [Fixture.ok "empty"]; wake := Tick |} ] in
  countsRounds (fun e => @getCephUsageStats Fixture.lib (envClient e) Fixture.rgwURL)
    rounds newCollector
    (@operationsCollector.FetchMetrics Fixture.lib Fixture.rgwURL (60 * Second) rounds
       newCollector).1.
Proof.
  intros rounds.
  apply (@every_cycle_is_counted_once Fixture.lib Fixture.rgwURL (60 * Second) rounds
           newCollector).
  reflexivity.
Defined.

(** X13.  The loop returns exactly when some round finds the context
    cancelled at its head or takes the [Done] case of its [select];
    nothing after the first such round has any effect; and a loop whose
    first check finds the context cancelled runs no cycle at all: it
    records the check and returns, leaving snapshot, gauge and counters as
    they were. *)
Theorem cancellation_ends_the_loop (scrape : CycleEnv -> collector -> collector)
    (rounds : list Round) (c : collector) :
  fetchLoop scrape rounds c = fetchLoop scrape (untilStop rounds) c /\
  ((fetchLoop scrape rounds c).2 = Returned <-> Exists stops rounds) /\
  (forall r rest, rounds = r :: rest -> ctxErr r = true ->
     let c' := (fetchLoop scrape rounds c).1 in
     emitted c c' = [ACtxErr true] /\ metrics c' = metrics c /\
     scrapeDurationSeconds c' = scrapeDurationSeconds c /\
     scrapeCountTotal c' = scrapeCountTotal c).
Proof.
  split; [by rewrite fetchLoop_untilStop|]. split; [apply fetchLoop_returned|].
  intros r rest -> Hctx. simpl. rewrite Hctx. simpl. repeat split.
  by apply emitted_app.
Qed.

(** X14.  [cephHealthCheck] returns nil exactly when the health-check
    URL can be built, the request is created, the client answers, the
    body is drained and closed without error and the status is 200.  The
    probe is not signed: whether signing would succeed makes no
    difference to it. *)
Theorem health_check_passes_iff `{Library} (client : Client) (rgwURL : URL) :
  (cephHealthCheck client rgwURL = Ok tt <->
   exists u, Parse rgwURL "swift/healthcheck" = Ok u /\ healthy (client u)) /\
  (forall signErr,
     cephHealthCheck
       (fun u => {| NewRequest := NewRequest (client u); Sign := signErr;
                    Do := Do (client u) |}) rgwURL
     = cephHealthCheck client rgwURL).
Proof.
  split; [apply cephHealthCheck_ok_iff|].
  intros signErr. by apply cephHealthCheck_ext.
Qed.

(** X15.  The readiness handler answers 200 with the body [ready]
    exactly when the health probe passes, and otherwise 500 with the
    probe's error in the body; the liveness handler answers 200 with the
    body [alive] whatever the state of the gateway.  A failure to write
    the answer is logged and changes nothing else. *)
Theorem readiness_follows_the_probe `{Library} (client : Client) (rgwURL : URL)
    (write : string -> option error) :
  let a := readiness client rgwURL write in
  (wroteHeader a = StatusOK <->
   exists u, Parse rgwURL "swift/healthcheck" = Ok u /\ healthy (client u)) /\
  (cephHealthCheck client rgwURL = Ok tt -> wrote a = "ready") /\
  (forall err, cephHealthCheck client rgwURL = Err err ->
     wroteHeader a = StatusInternalServerError /\
     wrote a = "Ceph Health check failed - " ++ err) /\
  (loggedErrors a = [] <-> write (wrote a) = None) /\
  wroteHeader (liveness write) = StatusOK /\ wrote (liveness write) = "alive".
Proof.
  cbv zeta. rewrite <- cephHealthCheck_ok_iff. unfold readiness.
  destruct (cephHealthCheck client rgwURL) as [[]|err]; simpl.
  - split; [done|]. split; [done|]. split; [by intros err [=]|].
    split; [|done]. destruct (write "ready"); split; done.
  - split; [split; discriminate|]. split; [discriminate|].
    split; [by intros err' [= <-]|].
    split; [|done]. destruct (write _); split; done.
Qed.

(** X16.  [RunServer] returns nil exactly when the log level parses,
    the gateway URL, the interval, the access key and the secret key are
    all non-empty, the URL and the interval parse and the interval is
    positive.  It returns an error exactly when one of its checks fails,
    and has then started nothing: neither the scrapers nor the listener.
    An interval that parses but is not positive passes the checks: the
    scrapers are started with it and the call ends in the panic of
    [time.NewTicker] instead of a return.  When it returns nil it has
    started the scrapers once, with the parsed URL and interval and the
    two keys as configured, and the listener once, on the configured
    port. *)
Theorem server_starts_only_when_configured `{Settings} (sd : ShutdownEnv) :
  let tr := (RunServer sd).1 in
  let exit := (RunServer sd).2 in
  (exit = Returns None <-> configured) /\
  ((exists err, exit = Returns (Some err)) <-> ~ validated) /\
  (forall msg,
     exit = Panics msg <->
     validated /\ intervalIs (fun interval => interval <= 0) /\
     msg = "non-positive interval for NewTicker") /\
  (forall err, exit = Returns (Some err) -> forall a, a ∈ tr -> ~ starts a) /\
  (forall msg, exit = Panics msg ->
     exists rgwURL interval,
       interval <= 0 /\
       SStartScraping rgwURL (GetString viperAccessKey) (GetString viperSecretKey) interval
         ∈ tr) /\
  (exit = Returns None ->
     exists rgwURL interval,
       url_Parse (GetString viperRGWURL) = Ok rgwURL /\
       Str2Duration (GetString viperInterval) = Ok interval /\
       0 < interval /\
       filter starts tr
         = [ SStartScraping rgwURL (GetString viperAccessKey) (GetString viperSecretKey)
               interval;
             SListenAndServe (":" ++ pretty (GetInt viperPort)) ]).
Proof.
  cbv zeta. unfold configured, intervalIs.
  destruct validated_or_not as [Hv|Hv].
  - destruct (RunServer_accepts sd Hv) as (rgwURL & interval & Hu & Hi & Hst & Hle & Hpos).
    destruct (Z.le_gt_cases interval 0) as [Hneg|Hgt].
    + rewrite (Hle Hneg). split; [|split; [|split; [|split; [|split]]]].
      * split; [discriminate|]. intros (_ & i & Hi' & Hi0). rewrite Hi in Hi'.
        injection Hi' as <-. lia.
      * split; [by intros [err [=]] | done].
      * intros msg. split.
        -- intros [= <-]. split; [done|]. split; [by exists interval | done].
        -- by intros (_ & _ & ->).
      * discriminate.
      * intros msg _. exists rgwURL, interval. split; [done|].
        apply (list_elem_of_filter starts). rewrite Hst. by left.
      * discriminate.
    + destruct (Hpos Hgt) as [-> _]. split; [|split; [|split; [|split; [|split]]]].
      * split; [|done]. intros _. split; [done | by exists interval].
      * split; [by intros [err [=]] | done].
      * intros msg. split; [discriminate|].
        intros (_ & (i & Hi' & Hi0) & _). rewrite Hi in Hi'. injection Hi' as <-. lia.
      * discriminate.
      * discriminate.
      * intros _. by exists rgwURL, interval.
  - destruct (RunServer_rejects sd Hv) as (err & Herr & Hnone). rewrite Herr.
    split; [|split; [|split; [|split; [|split]]]].
    + split; [discriminate | by intros [? _]].
    + split; [done | by exists err].
    + intros msg. split; [discriminate | by intros [? _]].
    + intros _ _. exact Hnone.
    + discriminate.
    + discriminate.
Qed.

(** An interval of [0s] passes the checks: the call ends in the panic. *)
Lemma server_starts_only_when_configured_witness :
  (@RunServer Fixture_zero_interval
     {| doneSignal := "interrupt"; shutdownErr := None; srvCloseErr := None |}).2
  = Panics "non-positive interval for NewTicker".
Proof.
  apply (@server_starts_only_when_configured Fixture_zero_interval).
  split; [repeat split; discriminate|].
  split; [|reflexivity]. exists 0. split; [reflexivity | lia].
Defined.

(** X17.  With its settings in order and a positive interval
    [RunServer] goes through the whole shut-down whatever [Shutdown]
    and [Close] return: it calls [Shutdown] with ten seconds, then
    [Close], then cancels the server's context, logs each of the two
    errors if there is one, and returns nil. *)
Theorem shutdown_runs_to_the_end `{Settings} (sd : ShutdownEnv) :
  configured ->
  (RunServer sd).2 = Returns None /\
  (exists before between after,
     (RunServer sd).1
       = (before ++ SShutdown (10 * Second) :: between ++ SClose :: after)%list /\
     SAwaitSignal ∈ before /\ SServerCancel ∈ after /\
     between = logIfErr "HTTP Server Shutdown Failed - " (shutdownErr sd) /\
     (forall err, srvCloseErr sd = Some err ->
        SErrorf ("Failed closing server: " ++ err) ∈ after)).
Proof.
  intros (Hv & i & Hi & Hpos).
  destruct (RunServer_accepts sd Hv) as (rgwURL & interval & _ & Hi' & _ & _ & Hrun).
  rewrite Hi in Hi'. injection Hi' as <-. exact (Hrun Hpos).
Qed.

(** [Shutdown] runs into its deadline and [Close] fails too. *)
Lemma shutdown_runs_to_the_end_witness :
  let sd := {| doneSignal := "terminated";
               shutdownErr := Some "context deadline exceeded";
               srvCloseErr := Some "close tcp: use of closed network connection" |} in
  (@RunServer Fixture_settings sd).2 = Returns None /\
  SErrorf "HTTP Server Shutdown Failed - context deadline exceeded"
    ∈ (@RunServer Fixture_settings sd).1.
Proof.
  intros sd.
  destruct (@shutdown_runs_to_the_end Fixture_settings sd)
    as (Hnil & before & between & after & Htr & _ & _ & Hbetween & _).
  - split; [repeat split; discriminate|]. exists (60 * Second). split; reflexivity.
  - split; [exact Hnil|]. rewrite Htr, Hbetween. simpl.
    apply elem_of_app. right. right. by left.
Defined.

(** X18.  Aggregation goes through concatenation: the aggregate of a
    key over a payload whose entries are those of one payload followed by
    those of another is the field-wise [int64] sum of the two payloads'
    aggregates for the key, and the aggregate of the one payload that has
    the key when the other has not. *)
Theorem usage_aggregate_of_joined_payloads (entries1 entries2 : list usageEntry)
    (k : usageKey) :
  operationsCollector.combine {| Entries := entries1 ++ entries2 |} !! k
    = union_with (fun v1 v2 => Some (addValues v1 v2))
        (operationsCollector.combine {| Entries := entries1 |} !! k)
        (operationsCollector.combine {| Entries := entries2 |} !! k).
Proof.
  rewrite !combine_lookup, rawEntries_app.
  unfold withKey, exactValue, withKey. rewrite !filter_app.
  generalize (filter (fun kc : usageKey * usageCategoryEntry => kc.1 = k)
                (rawEntries {| Entries := entries1 |})).
  generalize (filter (fun kc : usageKey * usageCategoryEntry => kc.1 = k)
                (rawEntries {| Entries := entries2 |})).
  intros l2 l1.
  destruct l1 as [|x1 l1], l2 as [|x2 l2]; try done.
  - rewrite app_nil_r. done.
  - rewrite !decide_False by done. simpl union_with.
    f_equal. unfold wrapValue, addValues, add64. simpl.
    rewrite !UsageFacts.sumOver_app. simpl. rewrite !wrap64_add.
    f_equal; f_equal; lia.
Qed.

(** X19.  Over any run of a collector's loop, whatever the interval,
    the snapshot is written only while the lock is held, and the lock is
    free again whenever the loop has finished a round: the loop neither
    writes outside the lock nor keeps the lock across its wait or its
    return. *)
Theorem loop_keeps_the_lock_discipline `{Library} (rgwURL : URL) (interval : Z)
    (rounds : list Round) (c : collector) :
  lockDisciplined
    (emitted c (operationsCollector.FetchMetrics rgwURL interval rounds c).1) /\
  lockDisciplined
    (emitted c (bucketsCollector.FetchMetrics rgwURL interval rounds c).1) /\
  lockDisciplined
    (emitted c (userInfoCollector.FetchMetrics rgwURL interval rounds c).1).
Proof.
  unfold operationsCollector.FetchMetrics, bucketsCollector.FetchMetrics,
    userInfoCollector.FetchMetrics.
  destruct (NewTicker interval) as [msg|].
  { cbn [fst]. rewrite (emitted_app c c []) by (by rewrite app_nil_r). by repeat split. }
  split; [|split]; apply FetchMetrics_lockDisciplined; intros e c0; eexists.
  - split; [apply ops_trace|].
    destruct (getCephUsageStats _ _);
      [apply successTrace_lockDisciplined | apply failureTrace_lockDisciplined].
  - split; [apply buckets_trace|].
    destruct (getCephBucketStats _ _);
      [apply successTrace_lockDisciplined | apply failureTrace_lockDisciplined].
  - split; [apply users_trace|].
    destruct (getCephUserQuotaStats _ _);
      [apply successTrace_lockDisciplined | apply failureTrace_lockDisciplined].
Qed.

(** X20.  A collector's [FetchMetrics] panics exactly when its interval
    is not positive, and then before anything else: the collector is as
    it was, no clock is read and no fetch made.  With a positive
    interval the creation of the ticker, with that interval, is the
    first thing the loop does. *)
Theorem loop_panics_iff_interval_not_positive `{Library} (rgwURL : URL) (interval : Z)
    (rounds : list Round) (c : collector) :
  let runs := [ operationsCollector.FetchMetrics rgwURL interval rounds c;
                bucketsCollector.FetchMetrics rgwURL interval rounds c;
                userInfoCollector.FetchMetrics rgwURL interval rounds c ] in
  Forall (fun r : collector * LoopStatus =>
            (r.2 = Panicked <-> interval <= 0) /\
            (r.2 = Panicked -> r.1 = c) /\
            (r.2 <> Panicked ->
               exists tr, trace r.1 = (trace c ++ ANewTicker interval :: tr)%list)) runs.
Proof.
  cbv zeta.
  unfold operationsCollector.FetchMetrics, bucketsCollector.FetchMetrics,
    userInfoCollector.FetchMetrics.
  destruct (Z.le_gt_cases interval 0) as [Hle|Hgt].
  - rewrite (NewTicker_non_positive interval Hle).
    repeat (apply Forall_cons; split; [by repeat split|]). constructor.
  - rewrite (NewTicker_positive interval Hgt).
    assert (Hloop : forall scrape,
              (forall e c0, exists tr, trace (scrape e c0) = (trace c0 ++ tr)%list) ->
              let r := fetchLoop scrape rounds (act (ANewTicker interval) c) in
              (r.2 = Panicked <-> interval <= 0) /\
              (r.2 = Panicked -> r.1 = c) /\
              (r.2 <> Panicked ->
                 exists tr, trace r.1 = (trace c ++ ANewTicker interval :: tr)%list)).
    { intros scrape Hs. cbv zeta.
      pose proof (fetchLoop_not_Panicked scrape rounds (act (ANewTicker interval) c)) as Hnp.
      split; [split; [done | lia]|]. split; [done|]. intros _.
      destruct (fetchLoop_trace_grows scrape rounds Hs (act (ANewTicker interval) c))
        as [tr Htr].
      exists tr. rewrite Htr. simpl. by rewrite <- app_assoc. }
    repeat (apply Forall_cons; split; [apply Hloop; intros e c0; eexists|]).
    + apply ops_trace.
    + apply buckets_trace.
    + apply users_trace.
    + constructor.
Qed.
